(** * The workflow grammar of shinkai-node, as a parser

    The workflow language is defined by a pest grammar (the 29 lines at the
    end of [shinkai-app/src/api/index.ts]).  pest compiles every rule of a
    grammar to a recognising function over a parser state; this file writes
    those functions in Rocq, rule by rule, on top of the handful of
    operations of pest's parser state ([match_string], [match_range],
    [sequence], [optional], [repeat], [lookahead], [atomic], [rule]) and the
    implicit-whitespace [skip] that pest inserts for [~] and for repetitions
    inside non-atomic rules. *)

From Stdlib Require Import Ascii String Bool Arith NArith Lia List.
Import ListNotations.

Set Warnings "-register-all".

(** ** Characters and source text *)

(** The grammar only inspects ASCII characters, so a character of the source
    is an [ascii]. *)
Definition input := list ascii.

Definition text (cs : input) : string := string_of_list_ascii cs.
Definition chars (s : string) : input := list_ascii_of_string s.

Definition TAB : ascii := ascii_of_nat 9.
Definition LF : ascii := ascii_of_nat 10.
Definition CR : ascii := ascii_of_nat 13.
Definition QUOTE : ascii := ascii_of_nat 34.
Definition BACKSLASH : ascii := ascii_of_nat 92.

(** ** Rules, pairs and results *)

(** The rules of the grammar that produce a pair.  The silent rules
    ([author_tag], [string], [number], [WHITESPACE]) never appear in a parse
    result or in an error. *)
Module Rule.
Inductive t : Type :=
| workflow | step | step_body | condition | for_loop | action | command
| param | register | external_fn_call | expression | simple_expression
| range_expression | register_operation | comparison_operator | value
| split_expression | version | sticky_tag | identifier | identity
| delimiter | boolean.

Definition eqb (a b : t) : bool :=
  match a, b with
  | workflow, workflow | step, step | step_body, step_body
  | condition, condition | for_loop, for_loop | action, action
  | command, command | param, param | register, register
  | external_fn_call, external_fn_call | expression, expression
  | simple_expression, simple_expression
  | range_expression, range_expression
  | register_operation, register_operation
  | comparison_operator, comparison_operator | value, value
  | split_expression, split_expression | version, version
  | sticky_tag, sticky_tag | identifier, identifier | identity, identity
  | delimiter, delimiter | boolean, boolean => true
  | _, _ => false
  end.
End Rule.

(** A pair: the rule that matched, the text of its span and the pairs of the
    rules matched inside it. *)
Inductive Pair : Type :=
| Node (rule : Rule.t) (span : string) (inner : list Pair).

Definition pair_rule (p : Pair) : Rule.t := let (r, _, _) := p in r.
Definition as_str (p : Pair) : string := let (_, s, _) := p in s.
Definition into_inner (p : Pair) : list Pair := let (_, _, i) := p in i.

Inductive Atomicity : Type := Atomic | NonAtomic.

(** The outcome of a rule at a position: it matched, consuming [consumed]
    and leaving [rest]; it did not match; or it does not return. *)
Inductive Result : Type :=
| Ok (consumed : input) (pairs : list Pair) (rest : input)
| Err
| Loop.

(** The failed attempts that pest keeps for its error message: the furthest
    position at which a rule was tried and failed, kept here as the number
    of characters left at that position, and the rules tried there. *)
Definition Attempts := option (nat * list Rule.t).

Definition merge (l1 l2 : Attempts) : Attempts :=
  match l1, l2 with
  | None, l => l
  | l, None => l
  | Some (n1, e1), Some (n2, e2) =>
      if n2 <? n1 then l2
      else if n2 =? n1 then Some (n1, e1 ++ e2)
      else l1
  end.

Definition Parser := Atomicity -> input -> Result * Attempts.

(** ** The operations of the parser state *)

Fixpoint match_prefix (lit s : input) : option input :=
  match lit, s with
  | [], _ => Some s
  | c :: lit', d :: s' => if Ascii.eqb c d then match_prefix lit' s' else None
  | _ :: _, [] => None
  end.

Definition match_chars (lit : input) : Parser := fun _ s =>
  match match_prefix lit s with
  | Some r => (Ok lit [] r, None)
  | None => (Err, None)
  end.

Definition match_string (lit : string) : Parser := match_chars (chars lit).

Definition in_range (lo hi c : ascii) : bool :=
  (N_of_ascii lo <=? N_of_ascii c)%N && (N_of_ascii c <=? N_of_ascii hi)%N.

Definition match_range (lo hi : ascii) : Parser := fun _ s =>
  match s with
  | c :: r => if in_range lo hi c then (Ok [c] [] r, None) else (Err, None)
  | [] => (Err, None)
  end.

Definition ANY : Parser := fun _ s =>
  match s with
  | c :: r => (Ok [c] [] r, None)
  | [] => (Err, None)
  end.

(** [p.and_then(q)]: [q] continues where [p] stopped. *)
Definition and_then (p q : Parser) : Parser := fun a s =>
  match p a s with
  | (Ok c1 t1 r1, l1) =>
      match q a r1 with
      | (Ok c2 t2 r2, l2) => (Ok (c1 ++ c2) (t1 ++ t2) r2, merge l1 l2)
      | (Err, l2) => (Err, merge l1 l2)
      | (Loop, l2) => (Loop, merge l1 l2)
      end
  | (Err, l1) => (Err, l1)
  | (Loop, l1) => (Loop, l1)
  end.

(** [p.or_else(q)]: ordered choice. *)
Definition or_else (p q : Parser) : Parser := fun a s =>
  match p a s with
  | (Err, l1) => let (r, l2) := q a s in (r, merge l1 l2)
  | ok_or_loop => ok_or_loop
  end.

Definition optional (p : Parser) : Parser := fun a s =>
  match p a s with
  | (Err, l) => (Ok [] [] s, l)
  | ok_or_loop => ok_or_loop
  end.

(** [repeat] applies [p] until it fails.  An application that succeeds
    without consuming would be applied for ever; [n] bounds the number of
    applications, and one more than the length of the text is enough for a
    [p] that consumes. *)
Fixpoint repeat_n (n : nat) (p : Parser) (a : Atomicity) (s : input)
  : Result * Attempts :=
  match n with
  | 0 => (Loop, None)
  | S n' =>
      match p a s with
      | (Ok c1 t1 r1, l1) =>
          match repeat_n n' p a r1 with
          | (Ok c2 t2 r2, l2) => (Ok (c1 ++ c2) (t1 ++ t2) r2, merge l1 l2)
          | (other, l2) => (other, merge l1 l2)
          end
      | (Err, l1) => (Ok [] [] s, l1)
      | (Loop, l1) => (Loop, l1)
      end
  end.

Definition repeat (p : Parser) : Parser := fun a s =>
  repeat_n (S (length s)) p a s.

(** Negative lookahead.  The grammar only looks ahead for a literal, which
    records no attempt. *)
Definition lookahead_not (p : Parser) : Parser := fun a s =>
  match fst (p a s) with
  | Ok _ _ _ => (Err, None)
  | Err => (Ok [] [] s, None)
  | Loop => (Loop, None)
  end.

Definition atomic (a : Atomicity) (p : Parser) : Parser := fun _ s => p a s.

(** [track]: what a failed rule adds to the attempts.  [inner] holds the
    attempts made while the rule was tried on [s]. *)
Definition track (r : Rule.t) (a : Atomicity) (s : input) (inner : Attempts)
  : Attempts :=
  match a with
  | Atomic => inner
  | NonAtomic =>
      match inner with
      | None => Some (length s, [r])
      | Some (n, e) =>
          if n <? length s then inner
          else if length e =? 1 then inner
          else Some (length s, [r])
      end
  end.

(** [rule]: a rule that matches outside an atomic rule gives a pair. *)
Definition rule (r : Rule.t) (p : Parser) : Parser := fun a s =>
  match p a s with
  | (Ok c t rest, l) =>
      (Ok c match a with
            | Atomic => t
            | NonAtomic => [Node r (text c) t]
            end rest, l)
  | (Err, l) => (Err, track r a s l)
  | (Loop, l) => (Loop, l)
  end.

(** ** The operators of the grammar *)

Definition WHITESPACE : Parser :=
  atomic Atomic
    (or_else (or_else (or_else (match_string " ") (match_chars [TAB]))
                (match_chars [LF]))
       (match_chars [CR])).

Definition skip : Parser := fun a s =>
  match a with
  | NonAtomic => repeat WHITESPACE a s
  | Atomic => (Ok [] [] s, None)
  end.

(** [p ~ q] *)
Definition seq (p q : Parser) : Parser := and_then p (and_then skip q).

(** [p*] *)
Definition star (p : Parser) : Parser :=
  optional (and_then p (repeat (and_then skip p))).

(** [p+], which pest unrolls to [p ~ p*] *)
Definition plus (p : Parser) : Parser := seq p (star p).

Declare Scope pest_scope.
Delimit Scope pest_scope with pest.
Bind Scope pest_scope with Parser.
Notation "p ~~ q" := (seq p q) (at level 40, left associativity) : pest_scope.
Notation "p <|> q" := (or_else p q) (at level 50, left associativity)
  : pest_scope.

Definition lit (s : string) : Parser := match_string s.
Definition chr (c : ascii) : Parser := match_chars [c].
Definition opt (p : Parser) : Parser := optional p.
Definition not_ (p : Parser) : Parser := lookahead_not p.

Definition ASCII_DIGIT : Parser := match_range "0" "9".
Definition ASCII_ALPHA : Parser :=
  or_else (match_range "a" "z") (match_range "A" "Z").
Definition ASCII_ALPHANUMERIC : Parser := or_else ASCII_DIGIT ASCII_ALPHA.

(** The three kinds of rule of the grammar: [{ }], [@{ }] and [_{ }]. *)
Definition normal (r : Rule.t) (p : Parser) : Parser := rule r p.
Definition atomic_rule (r : Rule.t) (p : Parser) : Parser :=
  rule r (atomic Atomic p).
Definition silent (p : Parser) : Parser := p.

Definition diverge : Parser := fun _ _ => (Loop, None).

(** ** The grammar *)

Module Grammar.
Local Open Scope pest_scope.

Definition number : Parser := silent (plus ASCII_DIGIT).

Definition boolean : Parser := normal Rule.boolean (lit "true" <|> lit "false").

Definition delimiter : Parser :=
  normal Rule.delimiter
    (chr QUOTE ~~ star (not_ (chr QUOTE) ~~ ANY) ~~ chr QUOTE).

Definition string : Parser :=
  silent
    (chr QUOTE
       ~~ star (match_chars [BACKSLASH; QUOTE] <|> (not_ (chr QUOTE) ~~ ANY))
       ~~ chr QUOTE).

Definition identity : Parser :=
  atomic_rule Rule.identity
    (star (ASCII_ALPHANUMERIC <|> lit "_" <|> lit "." <|> lit "-")).

Definition identifier : Parser :=
  atomic_rule Rule.identifier (plus (ASCII_ALPHANUMERIC <|> lit "_")).

Definition sticky_tag : Parser := atomic_rule Rule.sticky_tag (lit "sticky").

Definition author_tag : Parser := silent (lit "@" ~~ lit "@" ~~ identity).

Definition version : Parser :=
  normal Rule.version
    (lit "v" ~~ plus ASCII_DIGIT ~~ star (lit "." ~~ plus ASCII_DIGIT)).

Definition register : Parser := normal Rule.register (lit "$" ~~ identifier).

Definition split_expression : Parser :=
  normal Rule.split_expression
    ((register <|> identifier <|> string) ~~ lit ".split(" ~~ delimiter ~~ lit ")").

Definition value : Parser :=
  normal Rule.value (string <|> number <|> boolean <|> identifier <|> register).

Definition comparison_operator : Parser :=
  normal Rule.comparison_operator
    (lit "==" <|> lit "!=" <|> lit ">" <|> lit "<" <|> lit ">=" <|> lit "<=").

Definition param : Parser :=
  normal Rule.param (string <|> number <|> boolean <|> identifier <|> register).

Definition external_fn_call : Parser :=
  normal Rule.external_fn_call
    (lit "call" ~~ identifier ~~ lit "("
       ~~ opt (param ~~ star (lit "," ~~ param)) ~~ lit ")").

Definition register_operation : Parser :=
  normal Rule.register_operation
    (register ~~ lit "=" ~~ (external_fn_call <|> value)).

Definition range_expression : Parser :=
  normal Rule.range_expression (identifier ~~ lit ".." ~~ identifier).

Definition simple_expression : Parser :=
  normal Rule.simple_expression
    (identifier <|> number <|> boolean <|> string <|> register).

Definition expression : Parser :=
  normal Rule.expression
    (range_expression
     <|> simple_expression ~~ opt (comparison_operator ~~ simple_expression)).

Definition command : Parser := normal Rule.command identifier.

Definition action : Parser :=
  normal Rule.action
    (external_fn_call
     <|> command ~~ lit "(" ~~ opt (param ~~ star (lit "," ~~ param)) ~~ lit ")").

(** [step_body], [condition] and [for_loop] call each other; [fuel] bounds
    the depth of the calls.  A call consumes a keyword first, so the length
    of the text bounds the depth. *)
Fixpoint step_body (fuel : nat) (a : Atomicity) (s : input) {struct fuel}
  : Result * Attempts :=
  match fuel with
  | 0 => diverge a s
  | S fuel =>
      normal Rule.step_body
        (plus (condition fuel <|> register_operation <|> action
               <|> for_loop fuel)) a s
  end
with condition (fuel : nat) (a : Atomicity) (s : input) {struct fuel}
  : Result * Attempts :=
  match fuel with
  | 0 => diverge a s
  | S fuel =>
      normal Rule.condition
        (lit "if" ~~ expression ~~ lit "{" ~~ step_body fuel ~~ lit "}") a s
  end
with for_loop (fuel : nat) (a : Atomicity) (s : input) {struct fuel}
  : Result * Attempts :=
  match fuel with
  | 0 => diverge a s
  | S fuel =>
      normal Rule.for_loop
        (lit "for" ~~ identifier ~~ lit "in"
           ~~ (split_expression <|> range_expression)
           ~~ lit "{" ~~ step_body fuel ~~ lit "}") a s
  end.

Definition step (fuel : nat) : Parser :=
  normal Rule.step (lit "step" ~~ identifier ~~ lit "{" ~~ step_body fuel ~~ lit "}").

Definition workflow (fuel : nat) : Parser :=
  normal Rule.workflow
    (lit "workflow" ~~ identifier ~~ version ~~ lit "{" ~~ plus (step fuel) ~~ lit "}"
       ~~ opt author_tag ~~ opt sticky_tag).

End Grammar.

(** ** parse *)

Record ParseError : Type :=
  { position : nat; expected : list Rule.t }.

(** [WorkflowParser::parse(Rule::workflow, source)]: the rule is applied at
    the start of the source, outside any atomic rule.  The grammar has no
    end-of-input anchor: what follows the match is not looked at. *)
Definition parse_with (fuel : nat) (source : string)
  : option (list Pair + ParseError) :=
  let s := chars source in
  match Grammar.workflow fuel NonAtomic s with
  | (Ok _ pairs _, _) => Some (inl pairs)
  | (Err, None) => Some (inr {| position := 0; expected := [] |})
  | (Err, Some (remaining, e)) =>
      Some (inr {| position := length s - remaining; expected := e |})
  | (Loop, _) => None
  end.

Definition parse (source : string) : option (list Pair + ParseError) :=
  parse_with (S (String.length source)) source.

(** ** The Workflow read off the pairs *)

(** Modelled from the spec: the builder that turns the pairs into a
    Workflow is not among the sources.  The data model of the spec names the
    parts of a Workflow (name, version, steps, author tag, sticky flag) and
    of a Step (name, statements); each is read here from the pair of the
    rule that matched it, the strings as the text of the pair. *)
Definition with_rule (r : Rule.t) (ps : list Pair) : list Pair :=
  filter (fun p => Rule.eqb (pair_rule p) r) ps.

Definition workflow_pair (ps : list Pair) : option Pair :=
  hd_error (with_rule Rule.workflow ps).

Definition wf_name (w : Pair) : option string :=
  option_map as_str (hd_error (with_rule Rule.identifier (into_inner w))).

Definition wf_version (w : Pair) : option string :=
  option_map as_str (hd_error (with_rule Rule.version (into_inner w))).

Definition wf_steps (w : Pair) : list Pair :=
  with_rule Rule.step (into_inner w).

Definition wf_author (w : Pair) : option string :=
  option_map as_str (hd_error (with_rule Rule.identity (into_inner w))).

Definition wf_sticky (w : Pair) : bool :=
  existsb (fun p => Rule.eqb (pair_rule p) Rule.sticky_tag) (into_inner w).

Definition step_statements (st : Pair) : list Pair :=
  concat (map into_inner (with_rule Rule.step_body (into_inner st))).

(** ** Notions used in the statements *)

(** What a rule returns, apart from the attempts. *)
Definition run (p : Parser) (a : Atomicity) (s : input) : Result :=
  fst (p a s).

Fixpoint take_while (f : ascii -> bool) (s : input) : input :=
  match s with
  | c :: r => if f c then c :: take_while f r else []
  | [] => []
  end.

Fixpoint drop_while (f : ascii -> bool) (s : input) : input :=
  match s with
  | c :: r => if f c then drop_while f r else s
  | [] => []
  end.

(** The characters of the classes of the grammar. *)
Definition is_ws (c : ascii) : bool :=
  Ascii.eqb " " c || Ascii.eqb TAB c || Ascii.eqb LF c || Ascii.eqb CR c.

Definition is_digit (c : ascii) : bool := in_range "0" "9" c.

Definition is_alnum (c : ascii) : bool :=
  is_digit c || (in_range "a" "z" c || in_range "A" "Z" c).

Definition is_ident_char (c : ascii) : bool := is_alnum c || Ascii.eqb "_" c.

Definition is_identity_char (c : ascii) : bool :=
  is_alnum c || Ascii.eqb "_" c || Ascii.eqb "." c || Ascii.eqb "-" c.

(** A rule that takes one character of a class. *)
Definition class_step (f : ascii -> bool) (s : input) : Result :=
  match s with
  | c :: r => if f c then Ok [c] [] r else Err
  | [] => Err
  end.

(** What [skip] consumes and what it leaves. *)
Definition skipped (a : Atomicity) (s : input) : input :=
  match a with NonAtomic => take_while is_ws s | Atomic => [] end.

Definition after_skip (a : Atomicity) (s : input) : input :=
  match a with NonAtomic => drop_while is_ws s | Atomic => s end.

(** The three forms of a guard, told apart by the rules matched inside the
    expression. *)
Inductive ExprKind : Type := RangeExpression | Comparison | SimpleExpression.

Definition expr_kind (e : Pair) : option ExprKind :=
  match map pair_rule (into_inner e) with
  | [Rule.range_expression] => Some RangeExpression
  | [Rule.simple_expression; Rule.comparison_operator;
     Rule.simple_expression] => Some Comparison
  | [Rule.simple_expression] => Some SimpleExpression
  | _ => None
  end.

(** The parenthesised parameters of a call or of a command. *)
Definition arguments : Parser :=
  seq (lit "(")
    (seq (opt (seq Grammar.param (star (seq (lit ",") Grammar.param))))
       (lit ")")).

(** A rule consumes at least [k] characters: when it matches, the text is
    what it consumed followed by what it left, and it consumed [k] characters
    or more. *)
Definition consumes (k : nat) (p : Parser) : Prop :=
  forall a s c t r, run p a s = Ok c t r -> s = c ++ r /\ k <= length c.

(** A rule returns on every text of at most [n] characters. *)
Definition returns_upto (n : nat) (p : Parser) : Prop :=
  forall a s, length s <= n -> run p a s <> Loop.

(** The pairs of the statements of a step body, and the pair of a step: a
    name and a body of one statement or more. *)
Definition is_statement (p : Pair) : bool :=
  match pair_rule p with
  | Rule.condition | Rule.register_operation | Rule.action | Rule.for_loop =>
      true
  | _ => false
  end.

Definition step_ok (p : Pair) : bool :=
  match p with
  | Node Rule.step _
      [Node Rule.identifier _ []; Node Rule.step_body _ (st :: sts)] =>
      forallb is_statement (st :: sts)
  | _ => false
  end.

(** The form of a version, [v<digits>(.<digits>)*]: the letter, then groups
    of one digit or more, separated by single dots. *)
Fixpoint digit_groups (seen : bool) (s : input) : bool :=
  match s with
  | [] => seen
  | c :: r =>
      if is_digit c then digit_groups true r
      else if Ascii.eqb "." c then seen && digit_groups false r
      else false
  end.

Definition version_shape (s : input) : bool :=
  match s with
  | c :: r => Ascii.eqb "v" c && digit_groups false r
  | [] => false
  end.

(** A text without its whitespace characters. *)
Definition strip_ws (s : input) : input := filter (fun c => negb (is_ws c)) s.

(** Groups of a dot and one digit or more. *)
Inductive dot_groups : input -> Prop :=
| dot_groups_nil : dot_groups []
| dot_groups_cons d g :
    d <> [] -> Forall (fun c => is_digit c = true) d -> dot_groups g ->
    dot_groups ("."%char :: d ++ g).

(** The attempts kept on a text [s] are well formed: the position is one of
    [s] and some rule was tried there. *)
Definition attempts_ok (s : input) (l : Attempts) : Prop :=
  match l with
  | None => True
  | Some (n, e) => n <= length s /\ e <> []
  end.

Definition tracks (p : Parser) : Prop :=
  forall a s, attempts_ok s (snd (p a s)).

(** [q] returns what [p] returns, wherever [p] returns. *)
Definition refines (p q : Parser) : Prop :=
  forall a s, run p a s <> Loop -> q a s = p a s.

(** ** Whitespace between tokens *)

(** The places of a text where whitespace may be put without cutting a
    token.  [k] is the text before the place, last character first, and [y]
    the character after it.  A place is inside a token when it is between
    two characters of names, numbers and identities, inside one of the
    operators [==], [!=], [>=], [<=], inside an escaped quote, or between
    [.split] and its parenthesis. *)
Definition in_operator (x y : ascii) : bool :=
  (Ascii.eqb "=" y
   && (Ascii.eqb "=" x || Ascii.eqb "!" x || Ascii.eqb ">" x
       || Ascii.eqb "<" x))
  || (Ascii.eqb BACKSLASH x && Ascii.eqb QUOTE y).

Definition after_dot_split (k : input) : bool :=
  match match_prefix (chars "tilps.") k with
  | Some _ => true
  | None => false
  end.

Definition gap_ok (k : input) (y : ascii) : bool :=
  match k with
  | [] => true
  | x :: _ =>
      negb (is_identity_char x && is_identity_char y)
      && negb (in_operator x y)
      && negb (after_dot_split k && Ascii.eqb "(" y)
  end.

Definition gap_here (k s : input) : bool :=
  match s with
  | [] => true
  | y :: _ => gap_ok k y
  end.

(** [ins k s s']: [s'] is [s] with whitespace put at such places; [k] is
    the text before [s], last character first. *)
Inductive ins : input -> input -> input -> Prop :=
| ins_nil k : ins k [] []
| ins_keep k c s s' : ins (c :: k) s s' -> ins k (c :: s) (c :: s')
| ins_gap k w s s' :
    is_ws w = true -> gap_here k s = true -> ins k s s' -> ins k s (w :: s').

(** The same, with nothing put before the first character. *)
Definition ins1 (k s s' : input) : Prop :=
  match s, s' with
  | [], [] => True
  | c :: r, c' :: r' => c = c' /\ ins (c :: k) r r'
  | _, _ => False
  end.

(** A literal no place of which takes whitespace. *)
Fixpoint tight (k l : input) : bool :=
  match l with
  | c1 :: ((c2 :: _) as l') => negb (gap_ok (c1 :: k) c2) && tight (c1 :: k) l'
  | _ => true
  end.

(** A pair without the whitespace of its text and of the texts inside. *)
Fixpoint erase_ws (p : Pair) : Pair :=
  match p with
  | Node r s i => Node r (text (strip_ws (chars s))) (map erase_ws i)
  end.

(** Two results that differ by such whitespace only. *)
Definition related (k : input) (res res' : Result) : Prop :=
  match res, res' with
  | Ok c t r, Ok c' t' r' =>
      strip_ws c = strip_ws c' /\ map erase_ws t = map erase_ws t'
      /\ ins (rev c ++ k) r r'
  | Err, Err => True
  | Loop, Loop => True
  | _, _ => False
  end.

(** A rule that such whitespace does not disturb, when the text starts at
    a token ([steady]) and when whitespace may come first ([lenient]). *)
Definition steady (p : Parser) : Prop :=
  forall k s s',
    ins1 k s s' -> related k (run p NonAtomic s) (run p NonAtomic s').

Definition lenient (p : Parser) : Prop :=
  forall k s s',
    ins k s s' -> related k (run p NonAtomic s) (run p NonAtomic s').

(** The body of a string literal: any characters, where a backslash before
    a quote escapes it.  A quote that is not escaped would end the literal,
    and so would the quote after a backslash that ends the body. *)
Fixpoint escaped_body (b : input) : bool :=
  match b with
  | [] => true
  | c :: r =>
      if Ascii.eqb BACKSLASH c then
        match r with
        | q :: r' => if Ascii.eqb QUOTE q then escaped_body r'
                     else escaped_body r
        | [] => false
        end
      else if Ascii.eqb QUOTE c then false
      else escaped_body r
  end.

(** One element of the body of a string literal. *)
Definition string_element : Parser :=
  or_else (match_chars [BACKSLASH; QUOTE]) (seq (not_ (chr QUOTE)) ANY).

(** The pair of a rule that has no rule inside. *)
Definition leaf (r : Rule.t) (a : Atomicity) (c : input) : list Pair :=
  match a with
  | Atomic => []
  | NonAtomic => [Node r (text c) []]
  end.

(** ** The spans of the pairs *)

(** A text that does not start with whitespace. *)
Definition starts_tight (c : input) : bool :=
  match c with
  | [] => true
  | x :: _ => negb (is_ws x)
  end.

(** A pair whose text does not start with whitespace and is not empty, but
    for an identity, which may be; and so for the pairs inside it. *)
Fixpoint well_spanned (p : Pair) : bool :=
  match p with
  | Node r s i =>
      starts_tight (chars s)
      && (Rule.eqb r Rule.identity
          || match chars s with [] => false | _ :: _ => true end)
      && forallb well_spanned i
  end.

(** The pairs that a rule gives are such pairs and, when [head] is set,
    what the rule consumes does not start with whitespace either. *)
Definition spans (head : bool) (p : Parser) : Prop :=
  forall s c t r,
    run p NonAtomic s = Ok c t r ->
    (head = true -> starts_tight c = true)
    /\ forallb well_spanned t = true.

(** ** Nested conditions *)

(** A condition in a condition, [n] times, around one action. *)
Fixpoint nested (n : nat) : input :=
  match n with
  | 0 => chars "a()"
  | S n' => chars "if x{" ++ nested n' ++ chars "}"
  end.

(** * The registration client and the store

    The rest of [shinkai-app/src/api/index.ts]: the check of an HTTP
    response, the thunk that registers a device with a node, and the
    reducer of the store. *)

(** ** The store *)

Module Store.

(** [Base58String] is an alias of [string]. *)
Definition Base58String := string.

Record SetupDetailsState : Type :=
  { profile : string;
    permission_type : string;
    registration_name : string;
    node_address : string;
    shinkai_identity : string;
    node_encryption_pk : Base58String;
    node_signature_pk : Base58String;
    myEncryptionSk : Base58String;
    myEncryptionPk : Base58String;
    myIdentitySk : Base58String;
    myIdentityPk : Base58String }.

Definition setupInitialState : SetupDetailsState :=
  {| profile := EmptyString;
     permission_type := EmptyString;
     registration_name := EmptyString;
     node_address := EmptyString;
     shinkai_identity := EmptyString;
     node_encryption_pk := EmptyString;
     node_signature_pk := EmptyString;
     myEncryptionSk := EmptyString;
     myEncryptionPk := EmptyString;
     myIdentitySk := EmptyString;
     myIdentityPk := EmptyString |}.

(** [error: string | null] *)
Record RootState : Type :=
  { publicKey : string;
    registrationStatus : bool;
    pingResult : string;
    setupDetailsState : SetupDetailsState;
    error : option string }.

Definition initialState : RootState :=
  {| publicKey := EmptyString;
     registrationStatus := false;
     pingResult := EmptyString;
     setupDetailsState := setupInitialState;
     error := None |}.

(** The actions that the reducer tells apart, with the payload that the
    field it is stored in takes, and any other action.  The four type
    constants are imported from [./types]; they are taken to be distinct. *)
Inductive Action : Type :=
| GET_PUBLIC_KEY (payload : string)
| USE_REGISTRATION_CODE (payload : SetupDetailsState)
| REGISTRATION_ERROR (payload : option string)
| PING_ALL (payload : string)
| OTHER (type : string).

(** [rootReducer(state = initialState, action)]: a state that is
    [undefined] is [None]. *)
Definition rootReducer (state : option RootState) (action : Action)
  : RootState :=
  let state := match state with Some s => s | None => initialState end in
  match action with
  | GET_PUBLIC_KEY payload =>
      {| publicKey := payload;
         registrationStatus := registrationStatus state;
         pingResult := pingResult state;
         setupDetailsState := setupDetailsState state;
         error := error state |}
  | USE_REGISTRATION_CODE payload =>
      {| publicKey := publicKey state;
         registrationStatus := true;
         pingResult := pingResult state;
         setupDetailsState := payload;
         error := error state |}
  | REGISTRATION_ERROR payload =>
      {| publicKey := publicKey state;
         registrationStatus := registrationStatus state;
         pingResult := pingResult state;
         setupDetailsState := setupDetailsState state;
         error := payload |}
  | PING_ALL payload =>
      {| publicKey := publicKey state;
         registrationStatus := registrationStatus state;
         pingResult := payload;
         setupDetailsState := setupDetailsState state;
         error := error state |}
  | OTHER _ => state
  end.

(** The state of a store after the actions dispatched to it, in order. *)
Definition reduce (state : RootState) (actions : list Action) : RootState :=
  fold_left (fun s a => rootReducer (Some s) a) actions state.

(** The payload of the last action that [pick] selects, or [default]. *)
Definition last_payload {A : Type} (pick : Action -> option A)
  (actions : list Action) (default : A) : A :=
  fold_left (fun d a => match pick a with Some v => v | None => d end)
    actions default.

Definition public_key_of (a : Action) : option string :=
  match a with GET_PUBLIC_KEY p => Some p | _ => None end.

Definition setup_of (a : Action) : option SetupDetailsState :=
  match a with USE_REGISTRATION_CODE p => Some p | _ => None end.

Definition error_of (a : Action) : option (option string) :=
  match a with REGISTRATION_ERROR p => Some p | _ => None end.

Definition ping_of (a : Action) : option string :=
  match a with PING_ALL p => Some p | _ => None end.

Definition is_registration (a : Action) : bool :=
  match a with USE_REGISTRATION_CODE _ => true | _ => false end.

End Store.

(** ** The registration client *)

Module Api.

(** A value that was thrown: an [Error] with its message, or a value that
    is not an instance of [Error]. *)
Inductive Thrown : Type :=
| ErrorObject (msg : string)
| NotAnError.

(** What a call gives: the value it returns or the value it throws.  For
    an awaited call these are the value of the promise and the reason of
    its rejection. *)
Definition Exc (A : Type) : Type := (A + Thrown)%type.

(** The response of a request: its status and, of its data, the fields
    that the client reads. *)
Record Data : Type :=
  { code : string; error : string; message : string; result : string }.

Record Response : Type :=
  { status : nat; data : Data }.

(** The fields of the setup data that [submitRegistrationCode] reads. *)
Record MergedSetupType : Type :=
  { myEncryptionSk : string;
    myIdentitySk : string;
    node_encryption_pk : string;
    registration_code : string;
    identity_type : string;
    permission_type : string;
    registration_name : string;
    shinkai_identity : string;
    node_address : string }.

(** What the client calls and does not define: the message builder of the
    wasm library, [JSON.parse], [axios.get], [axios.post] with the body of
    the request if there is one, and the action creators of
    [../store/actions]. *)
Record Env (Json Action : Type) : Type :=
  { use_code_registration :
      string -> string -> string -> string -> string -> string -> string
      -> string -> string -> Exc string;
    JSON_parse : string -> Exc Json;
    axios_get : string -> Exc Response;
    axios_post : string -> option Json -> Exc Response;
    getPublicKey : Data -> Action;
    useRegistrationCode : MergedSetupType -> Action;
    registrationError : string -> Action;
    pingAll : string -> Action }.

Arguments use_code_registration {Json Action}.
Arguments JSON_parse {Json Action}.
Arguments axios_get {Json Action}.
Arguments axios_post {Json Action}.
Arguments getPublicKey {Json Action}.
Arguments useRegistrationCode {Json Action}.
Arguments registrationError {Json Action}.
Arguments pingAll {Json Action}.

(** What the client changes: the endpoint kept by [ApiConfig] and the
    actions dispatched to the store, oldest first.  The lines written to
    the console are not kept. *)
Record World (Action : Type) : Type :=
  { endpoint : string; dispatched : list Action }.

Arguments endpoint {Action}.
Arguments dispatched {Action}.

Definition M (Action A : Type) : Type :=
  World Action -> Exc A * World Action.

Definition ret {Action A : Type} (x : A) : M Action A :=
  fun w => (inl x, w).

Definition bind {Action A B : Type} (m : M Action A) (k : A -> M Action B)
  : M Action B :=
  fun w =>
    match m w with
    | (inl x, w') => k x w'
    | (inr e, w') => (inr e, w')
    end.

(** A call that may throw. *)
Definition call {Action A : Type} (r : Exc A) : M Action A :=
  fun w => (r, w).

(** [try { body } catch (error) { handler }] *)
Definition try_catch {Action A : Type} (body : M Action A)
  (handler : Thrown -> M Action A) : M Action A :=
  fun w =>
    match body w with
    | (inl x, w') => (inl x, w')
    | (inr e, w') => handler e w'
    end.

(** [ApiConfig.getInstance().getEndpoint()] and
    [ApiConfig.getInstance().setEndpoint(endpoint)] *)
Definition getEndpoint {Action : Type} : M Action string :=
  fun w => (inl (endpoint w), w).

(** Setting the endpoint and dispatching an action return: the reducer of
    the store does not throw. *)
Definition setEndpoint {Action : Type} (e : string) : M Action unit :=
  fun w => (inl tt, {| endpoint := e; dispatched := dispatched w |}).

Definition dispatch {Action : Type} (a : Action) : M Action unit :=
  fun w =>
    (inl tt, {| endpoint := endpoint w; dispatched := dispatched w ++ [a] |}).

(** [handleHttpError]: an [Error] is thrown for a status below 200 or from
    300 on. *)
Definition handleHttpError (response : Response) : Exc unit :=
  if (status response <? 200) || (300 <=? status response) then
    let e := data response in
    inr (ErrorObject
           ("HTTP error: " ++ code e ++ ", " ++ error e ++ ", "
              ++ message e)%string)
  else inl tt.

Definition submitRegistrationCode {Json Action : Type} (E : Env Json Action)
  (setupData : MergedSetupType) : M Action bool :=
  try_catch
    (bind (call (use_code_registration E
                   (myEncryptionSk setupData)
                   (myIdentitySk setupData)
                   (node_encryption_pk setupData)
                   (registration_code setupData)
                   (identity_type setupData)
                   (permission_type setupData)
                   (registration_name setupData)
                   EmptyString
                   (shinkai_identity setupData)))
       (fun messageStr =>
     bind (call (JSON_parse E messageStr))
       (fun message =>
     bind (call (axios_post E
                   (node_address setupData ++ "/v1/use_registration_code")%string
                   (Some message)))
       (fun response =>
     bind (call (handleHttpError response))
       (fun _ =>
     bind (setEndpoint (node_address setupData))
       (fun _ =>
     bind (dispatch (useRegistrationCode E setupData))
       (fun _ =>
     ret true)))))))
    (fun error =>
       bind (match error with
             | ErrorObject msg => dispatch (registrationError E msg)
             | NotAnError => ret tt
             end)
         (fun _ => ret false)).

(** [fetchPublicKey]: the response is dispatched as it comes. *)
Definition fetchPublicKey {Json Action : Type} (E : Env Json Action)
  : M Action unit :=
  bind getEndpoint
    (fun apiEndpoint =>
  try_catch
    (bind (call (axios_get E (apiEndpoint ++ "/get_public_key")%string))
       (fun response =>
     dispatch (getPublicKey E (data response))))
    (fun error => ret tt)).

(** [pingAllNodes]: the request has no body, and what is thrown is only
    written to the console. *)
Definition pingAllNodes {Json Action : Type} (E : Env Json Action)
  : M Action unit :=
  bind getEndpoint
    (fun apiEndpoint =>
  try_catch
    (bind (call (axios_post E (apiEndpoint ++ "/ping_all")%string None))
       (fun response =>
     bind (call (handleHttpError response))
       (fun _ =>
     dispatch (pingAll E (result (data response))))))
    (fun error => ret tt)).

(** The calls of [submitRegistrationCode] return, and the status of the
    response is one of success. *)
Definition request_succeeds {Json Action : Type} (E : Env Json Action)
  (setupData : MergedSetupType) : Prop :=
  exists messageStr message response,
    use_code_registration E
      (myEncryptionSk setupData) (myIdentitySk setupData)
      (node_encryption_pk setupData) (registration_code setupData)
      (identity_type setupData) (permission_type setupData)
      (registration_name setupData) EmptyString (shinkai_identity setupData)
    = inl messageStr
    /\ JSON_parse E messageStr = inl message
    /\ axios_post E
         (node_address setupData ++ "/v1/use_registration_code")%string
         (Some message) = inl response
    /\ 200 <= status response < 300.

(** The value that the body of [submitRegistrationCode] throws, when it
    throws: that of the first call that does not return. *)
Definition thrown {Json Action : Type} (E : Env Json Action)
  (setupData : MergedSetupType) : option Thrown :=
  match use_code_registration E
          (myEncryptionSk setupData) (myIdentitySk setupData)
          (node_encryption_pk setupData) (registration_code setupData)
          (identity_type setupData) (permission_type setupData)
          (registration_name setupData) EmptyString
          (shinkai_identity setupData) with
  | inr e => Some e
  | inl messageStr =>
      match JSON_parse E messageStr with
      | inr e => Some e
      | inl message =>
          match axios_post E
                  (node_address setupData ++ "/v1/use_registration_code")%string
                  (Some message) with
          | inr e => Some e
          | inl response =>
              match handleHttpError response with
              | inr e => Some e
              | inl _ => None
              end
          end
      end
  end.

(** An environment in which the builder and the parsing return and the
    node answers every request with the status [s] and the data [b].  A
    request whose answer has a status from 200 to 299 returns the response;
    any other answer makes the request throw an [Error] with the message
    [reason], as the [axios] that the client imports does.  The actions are
    the names of their creators with their arguments. *)
Definition answering (s : nat) (b : Data) (reason : string)
  : Env string (string * string) :=
  let answer : Exc Response :=
    if (200 <=? s) && (s <? 300) then inl {| status := s; data := b |}
    else inr (ErrorObject reason) in
  {| use_code_registration := fun _ _ _ _ _ _ _ _ _ => inl "{}"%string;
     JSON_parse := fun m => inl m;
     axios_get := fun _ => answer;
     axios_post := fun _ _ => answer;
     getPublicKey := fun d => ("getPublicKey", result d)%string;
     useRegistrationCode :=
       fun d => ("useRegistrationCode", node_address d)%string;
     registrationError := fun m => ("registrationError", m)%string;
     pingAll := fun r => ("pingAll", r)%string |}.

(** The data of a response and a setup, for the examples. *)
Definition example_data : Data :=
  {| code := "404";
     error := "Not Found";
     message := "no such code";
     result := "pong" |}.

Definition example_setup : MergedSetupType :=
  {| myEncryptionSk := "a";
     myIdentitySk := "b";
     node_encryption_pk := "c";
     registration_code := "d";
     identity_type := "device";
     permission_type := "admin";
     registration_name := "main";
     shinkai_identity := "@@node.shinkai";
     node_address := "http://localhost:9550" |}.

End Api.

(** ** The language of the grammar *)

(** The grammar read as a description of texts, apart from any way of
    parsing them: each rule is the set of the texts that it derives.  A
    choice derives what either side derives, whatever their order; a
    repetition derives any number of its element; and inside a rule that is
    not atomic, whitespace may stand where the grammar has [~] and between
    the elements of a repetition.  The order of the alternatives and the
    greed of the repetitions are not part of it, so a text that a rule
    matches is derived by it, but not every derived text is matched. *)
Module Lang.

Definition t : Type := input -> Prop.

Definition str (l : string) : t := fun c => c = chars l.
Definition one (f : ascii -> bool) : t :=
  fun c => exists x, c = [x] /\ f x = true.
Definition empty : t := fun c => c = [].
Definition ws : t := fun c => Forall (fun x => is_ws x = true) c.
Definition cat (A B : t) : t :=
  fun c => exists a b, c = a ++ b /\ A a /\ B b.
Definition alt (A B : t) : t := fun c => A c \/ B c.
Definition opt (A : t) : t := alt empty A.

(** [A ~ B] in a rule that is not atomic. *)
Definition seq (A B : t) : t := cat A (cat ws B).

(** Elements of [A], with whitespace between them when [sep] is set. *)
Inductive many (sep : bool) (A : t) : t :=
| many_nil : many sep A []
| many_cons a w b :
    A a -> (if sep then ws w else w = []) -> many sep A b ->
    many sep A (a ++ w ++ b).

(** [A*] and [A+] in a rule that is not atomic, and in an atomic rule. *)
Definition star (A : t) : t := many true A.
Definition plus (A : t) : t := seq A (star A).
Definition atomic_star (A : t) : t := many false A.
Definition atomic_plus (A : t) : t := cat A (atomic_star A).

Definition digit : t := one is_digit.
Definition not_quote : t := one (fun x => negb (Ascii.eqb QUOTE x)).
Definition quote : t := one (Ascii.eqb QUOTE).

Definition number : t := plus digit.
Definition boolean : t := alt (str "true") (str "false").
Definition delimiter : t := seq (seq quote (star not_quote)) quote.
Definition string : t :=
  seq (seq quote (star (alt (fun c => c = [BACKSLASH; QUOTE]) not_quote)))
    quote.
Definition identity : t := atomic_star (one is_identity_char).
Definition identifier : t := atomic_plus (one is_ident_char).
Definition sticky_tag : t := str "sticky".
Definition author_tag : t := seq (seq (str "@") (str "@")) identity.
Definition version : t :=
  seq (seq (str "v") (plus digit)) (star (seq (str ".") (plus digit))).
Definition register : t := seq (str "$") identifier.
Definition split_expression : t :=
  seq (seq (seq (alt (alt register identifier) string) (str ".split("))
         delimiter) (str ")").
Definition value : t :=
  alt (alt (alt (alt string number) boolean) identifier) register.
Definition comparison_operator : t :=
  alt (alt (alt (alt (alt (str "==") (str "!=")) (str ">")) (str "<"))
         (str ">=")) (str "<=").
Definition param : t :=
  alt (alt (alt (alt string number) boolean) identifier) register.
Definition params : t := opt (seq param (star (seq (str ",") param))).
Definition external_fn_call : t :=
  seq (seq (seq (seq (str "call") identifier) (str "(")) params) (str ")").
Definition register_operation : t :=
  seq (seq register (str "=")) (alt external_fn_call value).
Definition range_expression : t :=
  seq (seq identifier (str "..")) identifier.
Definition simple_expression : t :=
  alt (alt (alt (alt identifier number) boolean) string) register.
Definition expression : t :=
  alt range_expression
    (seq simple_expression
       (opt (seq comparison_operator simple_expression))).
Definition command : t := identifier.
Definition action : t :=
  alt external_fn_call
    (seq (seq (seq command (str "(")) params) (str ")")).

(** The rules that refer to each other. *)
Inductive step_body : t :=
| step_body_intro c :
    plus (alt (alt (alt condition register_operation) action) for_loop) c ->
    step_body c
with condition : t :=
| condition_intro c :
    seq (seq (seq (seq (str "if") expression) (str "{")) step_body)
      (str "}") c ->
    condition c
with for_loop : t :=
| for_loop_intro c :
    seq (seq (seq (seq (seq (seq (str "for") identifier) (str "in"))
                     (alt split_expression range_expression)) (str "{"))
           step_body) (str "}") c ->
    for_loop c.

Definition step : t :=
  seq (seq (seq (seq (str "step") identifier) (str "{")) step_body)
    (str "}").

Definition workflow : t :=
  seq (seq (seq (seq (seq (seq (seq (str "workflow") identifier) version)
                       (str "{")) (plus step)) (str "}"))
         (opt author_tag)) (opt sticky_tag).

End Lang.

(** A source that the workflow production derives, as a whole. *)
Definition derivable (src : string) : Prop := Lang.workflow (chars src).

(** What a rule matches is in the language [L]. *)
Definition sound (L : Lang.t) (p : Parser) : Prop :=
  forall s c t r, run p NonAtomic s = Ok c t r -> L c.

(** * Properties *)

(** ** What a rule returns, apart from the attempts *)

Lemma run_and_then p q a s :
  run (and_then p q) a s =
  match run p a s with
  | Ok c1 t1 r1 =>
      match run q a r1 with
      | Ok c2 t2 r2 => Ok (c1 ++ c2) (t1 ++ t2) r2
      | other => other
      end
  | other => other
  end.
Proof.
  unfold run, and_then.
  destruct (p a s) as [[c1 t1 r1| |] l1]; simpl; try reflexivity.
  destruct (q a r1) as [[c2 t2 r2| |] l2]; reflexivity.
Qed.

Lemma run_or_else p q a s :
  run (or_else p q) a s =
  match run p a s with
  | Err => run q a s
  | other => other
  end.
Proof.
  unfold run, or_else.
  destruct (p a s) as [[c1 t1 r1| |] l1]; simpl; try reflexivity.
  destruct (q a s); reflexivity.
Qed.

Lemma run_optional p a s :
  run (optional p) a s =
  match run p a s with
  | Err => Ok [] [] s
  | other => other
  end.
Proof.
  unfold run, optional.
  destruct (p a s) as [[c1 t1 r1| |] l1]; reflexivity.
Qed.

Lemma run_repeat_n n p a s :
  run (repeat_n n p) a s =
  match n with
  | 0 => Loop
  | S n' =>
      match run p a s with
      | Ok c1 t1 r1 =>
          match run (repeat_n n' p) a r1 with
          | Ok c2 t2 r2 => Ok (c1 ++ c2) (t1 ++ t2) r2
          | other => other
          end
      | Err => Ok [] [] s
      | Loop => Loop
      end
  end.
Proof.
  destruct n as [|n']; [reflexivity|].
  unfold run; simpl.
  destruct (p a s) as [[c1 t1 r1| |] l1]; simpl; try reflexivity.
  destruct (repeat_n n' p a r1) as [[c2 t2 r2| |] l2]; reflexivity.
Qed.

Lemma run_lookahead_not p a s :
  run (lookahead_not p) a s =
  match run p a s with
  | Ok _ _ _ => Err
  | Err => Ok [] [] s
  | Loop => Loop
  end.
Proof.
  unfold run, lookahead_not.
  destruct (fst (p a s)); reflexivity.
Qed.

Lemma run_atomic b p a s : run (atomic b p) a s = run p b s.
Proof. reflexivity. Qed.

Lemma run_rule r p a s :
  run (rule r p) a s =
  match run p a s with
  | Ok c t rest =>
      Ok c match a with
           | Atomic => t
           | NonAtomic => [Node r (text c) t]
           end rest
  | other => other
  end.
Proof.
  unfold run, rule.
  destruct (p a s) as [[c1 t1 r1| |] l1]; reflexivity.
Qed.

Lemma run_match_chars l a s :
  run (match_chars l) a s =
  match match_prefix l s with
  | Some r => Ok l [] r
  | None => Err
  end.
Proof.
  unfold run, match_chars. destruct (match_prefix l s); reflexivity.
Qed.

Lemma match_prefix_app l r : match_prefix l (l ++ r) = Some r.
Proof.
  induction l as [|c l IH]; simpl; [reflexivity|].
  now rewrite Ascii.eqb_refl.
Qed.

Lemma match_prefix_Some l s r : match_prefix l s = Some r -> s = l ++ r.
Proof.
  revert s; induction l as [|c l IH]; intros [|d s]; simpl; try congruence.
  destruct (Ascii.eqb c d) eqn:E; [|discriminate].
  apply Ascii.eqb_eq in E; subst d.
  intros H; apply IH in H; now subst.
Qed.

(** ** Character classes and whitespace *)

Lemma take_drop_while f s : take_while f s ++ drop_while f s = s.
Proof.
  induction s as [|c r IH]; simpl; [reflexivity|].
  destruct (f c); simpl; [now rewrite IH|reflexivity].
Qed.

Lemma drop_while_length f s : length (drop_while f s) <= length s.
Proof.
  induction s as [|c r IH]; simpl; [lia|].
  destruct (f c); simpl; lia.
Qed.

Lemma drop_while_head f s c r : drop_while f s = c :: r -> f c = false.
Proof.
  induction s as [|d s IH]; simpl; [discriminate|].
  destruct (f d) eqn:E; [exact IH|].
  intros H; injection H as -> _; exact E.
Qed.

Lemma drop_while_stop f c r : f c = false -> drop_while f (c :: r) = c :: r.
Proof. simpl; now intros ->. Qed.

Lemma take_while_stop f c r : f c = false -> take_while f (c :: r) = [].
Proof. simpl; now intros ->. Qed.

Lemma take_while_all f s : Forall (fun c => f c = true) (take_while f s).
Proof.
  induction s as [|c r IH]; simpl; [constructor|].
  destruct (f c) eqn:E; constructor; assumption.
Qed.

Lemma take_while_app f u c r :
  Forall (fun x => f x = true) u -> f c = false ->
  take_while f (u ++ c :: r) = u.
Proof.
  induction 1 as [|x u Hx _ IH]; intros Hc; simpl.
  - now rewrite Hc.
  - now rewrite Hx, IH.
Qed.

Lemma drop_while_app f u c r :
  Forall (fun x => f x = true) u -> f c = false ->
  drop_while f (u ++ c :: r) = c :: r.
Proof.
  induction 1 as [|x u Hx _ IH]; intros Hc; simpl.
  - now rewrite Hc.
  - now rewrite Hx, IH.
Qed.

Lemma take_while_app_nil f u :
  Forall (fun x => f x = true) u -> take_while f u = u.
Proof. induction 1 as [|x u Hx _ IH]; simpl; [|rewrite Hx, IH]; reflexivity. Qed.

Lemma drop_while_app_nil f u :
  Forall (fun x => f x = true) u -> drop_while f u = [].
Proof. induction 1 as [|x u Hx _ IH]; simpl; [|rewrite Hx, IH]; reflexivity. Qed.

Lemma run_match_range lo hi a s :
  run (match_range lo hi) a s = class_step (in_range lo hi) s.
Proof.
  unfold run, match_range, class_step.
  destruct s as [|c r]; [reflexivity|]. destruct (in_range lo hi c); reflexivity.
Qed.

Lemma run_chr c a s : run (chr c) a s = class_step (Ascii.eqb c) s.
Proof.
  unfold chr; rewrite run_match_chars; unfold class_step.
  destruct s as [|d r]; simpl; [reflexivity|].
  destruct (Ascii.eqb c d) eqn:E; [|reflexivity].
  apply Ascii.eqb_eq in E; now subst.
Qed.

Lemma class_step_or f g p q a s :
  run p a s = class_step f s -> run q a s = class_step g s ->
  run (or_else p q) a s = class_step (fun c => f c || g c) s.
Proof.
  intros Hp Hq. rewrite run_or_else, Hp, Hq. unfold class_step.
  destruct s as [|c r]; [reflexivity|].
  destruct (f c); [reflexivity|]. destruct (g c); reflexivity.
Qed.

Lemma run_WHITESPACE a s : run WHITESPACE a s = class_step is_ws s.
Proof.
  unfold WHITESPACE. rewrite run_atomic.
  unfold is_ws.
  repeat apply class_step_or; apply (run_chr _ Atomic).
Qed.

Lemma run_ASCII_DIGIT a s : run ASCII_DIGIT a s = class_step is_digit s.
Proof. apply run_match_range. Qed.

Lemma run_ASCII_ALPHANUMERIC a s :
  run ASCII_ALPHANUMERIC a s = class_step is_alnum s.
Proof.
  unfold ASCII_ALPHANUMERIC, ASCII_ALPHA, is_alnum.
  repeat apply class_step_or; try apply run_match_range.
Qed.

(** Repeating a rule that takes one character of a class takes the longest
    run of such characters. *)
Lemma run_repeat_n_class f p a :
  (forall s, run p a s = class_step f s) ->
  forall n s, length s < n ->
  run (repeat_n n p) a s = Ok (take_while f s) [] (drop_while f s).
Proof.
  intros Hp n; induction n as [|n IH]; intros s Hn; [lia|].
  rewrite run_repeat_n, Hp.
  destruct s as [|c r]; simpl; [reflexivity|].
  destruct (f c); [|reflexivity].
  simpl in Hn. rewrite IH by lia. reflexivity.
Qed.

Lemma run_repeat_class f p a s :
  (forall s, run p a s = class_step f s) ->
  run (repeat p) a s = Ok (take_while f s) [] (drop_while f s).
Proof.
  intros Hp. unfold repeat.
  change (run (repeat_n (S (length s)) p) a s = Ok (take_while f s) [] (drop_while f s)).
  apply run_repeat_n_class; [exact Hp|lia].
Qed.

Lemma run_skip a s : run skip a s = Ok (skipped a s) [] (after_skip a s).
Proof.
  destruct a; [reflexivity|].
  change (run (repeat WHITESPACE) NonAtomic s
          = Ok (take_while is_ws s) [] (drop_while is_ws s)).
  apply run_repeat_class. intros; apply run_WHITESPACE.
Qed.

Lemma run_seq p q a s :
  run (seq p q) a s =
  match run p a s with
  | Ok c1 t1 r1 =>
      match run q a (after_skip a r1) with
      | Ok c2 t2 r2 => Ok (c1 ++ skipped a r1 ++ c2) (t1 ++ t2) r2
      | other => other
      end
  | other => other
  end.
Proof.
  unfold seq. rewrite run_and_then.
  destruct (run p a s) as [c1 t1 r1| |]; try reflexivity.
  rewrite run_and_then, run_skip.
  destruct (run q a (after_skip a r1)); reflexivity.
Qed.

Lemma run_star p a s :
  run (star p) a s =
  match run p a s with
  | Ok c1 t1 r1 =>
      match run (repeat (and_then skip p)) a r1 with
      | Ok c2 t2 r2 => Ok (c1 ++ c2) (t1 ++ t2) r2
      | Err => Ok [] [] s
      | Loop => Loop
      end
  | Err => Ok [] [] s
  | Loop => Loop
  end.
Proof.
  unfold star. rewrite run_optional, run_and_then.
  destruct (run p a s) as [c1 t1 r1| |]; try reflexivity.
  destruct (run (repeat (and_then skip p)) a r1); reflexivity.
Qed.

Lemma run_plus p a s :
  run (plus p) a s =
  match run p a s with
  | Ok c1 t1 r1 =>
      match run (star p) a (after_skip a r1) with
      | Ok c2 t2 r2 => Ok (c1 ++ skipped a r1 ++ c2) (t1 ++ t2) r2
      | other => other
      end
  | other => other
  end.
Proof. apply run_seq. Qed.

Lemma run_normal r p a s :
  run (normal r p) a s =
  match run p a s with
  | Ok c t rest =>
      Ok c match a with
           | Atomic => t
           | NonAtomic => [Node r (text c) t]
           end rest
  | other => other
  end.
Proof. apply run_rule. Qed.

Lemma run_atomic_rule r p a s :
  run (atomic_rule r p) a s =
  match run p Atomic s with
  | Ok c t rest =>
      Ok c match a with
           | Atomic => t
           | NonAtomic => [Node r (text c) t]
           end rest
  | other => other
  end.
Proof. unfold atomic_rule. rewrite run_rule, run_atomic. reflexivity. Qed.

Lemma run_lit l a s :
  run (lit l) a s =
  match match_prefix (chars l) s with
  | Some r => Ok (chars l) [] r
  | None => Err
  end.
Proof. apply run_match_chars. Qed.

Lemma run_opt p a s :
  run (opt p) a s =
  match run p a s with
  | Err => Ok [] [] s
  | other => other
  end.
Proof. apply run_optional. Qed.

Lemma run_not_ p a s :
  run (not_ p) a s =
  match run p a s with
  | Ok _ _ _ => Err
  | Err => Ok [] [] s
  | Loop => Loop
  end.
Proof. apply run_lookahead_not. Qed.

Lemma run_ANY a s : run ANY a s = class_step (fun _ => true) s.
Proof. destruct s; reflexivity. Qed.

Lemma run_silent p a s : run (silent p) a s = run p a s.
Proof. reflexivity. Qed.

Create Rewrite HintDb run.
#[global] Hint Rewrite run_seq run_or_else run_normal run_atomic_rule
  run_opt run_silent run_plus : run.

(** ** Inversion of the operators *)

Lemma seq_Ok p q a s c t r :
  run (seq p q) a s = Ok c t r ->
  exists c1 t1 r1 c2 t2,
    run p a s = Ok c1 t1 r1 /\
    run q a (after_skip a r1) = Ok c2 t2 r /\
    c = c1 ++ skipped a r1 ++ c2 /\ t = t1 ++ t2.
Proof.
  rewrite run_seq.
  destruct (run p a s) as [c1 t1 r1| |]; try discriminate.
  destruct (run q a (after_skip a r1)) as [c2 t2 r2| |] eqn:Hq;
    try discriminate.
  intros H; injection H as <- <- <-.
  exists c1, t1, r1, c2, t2. auto.
Qed.

Lemma seq_intro p q a s c1 t1 r1 c2 t2 r :
  run p a s = Ok c1 t1 r1 ->
  run q a (after_skip a r1) = Ok c2 t2 r ->
  run (seq p q) a s = Ok (c1 ++ skipped a r1 ++ c2) (t1 ++ t2) r.
Proof. intros Hp Hq. now rewrite run_seq, Hp, Hq. Qed.

Lemma normal_Ok r p s c t rest :
  run (normal r p) NonAtomic s = Ok c t rest ->
  exists t', run p NonAtomic s = Ok c t' rest /\ t = [Node r (text c) t'].
Proof.
  rewrite run_normal.
  destruct (run p NonAtomic s) as [c1 t1 r1| |]; try discriminate.
  intros H; injection H as <- <- <-. eauto.
Qed.

Lemma or_else_Ok p q a s c t r :
  run (or_else p q) a s = Ok c t r ->
  run p a s = Ok c t r \/ (run p a s = Err /\ run q a s = Ok c t r).
Proof.
  rewrite run_or_else.
  destruct (run p a s); try discriminate; auto.
Qed.

Lemma opt_Ok p a s c t r :
  run (opt p) a s = Ok c t r ->
  run p a s = Ok c t r \/ (run p a s = Err /\ c = [] /\ t = [] /\ r = s).
Proof.
  rewrite run_opt.
  destruct (run p a s); try discriminate; auto.
  intros H; injection H as <- <- <-. auto.
Qed.

Lemma lit_Ok l a s c t r :
  run (lit l) a s = Ok c t r -> c = chars l /\ t = [] /\ s = chars l ++ r.
Proof.
  rewrite run_lit.
  destruct (match_prefix (chars l) s) as [r'|] eqn:E; [|discriminate].
  intros H; injection H as <- <- <-.
  apply match_prefix_Some in E. auto.
Qed.

Lemma run_lit_app l a r : run (lit l) a (chars l ++ r) = Ok (chars l) [] r.
Proof. now rewrite run_lit, match_prefix_app. Qed.

(** What a repetition returns is built from what its rule returns. *)
Lemma repeat_n_Ok (Q : input -> list Pair -> Prop) p a :
  Q [] [] ->
  (forall s c1 t1 r1 c2 t2,
      run p a s = Ok c1 t1 r1 -> Q c2 t2 -> Q (c1 ++ c2) (t1 ++ t2)) ->
  forall n s c t r, run (repeat_n n p) a s = Ok c t r -> Q c t.
Proof.
  intros Q0 Qs n; induction n as [|n IH]; intros s c t r.
  - discriminate.
  - rewrite run_repeat_n.
    destruct (run p a s) as [c1 t1 r1| |] eqn:Hp; try discriminate.
    + destruct (run (repeat_n n p) a r1) as [c2 t2 r2| |] eqn:Hr;
        try discriminate.
      intros H; injection H as <- <- <-.
      eapply Qs; eauto.
    + intros H; injection H as <- <- <-. exact Q0.
Qed.

Lemma star_Ok (Q : input -> list Pair -> Prop) p a :
  Q [] [] ->
  (forall s c1 t1 r1 c2 t2,
      run p a s = Ok c1 t1 r1 -> Q c2 t2 ->
      Q (c1 ++ skipped a r1 ++ c2) (t1 ++ t2)) ->
  (forall s c1 t1 r1, run p a s = Ok c1 t1 r1 -> Q c1 t1) ->
  forall s c t r, run (star p) a s = Ok c t r -> Q c t.
Proof.
  intros Q0 Qs Q1 s c t r. rewrite run_star.
  destruct (run p a s) as [c1 t1 r1| |] eqn:Hp; try discriminate.
  - destruct (run (repeat (and_then skip p)) a r1) as [c2 t2 r2| |] eqn:Hr;
      try discriminate.
    + intros H; injection H as <- <- <-.
      revert Hr. unfold repeat.
      change (run (repeat_n (S (length r1)) (and_then skip p)) a r1
              = Ok c2 t2 r2 -> Q (c1 ++ c2) (t1 ++ t2)).
      generalize (S (length r1)) as n. intros n.
      revert s c1 t1 r1 Hp c2 t2 r2.
      induction n as [|n IH]; intros s c1 t1 r1 Hp c2 t2 r2.
      * discriminate.
      * rewrite run_repeat_n, run_and_then, run_skip.
        destruct (run p a (after_skip a r1)) as [c3 t3 r3| |] eqn:Hp3.
        -- destruct (run (repeat_n n (and_then skip p)) a r3)
             as [c4 t4 r4| |] eqn:Hr4; try discriminate.
           intros H; injection H as <- <- <-.
           simpl. rewrite <- app_assoc.
           eapply Qs; [exact Hp|]. eapply IH; eauto.
        -- intros H; injection H as <- <- <-.
           rewrite !app_nil_r. eapply Q1; eauto.
        -- discriminate.
    + intros H; injection H as <- <- <-. exact Q0.
  - intros H; injection H as <- <- <-. exact Q0.
Qed.

(** ** The atomic rules *)

Lemma run_star_class_atomic f p s :
  (forall s, run p Atomic s = class_step f s) ->
  run (star p) Atomic s = Ok (take_while f s) [] (drop_while f s).
Proof.
  intros Hp. rewrite run_star, Hp.
  destruct s as [|c r]; simpl; [reflexivity|].
  destruct (f c); [|reflexivity].
  rewrite (@run_repeat_class f).
  - reflexivity.
  - intros s'. rewrite run_and_then, run_skip, Hp. simpl.
    destruct (class_step f s'); reflexivity.
Qed.

Lemma run_plus_class_atomic f p s :
  (forall s, run p Atomic s = class_step f s) ->
  run (plus p) Atomic s =
  match take_while f s with
  | [] => Err
  | y => Ok y [] (drop_while f s)
  end.
Proof.
  intros Hp. rewrite run_plus, Hp.
  destruct s as [|c r]; simpl; [reflexivity|].
  destruct (f c); [|reflexivity].
  now rewrite (@run_star_class_atomic f).
Qed.

Lemma ident_char_class a s :
  run (or_else ASCII_ALPHANUMERIC (lit "_")) a s = class_step is_ident_char s.
Proof.
  unfold is_ident_char.
  apply class_step_or; [apply run_ASCII_ALPHANUMERIC|apply (run_chr "_")].
Qed.

Lemma identity_char_class a s :
  run (or_else (or_else (or_else ASCII_ALPHANUMERIC (lit "_")) (lit "."))
         (lit "-")) a s
  = class_step is_identity_char s.
Proof.
  unfold is_identity_char.
  apply class_step_or; [|apply (run_chr "-")].
  apply class_step_or; [|apply (run_chr ".")].
  apply class_step_or; [apply run_ASCII_ALPHANUMERIC|apply (run_chr "_")].
Qed.

Lemma run_identifier a s :
  run Grammar.identifier a s =
  match take_while is_ident_char s with
  | [] => Err
  | y => Ok y (leaf Rule.identifier a y) (drop_while is_ident_char s)
  end.
Proof.
  unfold Grammar.identifier. rewrite run_atomic_rule.
  rewrite (@run_plus_class_atomic is_ident_char)
    by (intros; apply ident_char_class).
  destruct (take_while is_ident_char s); reflexivity.
Qed.

Lemma run_identity a s :
  run Grammar.identity a s =
  Ok (take_while is_identity_char s)
    (leaf Rule.identity a (take_while is_identity_char s))
    (drop_while is_identity_char s).
Proof.
  unfold Grammar.identity. rewrite run_atomic_rule.
  rewrite (@run_star_class_atomic is_identity_char)
    by (intros; apply identity_char_class).
  reflexivity.
Qed.

Lemma run_sticky_tag a s :
  run Grammar.sticky_tag a s =
  match match_prefix (chars "sticky") s with
  | Some r => Ok (chars "sticky") (leaf Rule.sticky_tag a (chars "sticky")) r
  | None => Err
  end.
Proof.
  unfold Grammar.sticky_tag. rewrite run_atomic_rule, run_lit.
  destruct (match_prefix (chars "sticky") s); reflexivity.
Qed.

(** ** The author tag and the delimiter *)

Arguments run : simpl never.

(** One step of a rule on a text whose first characters are known. *)
Ltac run_step :=
  first
    [ rewrite run_identifier | rewrite run_identity | rewrite run_sticky_tag
    | rewrite run_silent | rewrite run_lit | rewrite run_chr
    | rewrite run_match_chars | rewrite run_ANY | rewrite run_not_
    | rewrite run_ASCII_DIGIT
    | rewrite run_seq | rewrite run_or_else | rewrite run_opt
    | rewrite run_star | rewrite run_normal ];
  cbn.

Lemma run_author_tag rest :
  run Grammar.author_tag NonAtomic ("@" :: "@" :: rest)%char =
  Ok (chars "@@" ++ take_while is_ws rest
        ++ take_while is_identity_char (drop_while is_ws rest))
    [Node Rule.identity
       (text (take_while is_identity_char (drop_while is_ws rest))) []]
    (drop_while is_identity_char (drop_while is_ws rest)).
Proof.
  unfold Grammar.author_tag. repeat run_step. reflexivity.
Qed.

(** C9. The identity of an author tag may be empty: when no identity
    character follows [@@] (and the whitespace after it), the author tag is
    matched with an identity of no characters; and there is a source that
    parse accepts whose author tag is the empty string. *)
Theorem author_tag_identity_may_be_empty :
  (forall rest,
      take_while is_identity_char (drop_while is_ws rest) = [] ->
      run Grammar.author_tag NonAtomic ("@" :: "@" :: rest)%char =
      Ok (chars "@@" ++ take_while is_ws rest)
        [Node Rule.identity "" []] (drop_while is_ws rest))
  /\ (exists w,
         parse "workflow w v1{step s{a()}}@@" = Some (inl [w])
         /\ wf_author w = Some ""%string).
Proof.
  split.
  - intros rest H. rewrite run_author_tag, H, app_nil_r.
    f_equal.
    pose proof (take_drop_while is_identity_char (drop_while is_ws rest)) as E.
    rewrite H in E. exact E.
  - eexists. split; [vm_compute; reflexivity|reflexivity].
Qed.

Lemma author_tag_identity_may_be_empty_witness :
  run Grammar.author_tag NonAtomic (chars "@@ }") =
  Ok (chars "@@ ") [Node Rule.identity "" []] (chars "}").
Proof.
  exact (proj1 author_tag_identity_may_be_empty (chars " }") eq_refl).
Defined.

Lemma run_delimiter_empty rest :
  run Grammar.delimiter NonAtomic (QUOTE :: QUOTE :: rest) =
  Ok [QUOTE; QUOTE] [Node Rule.delimiter (text [QUOTE; QUOTE]) []] rest.
Proof.
  unfold Grammar.delimiter. repeat run_step. reflexivity.
Qed.


(** ** Expressions *)

(** C5. Inside an expression the range is tried first: a guard on which the
    range rule matches is a range expression, with exactly what the range
    rule matched; and a guard that parse reads as a comparison or as a
    simple expression is one on which the range rule fails. *)
Theorem expression_range_first :
  (forall s c t r,
      run Grammar.range_expression NonAtomic s = Ok c t r ->
      run Grammar.expression NonAtomic s
      = Ok c [Node Rule.expression (text c) t] r
      /\ expr_kind (Node Rule.expression (text c) t) = Some RangeExpression)
  /\ (forall s c t r,
         run Grammar.expression NonAtomic s = Ok c t r ->
         exists e k,
           t = [e] /\ pair_rule e = Rule.expression /\ expr_kind e = Some k
           /\ (k <> RangeExpression ->
               run Grammar.range_expression NonAtomic s = Err)).
Proof.
  split.
  - intros s c t r H. split.
    + unfold Grammar.expression. now rewrite run_normal, run_or_else, H.
    + apply normal_Ok in H as (t' & _ & ->). reflexivity.
  - intros s c t r H.
    apply normal_Ok in H as (t' & H & ->).
    apply or_else_Ok in H as [H|[Hr H]].
    + apply normal_Ok in H as (t'' & _ & ->).
      eexists; exists RangeExpression.
      repeat split. intros K; now contradiction K.
    + apply seq_Ok in H as (c1 & t1 & r1 & c2 & t2 & H1 & H2 & -> & ->).
      apply normal_Ok in H1 as (t1' & _ & ->).
      apply opt_Ok in H2 as [H2|(_ & -> & -> & _)].
      * apply seq_Ok in H2 as (c3 & t3 & r3 & c4 & t4 & H3 & H4 & -> & ->).
        apply normal_Ok in H3 as (t3' & _ & ->).
        apply normal_Ok in H4 as (t4' & _ & ->).
        eexists; exists Comparison. repeat split. intros _; exact Hr.
      * eexists; exists SimpleExpression. repeat split. intros _; exact Hr.
Qed.

Lemma expression_range_first_witness :
  run Grammar.expression NonAtomic (chars "lo..hi {")
  = Ok (chars "lo..hi")
      [Node Rule.expression "lo..hi"
         [Node Rule.range_expression "lo..hi"
            [Node Rule.identifier "lo" []; Node Rule.identifier "hi" []]]]
      (chars " {")
  /\ run Grammar.range_expression NonAtomic (chars "$x > 3 {") = Err.
Proof.
  split.
  - refine (proj1 (proj1 expression_range_first (chars "lo..hi {") _ _ _ _)).
    vm_compute; reflexivity.
  - edestruct (proj2 expression_range_first (chars "$x > 3 {"))
      as (e & k & He & _ & Hk & Hr).
    + vm_compute; reflexivity.
    + injection He as <-. injection Hk as <-.
      apply Hr; discriminate.
Defined.

(** ** Actions *)

Lemma take_while_prefix f u r :
  Forall (fun x => f x = true) u -> take_while f (u ++ r) = u ++ take_while f r.
Proof.
  induction 1 as [|x u Hx _ IH]; simpl; [reflexivity|].
  now rewrite Hx, IH.
Qed.

Lemma drop_while_prefix f u r :
  Forall (fun x => f x = true) u -> drop_while f (u ++ r) = drop_while f r.
Proof.
  induction 1 as [|x u Hx _ IH]; simpl; [reflexivity|].
  now rewrite Hx, IH.
Qed.

Lemma drop_while_id f s : take_while f s = [] -> drop_while f s = s.
Proof.
  destruct s as [|c r]; simpl; [reflexivity|].
  destruct (f c); [discriminate|reflexivity].
Qed.

Lemma ident_char_not_ws c : is_ident_char c = true -> is_ws c = false.
Proof.
  destruct (is_ws c) eqn:W; [|reflexivity].
  unfold is_ws in W.
  repeat (apply orb_true_iff in W as [W|W]);
    apply Ascii.eqb_eq in W; subst c; vm_compute; discriminate.
Qed.

(** A name that is followed by something else than a name character. *)
Lemma run_identifier_app a y rest :
  y <> [] -> Forall (fun c => is_ident_char c = true) y ->
  take_while is_ident_char rest = [] ->
  run Grammar.identifier a (y ++ rest)
  = Ok y (leaf Rule.identifier a y) rest.
Proof.
  intros Hy Hall Hrest.
  rewrite run_identifier, take_while_prefix, drop_while_prefix by assumption.
  rewrite Hrest, app_nil_r, (drop_while_id _ _ Hrest).
  destruct y; [contradiction|reflexivity].
Qed.

Lemma run_seq_assoc p q r a s :
  run (seq (seq p q) r) a s = run (seq p (seq q r)) a s.
Proof.
  rewrite !run_seq.
  destruct (run p a s) as [c1 t1 r1| |]; try reflexivity.
  rewrite run_seq.
  destruct (run q a (after_skip a r1)) as [c2 t2 r2| |]; try reflexivity.
  destruct (run r a (after_skip a r2)) as [c3 t3 r3| |]; try reflexivity.
  f_equal; rewrite <- ?app_assoc; reflexivity.
Qed.

Lemma run_external_fn_call s :
  run Grammar.external_fn_call NonAtomic s =
  run (normal Rule.external_fn_call
         (seq (lit "call") (seq Grammar.identifier arguments))) NonAtomic s.
Proof.
  unfold Grammar.external_fn_call, arguments.
  rewrite !run_normal, !run_seq_assoc. reflexivity.
Qed.

Lemma run_action s :
  run Grammar.action NonAtomic s =
  run (normal Rule.action
         (or_else Grammar.external_fn_call (seq Grammar.command arguments)))
    NonAtomic s.
Proof.
  unfold Grammar.action, arguments.
  rewrite !run_normal, !run_or_else, !run_seq_assoc. reflexivity.
Qed.

Lemma run_call_prefix y rest :
  y <> [] -> Forall (fun c => is_ident_char c = true) y ->
  take_while is_ident_char rest = [] ->
  run (seq (lit "call") (seq Grammar.identifier arguments)) NonAtomic
    (chars "call" ++ y ++ rest)
  = match run arguments NonAtomic (drop_while is_ws rest) with
    | Ok c2 t2 r2 =>
        Ok (chars "call" ++ y ++ take_while is_ws rest ++ c2)
          (Node Rule.identifier (text y) [] :: t2) r2
    | other => other
    end.
Proof.
  intros Hy Hall Hrest.
  rewrite run_seq, run_lit_app.
  assert (Hws : after_skip NonAtomic (y ++ rest) = y ++ rest
                /\ skipped NonAtomic (y ++ rest) = []).
  { destruct y as [|c y]; [contradiction|].
    inversion Hall as [|? ? Hc _]; subst.
    apply ident_char_not_ws in Hc. simpl. now rewrite Hc. }
  destruct Hws as [-> ->].
  rewrite run_seq, run_identifier_app by assumption.
  simpl after_skip; simpl skipped.
  destruct (run arguments NonAtomic (drop_while is_ws rest)); reflexivity.
Qed.

Lemma run_command_prefix y rest :
  y <> [] -> Forall (fun c => is_ident_char c = true) y ->
  take_while is_ident_char rest = [] ->
  run (seq Grammar.command arguments) NonAtomic (chars "call" ++ y ++ rest)
  = match run arguments NonAtomic (drop_while is_ws rest) with
    | Ok c2 t2 r2 =>
        Ok ((chars "call" ++ y) ++ take_while is_ws rest ++ c2)
          (Node Rule.command (text (chars "call" ++ y))
             [Node Rule.identifier (text (chars "call" ++ y)) []] :: t2) r2
    | other => other
    end.
Proof.
  intros Hy Hall Hrest.
  rewrite run_seq. unfold Grammar.command. rewrite run_normal.
  rewrite app_assoc.
  rewrite run_identifier_app; try assumption.
  - simpl after_skip; simpl skipped.
    destruct (run arguments NonAtomic (drop_while is_ws rest)); reflexivity.
  - discriminate.
  - apply Forall_app; split; [|assumption].
    repeat constructor.
Qed.

(** C8. [call] is matched without a word boundary: on a name that is [call]
    followed by name characters [y], an action never is the command of that
    name.  Whenever the action matches, it is the external call whose
    function name is [y]; with no arguments it does match. *)
Theorem call_prefix_is_external_call :
  forall y rest,
    y <> [] -> Forall (fun c => is_ident_char c = true) y ->
    take_while is_ident_char rest = [] ->
    (run Grammar.action NonAtomic (chars "call" ++ y ++ rest)
     = match run Grammar.external_fn_call NonAtomic
               (chars "call" ++ y ++ rest) with
       | Ok c t r => Ok c [Node Rule.action (text c) t] r
       | other => other
       end)
    /\ (forall c t r,
           run Grammar.action NonAtomic (chars "call" ++ y ++ rest) = Ok c t r ->
           exists params,
             t = [Node Rule.action (text c)
                    [Node Rule.external_fn_call (text c)
                       (Node Rule.identifier (text y) [] :: params)]])
    /\ (forall tail,
           rest = chars "()" ++ tail ->
           run Grammar.action NonAtomic (chars "call" ++ y ++ rest)
           = Ok (chars "call" ++ y ++ chars "()")
               [Node Rule.action (text (chars "call" ++ y ++ chars "()"))
                  [Node Rule.external_fn_call
                     (text (chars "call" ++ y ++ chars "()"))
                     [Node Rule.identifier (text y) []]]] tail).
Proof.
  intros y rest Hy Hall Hrest.
  assert (E : run Grammar.action NonAtomic (chars "call" ++ y ++ rest)
              = match run Grammar.external_fn_call NonAtomic
                        (chars "call" ++ y ++ rest) with
                | Ok c t r => Ok c [Node Rule.action (text c) t] r
                | other => other
                end).
  { rewrite run_action, run_normal, run_or_else, run_external_fn_call.
    rewrite run_normal, run_call_prefix, run_command_prefix by assumption.
    destruct (run arguments NonAtomic (drop_while is_ws rest)); reflexivity. }
  split; [exact E|split].
  - intros c t r. rewrite E, run_external_fn_call, run_normal.
    rewrite run_call_prefix by assumption.
    destruct (run arguments NonAtomic (drop_while is_ws rest))
      as [c2 t2 r2| |]; try discriminate.
    intros H; injection H as <- <- <-. eauto.
  - intros tail ->. rewrite E, run_external_fn_call, run_normal.
    rewrite run_call_prefix by assumption.
    unfold arguments. cbn [chars list_ascii_of_string app drop_while is_ws].
    repeat run_step. reflexivity.
Qed.

Lemma call_prefix_is_external_call_witness :
  run Grammar.action NonAtomic (chars "callfoo(1, $x)}")
  = Ok (chars "callfoo(1, $x)")
      [Node Rule.action "callfoo(1, $x)"
         [Node Rule.external_fn_call "callfoo(1, $x)"
            [Node Rule.identifier "foo" []; Node Rule.param "1" [];
             Node Rule.param "$x"
               [Node Rule.register "$x" [Node Rule.identifier "x" []]]]]]
      (chars "}").
Proof.
  assert (H : chars "foo" <> []) by discriminate.
  change (chars "callfoo(1, $x)}")
    with (chars "call" ++ chars "foo" ++ chars "(1, $x)}").
  rewrite (proj1 (call_prefix_is_external_call
                    (chars "foo") (chars "(1, $x)}") H
                    ltac:(repeat constructor) eq_refl)).
  vm_compute. reflexivity.
Defined.

(** ** What the rules consume *)

Create HintDb pest.

Lemma consumes_weaken k j p : consumes k p -> j <= k -> consumes j p.
Proof. intros H Hj a s c t r E. apply H in E as [E L]. split; [exact E|lia]. Qed.

Lemma consumes_match_chars l k :
  k <= length l -> consumes k (match_chars l).
Proof.
  intros Hk a s c t r. rewrite run_match_chars.
  destruct (match_prefix l s) as [r'|] eqn:E; [|discriminate].
  intros H; injection H as <- <- <-.
  apply match_prefix_Some in E. auto.
Qed.

Lemma consumes_lit l k : k <= length (chars l) -> consumes k (lit l).
Proof. apply consumes_match_chars. Qed.

Lemma consumes_chr c k : k <= 1 -> consumes k (chr c).
Proof. intros H. apply consumes_match_chars. exact H. Qed.

Lemma consumes_class f p k :
  (forall a s, run p a s = class_step f s) -> k <= 1 -> consumes k p.
Proof.
  intros Hp Hk a s c t r. rewrite Hp. unfold class_step.
  destruct s as [|x s]; [discriminate|]. destruct (f x); [|discriminate].
  intros H; injection H as <- <- <-. simpl. auto.
Qed.

Lemma consumes_match_range lo hi k : k <= 1 -> consumes k (match_range lo hi).
Proof. apply consumes_class with (f := in_range lo hi). apply run_match_range. Qed.

Lemma consumes_ANY k : k <= 1 -> consumes k ANY.
Proof. apply consumes_class with (f := fun _ => true). apply run_ANY. Qed.

Lemma consumes_and_then k j p q :
  consumes k p -> consumes j q -> consumes (k + j) (and_then p q).
Proof.
  intros Hp Hq a s c t r. rewrite run_and_then.
  destruct (run p a s) as [c1 t1 r1| |] eqn:E1; try discriminate.
  destruct (run q a r1) as [c2 t2 r2| |] eqn:E2; try discriminate.
  intros H; injection H as <- <- <-.
  apply Hp in E1 as [-> L1]. apply Hq in E2 as [-> L2].
  rewrite length_app, <- app_assoc. split; [reflexivity|lia].
Qed.

Lemma consumes_skip : consumes 0 skip.
Proof.
  intros a s c t r. rewrite run_skip.
  intros H; injection H as <- <- <-. split; [|lia].
  destruct a; simpl; [reflexivity|]. symmetry; apply take_drop_while.
Qed.

Lemma consumes_seq k j p q :
  consumes k p -> consumes j q -> consumes (k + j) (seq p q).
Proof.
  intros Hp Hq. unfold seq.
  apply consumes_and_then; [exact Hp|].
  change j with (0 + j). apply consumes_and_then; [apply consumes_skip|exact Hq].
Qed.

Lemma consumes_seq_l k p q : consumes k p -> consumes 0 q -> consumes k (seq p q).
Proof.
  intros Hp Hq. apply consumes_weaken with (k := k + 0); [|lia].
  now apply consumes_seq.
Qed.

Lemma consumes_seq_r k p q : consumes 0 p -> consumes k q -> consumes k (seq p q).
Proof. intros Hp Hq. change k with (0 + k). now apply consumes_seq. Qed.

Lemma consumes_or_else k p q :
  consumes k p -> consumes k q -> consumes k (or_else p q).
Proof.
  intros Hp Hq a s c t r H.
  apply or_else_Ok in H as [H|[_ H]]; [now apply Hp in H|now apply Hq in H].
Qed.

Lemma consumes_optional p : consumes 0 p -> consumes 0 (optional p).
Proof.
  intros Hp a s c t r. rewrite run_optional.
  destruct (run p a s) as [c1 t1 r1| |] eqn:E; try discriminate.
  - intros H; injection H as <- <- <-. now apply Hp in E.
  - intros H; injection H as <- <- <-. simpl; auto.
Qed.

Lemma consumes_opt p : consumes 0 p -> consumes 0 (opt p).
Proof. apply consumes_optional. Qed.

Lemma consumes_repeat_n n [p] : consumes 0 p -> consumes 0 (repeat_n n p).
Proof.
  intros Hp a s c t r H. split; [|lia].
  revert s c t r H. induction n as [|n IH]; intros s c t r.
  - discriminate.
  - rewrite run_repeat_n.
    destruct (run p a s) as [c1 t1 r1| |] eqn:E1; try discriminate.
    + destruct (run (repeat_n n p) a r1) as [c2 t2 r2| |] eqn:E2;
        try discriminate.
      intros H; injection H as <- <- <-.
      apply Hp in E1 as [-> _]. apply IH in E2 as ->.
      now rewrite app_assoc.
    + intros H; injection H as <- <- <-. reflexivity.
Qed.

Lemma consumes_repeat p : consumes 0 p -> consumes 0 (repeat p).
Proof.
  intros Hp a s c t r H.
  exact (consumes_repeat_n (S (length s)) Hp a s c t r H).
Qed.

Lemma consumes_star p : consumes 0 p -> consumes 0 (star p).
Proof.
  intros Hp. unfold star. apply consumes_optional.
  change 0 with (0 + 0). apply consumes_and_then; [exact Hp|].
  apply consumes_repeat.
  change 0 with (0 + 0). apply consumes_and_then; [apply consumes_skip|exact Hp].
Qed.

Lemma consumes_plus k p : consumes k p -> consumes k (plus p).
Proof.
  intros Hp. unfold plus. apply consumes_seq_l; [exact Hp|].
  apply consumes_star. apply consumes_weaken with (k := k); [exact Hp|lia].
Qed.

Lemma consumes_lookahead_not p : consumes 0 (lookahead_not p).
Proof.
  intros a s c t r. rewrite run_lookahead_not.
  destruct (run p a s); try discriminate.
  intros H; injection H as <- <- <-. simpl; auto.
Qed.

Lemma consumes_not_ p : consumes 0 (not_ p).
Proof. apply consumes_lookahead_not. Qed.

Lemma consumes_rule k r p : consumes k p -> consumes k (rule r p).
Proof.
  intros Hp a s c t rest. rewrite run_rule.
  destruct (run p a s) as [c1 t1 r1| |] eqn:E; try discriminate.
  intros H; injection H as <- <- <-. now apply Hp in E.
Qed.

Lemma consumes_normal k r p : consumes k p -> consumes k (normal r p).
Proof. apply consumes_rule. Qed.

Lemma consumes_atomic k b p : consumes k p -> consumes k (atomic b p).
Proof. intros Hp a s c t r H. exact (Hp b s c t r H). Qed.

Lemma consumes_atomic_rule k r p : consumes k p -> consumes k (atomic_rule r p).
Proof. intros Hp. apply consumes_rule, consumes_atomic, Hp. Qed.

Lemma consumes_silent k p : consumes k p -> consumes k (silent p).
Proof. exact (fun H => H). Qed.

Lemma consumes_diverge k : consumes k diverge.
Proof. intros a s c t r H; discriminate. Qed.

#[global] Hint Resolve consumes_seq_l consumes_or_else consumes_opt
  consumes_star consumes_plus consumes_not_ consumes_normal
  consumes_atomic_rule consumes_silent consumes_diverge : pest.
#[global] Hint Extern 1 (consumes _ (lit _)) =>
  apply consumes_lit; cbn; lia : pest.
#[global] Hint Extern 1 (consumes _ (chr _)) =>
  apply consumes_chr; lia : pest.
#[global] Hint Extern 1 (consumes _ (match_chars _)) =>
  apply consumes_match_chars; cbn; lia : pest.
#[global] Hint Extern 1 (consumes _ (match_range _ _)) =>
  apply consumes_match_range; lia : pest.
#[global] Hint Extern 1 (consumes _ ANY) => apply consumes_ANY; lia : pest.
#[global] Hint Extern 1 (consumes _ ASCII_DIGIT) =>
  apply consumes_match_range; lia : pest.
#[global] Hint Extern 1 (consumes _ ASCII_ALPHANUMERIC) =>
  unfold ASCII_ALPHANUMERIC, ASCII_ALPHA, ASCII_DIGIT : pest.
#[global] Hint Extern 5 (consumes _ (seq (not_ _) _)) =>
  apply consumes_seq_r : pest.

Ltac consumes_rule :=
  match goal with
  | |- consumes _ ?p => let h := eval hnf in p in idtac
  end;
  unfold Grammar.number, Grammar.boolean, Grammar.delimiter, Grammar.string,
    Grammar.identity, Grammar.identifier, Grammar.sticky_tag,
    Grammar.author_tag, Grammar.version, Grammar.register,
    Grammar.split_expression, Grammar.value, Grammar.comparison_operator,
    Grammar.param, Grammar.external_fn_call, Grammar.register_operation,
    Grammar.range_expression, Grammar.simple_expression, Grammar.expression,
    Grammar.command, Grammar.action, Grammar.step, Grammar.workflow;
  auto 30 with pest.

Lemma consumes_number : consumes 1 Grammar.number.
Proof. consumes_rule. Qed.
#[global] Hint Resolve consumes_number : pest.

#[global] Hint Extern 3 (consumes 0 _) =>
  (apply consumes_weaken with (k := 1); [solve [auto 30 with pest]|lia])
  : pest.

Lemma consumes_boolean : consumes 1 Grammar.boolean.
Proof. consumes_rule. Qed.
Lemma consumes_delimiter : consumes 1 Grammar.delimiter.
Proof. consumes_rule. Qed.
Lemma consumes_string : consumes 1 Grammar.string.
Proof. consumes_rule. Qed.
Lemma consumes_identity : consumes 0 Grammar.identity.
Proof. consumes_rule. Qed.
Lemma consumes_identifier : consumes 1 Grammar.identifier.
Proof. consumes_rule. Qed.
Lemma consumes_sticky_tag : consumes 1 Grammar.sticky_tag.
Proof. consumes_rule. Qed.
#[global] Hint Resolve consumes_boolean consumes_delimiter consumes_string
  consumes_identity consumes_identifier consumes_sticky_tag : pest.

Lemma consumes_author_tag : consumes 1 Grammar.author_tag.
Proof. consumes_rule. Qed.
Lemma consumes_version : consumes 1 Grammar.version.
Proof. consumes_rule. Qed.
Lemma consumes_register : consumes 1 Grammar.register.
Proof. consumes_rule. Qed.
#[global] Hint Resolve consumes_author_tag consumes_version consumes_register
  : pest.

Lemma consumes_split_expression : consumes 1 Grammar.split_expression.
Proof. consumes_rule. Qed.
Lemma consumes_value : consumes 1 Grammar.value.
Proof. consumes_rule. Qed.
Lemma consumes_comparison_operator : consumes 1 Grammar.comparison_operator.
Proof. consumes_rule. Qed.
Lemma consumes_param : consumes 1 Grammar.param.
Proof. consumes_rule. Qed.
#[global] Hint Resolve consumes_split_expression consumes_value
  consumes_comparison_operator consumes_param : pest.

Lemma consumes_external_fn_call : consumes 1 Grammar.external_fn_call.
Proof. consumes_rule. Qed.
Lemma consumes_range_expression : consumes 1 Grammar.range_expression.
Proof. consumes_rule. Qed.
Lemma consumes_simple_expression : consumes 1 Grammar.simple_expression.
Proof. consumes_rule. Qed.
Lemma consumes_command : consumes 1 Grammar.command.
Proof. consumes_rule. Qed.
#[global] Hint Resolve consumes_external_fn_call consumes_range_expression
  consumes_simple_expression consumes_command : pest.

Lemma consumes_register_operation : consumes 1 Grammar.register_operation.
Proof. consumes_rule. Qed.
Lemma consumes_expression : consumes 1 Grammar.expression.
Proof. consumes_rule. Qed.
Lemma consumes_action : consumes 1 Grammar.action.
Proof. consumes_rule. Qed.
#[global] Hint Resolve consumes_register_operation consumes_expression
  consumes_action : pest.

(** The recursive rules, one unfolding at a time. *)
Lemma step_body_S f :
  Grammar.step_body (S f) =
  normal Rule.step_body
    (plus (or_else (or_else (or_else (Grammar.condition f)
                               Grammar.register_operation) Grammar.action)
             (Grammar.for_loop f))).
Proof. reflexivity. Qed.

Lemma condition_S f :
  Grammar.condition (S f) =
  normal Rule.condition
    (seq (seq (seq (seq (lit "if") Grammar.expression) (lit "{"))
            (Grammar.step_body f)) (lit "}")).
Proof. reflexivity. Qed.

Lemma for_loop_S f :
  Grammar.for_loop (S f) =
  normal Rule.for_loop
    (seq (seq (seq (seq (seq (seq (lit "for") Grammar.identifier) (lit "in"))
                      (or_else Grammar.split_expression
                         Grammar.range_expression)) (lit "{"))
            (Grammar.step_body f)) (lit "}")).
Proof. reflexivity. Qed.

Lemma consumes_recursive f :
  consumes 1 (Grammar.step_body f) /\ consumes 1 (Grammar.condition f)
  /\ consumes 1 (Grammar.for_loop f).
Proof.
  induction f as [|f (IHs & IHc & IHf)].
  - split; [|split]; exact (consumes_diverge 1).
  - rewrite step_body_S, condition_S, for_loop_S.
    split; [|split]; auto 30 with pest.
Qed.

Lemma consumes_step_body f : consumes 1 (Grammar.step_body f).
Proof. apply consumes_recursive. Qed.
Lemma consumes_condition f : consumes 1 (Grammar.condition f).
Proof. apply consumes_recursive. Qed.
Lemma consumes_for_loop f : consumes 1 (Grammar.for_loop f).
Proof. apply consumes_recursive. Qed.
#[global] Hint Resolve consumes_step_body consumes_condition
  consumes_for_loop : pest.

Lemma consumes_step f : consumes 1 (Grammar.step f).
Proof. consumes_rule. Qed.
#[global] Hint Resolve consumes_step : pest.

Lemma consumes_workflow f : consumes 1 (Grammar.workflow f).
Proof. consumes_rule. Qed.
#[global] Hint Resolve consumes_workflow : pest.

(** ** The rules return *)

Lemma returns_weaken n m p : returns_upto n p -> m <= n -> returns_upto m p.
Proof. intros H Hm a s Hs. apply H. lia. Qed.

Lemma returns_match_chars n l : returns_upto n (match_chars l).
Proof.
  intros a s _. rewrite run_match_chars.
  destruct (match_prefix l s); discriminate.
Qed.

Lemma returns_lit n l : returns_upto n (lit l).
Proof. apply returns_match_chars. Qed.

Lemma returns_chr n c : returns_upto n (chr c).
Proof. apply returns_match_chars. Qed.

Lemma returns_class f p n :
  (forall a s, run p a s = class_step f s) -> returns_upto n p.
Proof.
  intros Hp a s _. rewrite Hp. unfold class_step.
  destruct s as [|x s]; [discriminate|]. destruct (f x); discriminate.
Qed.

Lemma returns_match_range n lo hi : returns_upto n (match_range lo hi).
Proof. apply returns_class with (f := in_range lo hi). apply run_match_range. Qed.

Lemma returns_ANY n : returns_upto n ANY.
Proof. apply returns_class with (f := fun _ => true). apply run_ANY. Qed.

Lemma returns_skip n : returns_upto n skip.
Proof. intros a s _. rewrite run_skip. discriminate. Qed.

(** [q] is only run on what [p] left: when [p] consumes [k] characters, [q]
    need only return on texts that are [k] characters shorter. *)
Lemma returns_and_then n k p q :
  returns_upto n p -> consumes k p -> (k <= n -> returns_upto (n - k) q) ->
  returns_upto n (and_then p q).
Proof.
  intros Hp Hk Hq a s Hs. rewrite run_and_then.
  destruct (run p a s) as [c1 t1 r1| |] eqn:E1.
  - apply Hk in E1 as [-> L].
    rewrite length_app in Hs.
    assert (Hr : run q a r1 <> Loop) by (apply Hq; lia).
    destruct (run q a r1); [discriminate|discriminate|contradiction].
  - discriminate.
  - now apply Hp in E1.
Qed.

Lemma returns_seq n k p q :
  returns_upto n p -> consumes k p -> (k <= n -> returns_upto (n - k) q) ->
  returns_upto n (seq p q).
Proof.
  intros Hp Hk Hq. unfold seq.
  apply returns_and_then with (k := k); [exact Hp|exact Hk|].
  intros Hn. apply returns_and_then with (k := 0).
  - apply returns_skip.
  - apply consumes_skip.
  - intros _. rewrite Nat.sub_0_r. auto.
Qed.

Lemma returns_seq_0 n p q :
  returns_upto n p -> consumes 0 p -> returns_upto n q ->
  returns_upto n (seq p q).
Proof.
  intros Hp Hk Hq. apply returns_seq with (k := 0); [exact Hp|exact Hk|].
  intros _. now rewrite Nat.sub_0_r.
Qed.

Lemma returns_or_else n p q :
  returns_upto n p -> returns_upto n q -> returns_upto n (or_else p q).
Proof.
  intros Hp Hq a s Hs. rewrite run_or_else.
  specialize (Hp a s Hs). specialize (Hq a s Hs).
  destruct (run p a s); [discriminate|exact Hq|contradiction].
Qed.

Lemma returns_optional n p : returns_upto n p -> returns_upto n (optional p).
Proof.
  intros Hp a s Hs. rewrite run_optional.
  specialize (Hp a s Hs).
  destruct (run p a s); [discriminate|discriminate|contradiction].
Qed.

Lemma returns_opt n p : returns_upto n p -> returns_upto n (opt p).
Proof. apply returns_optional. Qed.

(** A rule that consumes can only be repeated as many times as there are
    characters. *)
Lemma returns_repeat_n n p :
  returns_upto n p -> consumes 1 p ->
  forall m a s, length s <= n -> length s < m ->
  run (repeat_n m p) a s <> Loop.
Proof.
  intros Hp Hk m; induction m as [|m IH]; intros a s Hs Hm; [lia|].
  rewrite run_repeat_n.
  destruct (run p a s) as [c1 t1 r1| |] eqn:E1.
  - apply Hk in E1 as [-> L]. rewrite length_app in Hs, Hm.
    assert (Hr : run (repeat_n m p) a r1 <> Loop) by (apply IH; lia).
    destruct (run (repeat_n m p) a r1); [discriminate|discriminate|contradiction].
  - discriminate.
  - now apply Hp in E1.
Qed.

Lemma returns_repeat n p :
  returns_upto n p -> consumes 1 p -> returns_upto n (repeat p).
Proof.
  intros Hp Hk a s Hs.
  exact (returns_repeat_n n p Hp Hk (S (length s)) a s Hs
           (Nat.lt_succ_diag_r _)).
Qed.

Lemma returns_star n p :
  returns_upto n p -> consumes 1 p -> returns_upto n (star p).
Proof.
  intros Hp Hk. unfold star. apply returns_optional.
  apply returns_and_then with (k := 0); [exact Hp| |].
  - apply consumes_weaken with (k := 1); [exact Hk|lia].
  - intros _. rewrite Nat.sub_0_r. apply returns_repeat.
    + apply returns_and_then with (k := 0);
        [apply returns_skip|apply consumes_skip|].
      intros _. now rewrite Nat.sub_0_r.
    + change 1 with (0 + 1).
      apply consumes_and_then; [apply consumes_skip|exact Hk].
Qed.

Lemma returns_plus n p :
  returns_upto n p -> consumes 1 p -> returns_upto n (plus p).
Proof.
  intros Hp Hk. unfold plus. apply returns_seq_0; [exact Hp| |].
  - apply consumes_weaken with (k := 1); [exact Hk|lia].
  - now apply returns_star.
Qed.

Lemma returns_lookahead_not n p :
  returns_upto n p -> returns_upto n (lookahead_not p).
Proof.
  intros Hp a s Hs. rewrite run_lookahead_not. specialize (Hp a s Hs).
  destruct (run p a s); [discriminate|discriminate|contradiction].
Qed.

Lemma returns_not_ n p : returns_upto n p -> returns_upto n (not_ p).
Proof. apply returns_lookahead_not. Qed.

Lemma returns_rule n r p : returns_upto n p -> returns_upto n (rule r p).
Proof.
  intros Hp a s Hs. rewrite run_rule. specialize (Hp a s Hs).
  destruct (run p a s); [discriminate|discriminate|contradiction].
Qed.

Lemma returns_normal n r p : returns_upto n p -> returns_upto n (normal r p).
Proof. apply returns_rule. Qed.

Lemma returns_atomic n b p : returns_upto n p -> returns_upto n (atomic b p).
Proof. intros Hp a s Hs. exact (Hp b s Hs). Qed.

Lemma returns_atomic_rule n r p :
  returns_upto n p -> returns_upto n (atomic_rule r p).
Proof. intros Hp. apply returns_rule, returns_atomic, Hp. Qed.

Lemma returns_silent n p : returns_upto n p -> returns_upto n (silent p).
Proof. exact (fun H => H). Qed.

#[global] Hint Resolve returns_lit returns_chr returns_match_chars
  returns_match_range returns_ANY returns_seq_0 returns_or_else returns_opt
  returns_star returns_plus returns_not_ returns_normal returns_atomic_rule
  returns_silent : pest.
#[global] Hint Extern 1 (returns_upto _ ASCII_DIGIT) =>
  apply returns_match_range : pest.
#[global] Hint Extern 1 (returns_upto _ ASCII_ALPHANUMERIC) =>
  unfold ASCII_ALPHANUMERIC, ASCII_ALPHA, ASCII_DIGIT : pest.
#[global] Hint Extern 4 (consumes 1 (or_else _ _)) =>
  apply consumes_or_else : pest.

Ltac returns_rule :=
  unfold Grammar.number, Grammar.boolean, Grammar.delimiter, Grammar.string,
    Grammar.identity, Grammar.identifier, Grammar.sticky_tag,
    Grammar.author_tag, Grammar.version, Grammar.register,
    Grammar.split_expression, Grammar.value, Grammar.comparison_operator,
    Grammar.param, Grammar.external_fn_call, Grammar.register_operation,
    Grammar.range_expression, Grammar.simple_expression, Grammar.expression,
    Grammar.command, Grammar.action;
  auto 40 with pest.

Lemma returns_number n : returns_upto n Grammar.number.
Proof. returns_rule. Qed.
Lemma returns_boolean n : returns_upto n Grammar.boolean.
Proof. returns_rule. Qed.
Lemma returns_delimiter n : returns_upto n Grammar.delimiter.
Proof. returns_rule. Qed.
Lemma returns_string n : returns_upto n Grammar.string.
Proof. returns_rule. Qed.
Lemma returns_identity n : returns_upto n Grammar.identity.
Proof. returns_rule. Qed.
Lemma returns_identifier n : returns_upto n Grammar.identifier.
Proof. returns_rule. Qed.
Lemma returns_sticky_tag n : returns_upto n Grammar.sticky_tag.
Proof. returns_rule. Qed.
#[global] Hint Resolve returns_number returns_boolean returns_delimiter
  returns_string returns_identity returns_identifier returns_sticky_tag
  : pest.

Lemma returns_author_tag n : returns_upto n Grammar.author_tag.
Proof. returns_rule. Qed.
Lemma returns_version n : returns_upto n Grammar.version.
Proof. returns_rule. Qed.
Lemma returns_register n : returns_upto n Grammar.register.
Proof. returns_rule. Qed.
#[global] Hint Resolve returns_author_tag returns_version returns_register
  : pest.

Lemma returns_split_expression n : returns_upto n Grammar.split_expression.
Proof. returns_rule. Qed.
Lemma returns_value n : returns_upto n Grammar.value.
Proof. returns_rule. Qed.
Lemma returns_comparison_operator n :
  returns_upto n Grammar.comparison_operator.
Proof. returns_rule. Qed.
Lemma returns_param n : returns_upto n Grammar.param.
Proof. returns_rule. Qed.
#[global] Hint Resolve returns_split_expression returns_value
  returns_comparison_operator returns_param : pest.

Lemma returns_external_fn_call n : returns_upto n Grammar.external_fn_call.
Proof. returns_rule. Qed.
Lemma returns_range_expression n : returns_upto n Grammar.range_expression.
Proof. returns_rule. Qed.
Lemma returns_simple_expression n : returns_upto n Grammar.simple_expression.
Proof. returns_rule. Qed.
Lemma returns_command n : returns_upto n Grammar.command.
Proof. returns_rule. Qed.
#[global] Hint Resolve returns_external_fn_call returns_range_expression
  returns_simple_expression returns_command : pest.

Lemma returns_register_operation n :
  returns_upto n Grammar.register_operation.
Proof. returns_rule. Qed.
Lemma returns_expression n : returns_upto n Grammar.expression.
Proof. returns_rule. Qed.
Lemma returns_action n : returns_upto n Grammar.action.
Proof. returns_rule. Qed.
#[global] Hint Resolve returns_register_operation returns_expression
  returns_action : pest.

(** The recursive rules return on a text of [n] characters when they are
    given fuel for [n] characters and two calls more: a nested body is
    only tried after the keyword that introduces it, which takes two
    characters off the text and two units off the fuel. *)
Lemma returns_recursive n :
  returns_upto n (Grammar.step_body (S (S n)))
  /\ returns_upto n (Grammar.condition (S n))
  /\ returns_upto n (Grammar.for_loop (S n)).
Proof.
  induction n as [n IH] using lt_wf_ind.
  assert (Hnested : 2 <= n -> returns_upto (n - 2) (Grammar.step_body n)).
  { intros Hn. destruct n as [|[|m]]; try lia.
    replace (S (S m) - 2) with m by lia. apply IH. lia. }
  assert (Hc : returns_upto n (Grammar.condition (S n))).
  { rewrite condition_S. apply returns_normal.
    apply returns_seq_0; [|auto 30 with pest|auto with pest].
    apply returns_seq with (k := 2);
      [auto 30 with pest|auto 30 with pest|exact Hnested]. }
  assert (Hf : returns_upto n (Grammar.for_loop (S n))).
  { rewrite for_loop_S. apply returns_normal.
    apply returns_seq_0; [|auto 30 with pest|auto with pest].
    apply returns_seq with (k := 2);
      [auto 40 with pest|auto 40 with pest|exact Hnested]. }
  split; [|split; assumption].
  rewrite step_body_S. auto 30 with pest.
Qed.

Lemma returns_step n : returns_upto n (Grammar.step (S n)).
Proof.
  unfold Grammar.step. apply returns_normal.
  apply returns_seq_0; [|auto 30 with pest|auto with pest].
  apply returns_seq with (k := 1);
    [auto 30 with pest|auto 30 with pest|].
  intros Hn. destruct n as [|m]; [lia|].
  replace (S m - 1) with m by lia. apply returns_recursive.
Qed.

Lemma returns_workflow n : returns_upto n (Grammar.workflow (S n)).
Proof.
  pose proof (returns_step n).
  unfold Grammar.workflow. auto 40 with pest.
Qed.

Lemma length_chars src : length (chars src) = String.length src.
Proof. induction src as [|c src IH]; simpl; [reflexivity|now rewrite IH]. Qed.

(** parse returns. *)
Lemma parse_returns src : parse src <> None.
Proof.
  unfold parse, parse_with.
  pose proof (returns_workflow (String.length src) NonAtomic (chars src)) as H.
  rewrite length_chars in H. specialize (H (le_n _)).
  unfold run in H.
  destruct (Grammar.workflow (S (String.length src)) NonAtomic (chars src))
    as [[c t r| |] [[n e]|]]; simpl in H; try discriminate;
    contradiction.
Qed.

(** ** The shape of the pairs *)

Lemma identifier_Ok s c t r :
  run Grammar.identifier NonAtomic s = Ok c t r ->
  t = [Node Rule.identifier (text c) []].
Proof.
  rewrite run_identifier.
  destruct (take_while is_ident_char s); [discriminate|].
  intros H; injection H as <- <- <-. reflexivity.
Qed.

Lemma recursive_0 a s :
  run (Grammar.step_body 0) a s = Loop /\ run (Grammar.condition 0) a s = Loop
  /\ run (Grammar.for_loop 0) a s = Loop.
Proof. repeat split. Qed.

Lemma statement_Ok f s c t r :
  run (or_else (or_else (or_else (Grammar.condition f)
                           Grammar.register_operation) Grammar.action)
         (Grammar.for_loop f)) NonAtomic s = Ok c t r ->
  exists p, t = [p] /\ is_statement p = true.
Proof.
  intros H.
  apply or_else_Ok in H as [H|[_ H]];
    [apply or_else_Ok in H as [H|[_ H]];
     [apply or_else_Ok in H as [H|[_ H]]|]|].
  - destruct f as [|f]; [discriminate|].
    rewrite condition_S in H. apply normal_Ok in H as (t' & _ & ->). eauto.
  - apply normal_Ok in H as (t' & _ & ->). eauto.
  - apply normal_Ok in H as (t' & _ & ->). eauto.
  - destruct f as [|f]; [discriminate|].
    rewrite for_loop_S in H. apply normal_Ok in H as (t' & _ & ->). eauto.
Qed.

Lemma plus_Ok (P : list Pair -> Prop) p a :
  P [] ->
  (forall s c t r, run p a s = Ok c t r -> P t) ->
  (forall t1 t2, P t1 -> P t2 -> P (t1 ++ t2)) ->
  forall s c t r,
    run (plus p) a s = Ok c t r ->
    exists c1 t1 r1 t2, run p a s = Ok c1 t1 r1 /\ t = t1 ++ t2 /\ P t2.
Proof.
  intros P0 P1 Papp s c t r H.
  apply seq_Ok in H as (c1 & t1 & r1 & c2 & t2 & H1 & H2 & -> & ->).
  exists c1, t1, r1, t2. repeat split; [exact H1|].
  revert H2. apply (star_Ok (fun _ t => P t)); eauto.
Qed.

Lemma step_body_Ok f s c t r :
  run (Grammar.step_body f) NonAtomic s = Ok c t r ->
  exists st sts,
    t = [Node Rule.step_body (text c) (st :: sts)]
    /\ forallb is_statement (st :: sts) = true.
Proof.
  destruct f as [|f]; [discriminate|].
  rewrite step_body_S. intros H.
  apply normal_Ok in H as (t' & H & ->).
  apply (plus_Ok (fun t => forallb is_statement t = true)) in H
    as (c1 & t1 & r1 & t2 & H1 & -> & H2).
  - apply statement_Ok in H1 as (p & -> & Hp).
    exists p, t2. split; [reflexivity|].
    simpl. now rewrite Hp, H2.
  - reflexivity.
  - intros s0 c0 t0 r0 H0. apply statement_Ok in H0 as (p & -> & Hp).
    simpl. now rewrite Hp.
  - intros t1 t2 H1 H2. rewrite forallb_app. now rewrite H1, H2.
Qed.

Lemma step_Ok f s c t r :
  run (Grammar.step f) NonAtomic s = Ok c t r ->
  exists p, t = [p] /\ step_ok p = true.
Proof.
  unfold Grammar.step. intros H.
  apply normal_Ok in H as (t' & H & ->).
  apply seq_Ok in H as (c1 & t1 & r1 & c2 & t2 & H & H5 & -> & ->).
  apply seq_Ok in H as (c3 & t3 & r3 & c4 & t4 & H & H4 & -> & ->).
  apply seq_Ok in H as (c5 & t5 & r5 & c6 & t6 & H & H3 & -> & ->).
  apply seq_Ok in H as (c7 & t7 & r7 & c8 & t8 & H1 & H2 & -> & ->).
  apply lit_Ok in H1 as (_ & -> & _). apply lit_Ok in H3 as (_ & -> & _).
  apply lit_Ok in H5 as (_ & -> & _).
  apply identifier_Ok in H2 as ->.
  apply step_body_Ok in H4 as (st & sts & -> & Hst).
  eexists; split; [reflexivity|]. exact Hst.
Qed.

Lemma steps_Ok f s c t r :
  run (plus (Grammar.step f)) NonAtomic s = Ok c t r ->
  t <> [] /\ forallb step_ok t = true.
Proof.
  intros H.
  apply (plus_Ok (fun t => forallb step_ok t = true)) in H
    as (c1 & t1 & r1 & t2 & H1 & -> & H2).
  - apply step_Ok in H1 as (p & -> & Hp). split; [discriminate|].
    simpl. now rewrite Hp, H2.
  - reflexivity.
  - intros s0 c0 t0 r0 H0. apply step_Ok in H0 as (p & -> & Hp).
    simpl. now rewrite Hp.
  - intros t1 t2 H1 H2. rewrite forallb_app. now rewrite H1, H2.
Qed.

Lemma author_tag_Ok s c t r :
  run Grammar.author_tag NonAtomic s = Ok c t r ->
  exists i, t = [Node Rule.identity i []].
Proof.
  unfold Grammar.author_tag. rewrite run_silent. intros H.
  apply seq_Ok in H as (c1 & t1 & r1 & c2 & t2 & H & H3 & -> & ->).
  apply seq_Ok in H as (c3 & t3 & r3 & c4 & t4 & H1 & H2 & -> & ->).
  apply lit_Ok in H1 as (_ & -> & _). apply lit_Ok in H2 as (_ & -> & _).
  rewrite run_identity in H3. injection H3 as <- <- <-.
  eexists; reflexivity.
Qed.

Lemma sticky_tag_Ok s c t r :
  run Grammar.sticky_tag NonAtomic s = Ok c t r ->
  t = [Node Rule.sticky_tag "sticky" []].
Proof.
  rewrite run_sticky_tag.
  destruct (match_prefix (chars "sticky") s); [|discriminate].
  intros H; injection H as <- <- <-. reflexivity.
Qed.

Lemma version_pair_Ok s c t r :
  run Grammar.version NonAtomic s = Ok c t r ->
  t = [Node Rule.version (text c) []].
Proof.
  unfold Grammar.version. intros H.
  apply normal_Ok in H as (t' & H & ->).
  apply seq_Ok in H as (c1 & t1 & r1 & c2 & t2 & H & H3 & -> & ->).
  apply seq_Ok in H as (c3 & t3 & r3 & c4 & t4 & H1 & H2 & -> & ->).
  apply lit_Ok in H1 as (_ & -> & _).
  assert (D : forall s c t r,
             run (plus ASCII_DIGIT) NonAtomic s = Ok c t r -> t = []).
  { intros s0 c0 t0 r0 H0.
    apply (plus_Ok (fun t => t = [])) in H0
      as (c5 & t5 & r5 & t6 & H5 & -> & ->).
    - rewrite run_ASCII_DIGIT in H5. unfold class_step in H5.
      destruct s0 as [|x s0]; [discriminate|].
      destruct (is_digit x); [|discriminate]. now injection H5 as <- <- <-.
    - reflexivity.
    - intros s9 c9 t9 r9. rewrite run_ASCII_DIGIT. unfold class_step.
      destruct s9 as [|x s9]; [discriminate|].
      destruct (is_digit x); [|discriminate].
      now intros H; injection H as <- <- <-.
    - intros ? ? -> ->. reflexivity. }
  apply D in H2 as ->.
  assert (t2 = []) as ->; [|reflexivity].
  revert H3. apply (star_Ok (fun _ t => t = [])).
  - reflexivity.
  - intros s0 c0 t0 r0 c5 t5 H0 ->.
    apply seq_Ok in H0 as (c6 & t6 & r6 & c7 & t7 & H6 & H7 & -> & ->).
    apply lit_Ok in H6 as (_ & -> & _). now apply D in H7 as ->.
  - intros s0 c0 t0 r0 H0.
    apply seq_Ok in H0 as (c6 & t6 & r6 & c7 & t7 & H6 & H7 & -> & ->).
    apply lit_Ok in H6 as (_ & -> & _). now apply D in H7 as ->.
Qed.

Lemma workflow_Ok f s c t r :
  run (Grammar.workflow f) NonAtomic s = Ok c t r ->
  exists cn sv cv rv steps auth stick,
    t = [Node Rule.workflow (text c)
           (Node Rule.identifier (text cn) []
              :: Node Rule.version (text cv) [] :: steps ++ auth ++ stick)]
    /\ run Grammar.version NonAtomic sv
       = Ok cv [Node Rule.version (text cv) []] rv
    /\ steps <> [] /\ forallb step_ok steps = true
    /\ (auth = [] \/ exists i, auth = [Node Rule.identity i []])
    /\ (stick = [] \/ stick = [Node Rule.sticky_tag "sticky" []]).
Proof.
  unfold Grammar.workflow. intros H.
  apply normal_Ok in H as (t' & H & ->).
  apply seq_Ok in H as (c1 & t1 & r1 & c2 & stick & H & Hstick & -> & ->).
  apply seq_Ok in H as (c3 & t3 & r3 & c4 & auth & H & Hauth & -> & ->).
  apply seq_Ok in H as (c5 & t5 & r5 & c6 & t6 & H & Hclose & -> & ->).
  apply seq_Ok in H as (c7 & t7 & r7 & c8 & steps & H & Hsteps & -> & ->).
  apply seq_Ok in H as (c9 & t9 & r9 & c10 & t10 & H & Hopen & -> & ->).
  apply seq_Ok in H as (c11 & t11 & r11 & cv & tv & H & Hv & -> & ->).
  apply seq_Ok in H as (c13 & t13 & r13 & cn & tn & Hkw & Hn & -> & ->).
  apply lit_Ok in Hkw as (_ & -> & _). apply lit_Ok in Hopen as (_ & -> & _).
  apply lit_Ok in Hclose as (_ & -> & _).
  apply identifier_Ok in Hn as ->.
  pose proof (version_pair_Ok _ _ _ _ Hv) as ->.
  apply steps_Ok in Hsteps as [Hne Hall].
  exists cn, (after_skip NonAtomic r11), cv, r9, steps, auth, stick.
  split; [|split; [exact Hv|split; [exact Hne|split; [exact Hall|split]]]].
  - simpl. now rewrite !app_nil_r, <- !app_assoc.
  - apply opt_Ok in Hauth as [Hauth|(_ & _ & -> & _)]; [|now left].
    right. eapply author_tag_Ok; eauto.
  - apply opt_Ok in Hstick as [Hstick|(_ & _ & -> & _)]; [|now left].
    right. eapply sticky_tag_Ok; eauto.
Qed.

Lemma parse_Ok src ps :
  parse src = Some (inl ps) ->
  exists c r,
    run (Grammar.workflow (S (String.length src))) NonAtomic (chars src)
    = Ok c ps r.
Proof.
  unfold parse, parse_with, run.
  destruct (Grammar.workflow (S (String.length src)) NonAtomic (chars src))
    as [[c t r| |] [[n e]|]]; simpl; try discriminate;
    intros H; injection H as <-; eauto.
Qed.

Lemma step_ok_rule p : step_ok p = true -> pair_rule p = Rule.step.
Proof.
  destruct p as [r s i]. destruct r; simpl; try discriminate. reflexivity.
Qed.

Lemma with_rule_all r ps :
  Forall (fun p => pair_rule p = r) ps -> with_rule r ps = ps.
Proof.
  unfold with_rule.
  induction 1 as [|p ps Hp _ IH]; simpl; [reflexivity|].
  rewrite Hp. replace (Rule.eqb r r) with true by (destruct r; reflexivity).
  now rewrite IH.
Qed.

Lemma with_rule_none r ps :
  Forall (fun p => Rule.eqb (pair_rule p) r = false) ps -> with_rule r ps = [].
Proof.
  unfold with_rule.
  induction 1 as [|p ps Hp _ IH]; simpl; [reflexivity|].
  rewrite Hp. exact IH.
Qed.

Lemma with_rule_app r ps qs :
  with_rule r (ps ++ qs) = with_rule r ps ++ with_rule r qs.
Proof. apply filter_app. Qed.

Lemma step_ok_all steps :
  forallb step_ok steps = true ->
  Forall (fun p => pair_rule p = Rule.step) steps.
Proof.
  rewrite forallb_forall, Forall_forall.
  intros H p Hp. apply step_ok_rule, H, Hp.
Qed.

Lemma step_ok_inv p :
  step_ok p = true ->
  exists txt nm btxt st sts,
    p = Node Rule.step txt
          [Node Rule.identifier nm []; Node Rule.step_body btxt (st :: sts)]
    /\ forallb is_statement (st :: sts) = true.
Proof.
  unfold step_ok.
  repeat match goal with
         | |- context [match ?x with _ => _ end] =>
             destruct x; try discriminate
         end.
  intros H. repeat eexists. exact H.
Qed.

Lemma step_ok_statements st :
  step_ok st = true ->
  step_statements st <> []
  /\ forallb is_statement (step_statements st) = true.
Proof.
  intros H. apply step_ok_inv in H as (txt & nm & btxt & s & ss & -> & H).
  unfold step_statements. cbn -[forallb is_statement].
  rewrite ?app_nil_r. split; [discriminate|exact H].
Qed.

Lemma workflow_steps cn cv steps auth stick txt :
  forallb step_ok steps = true ->
  (auth = [] \/ exists i, auth = [Node Rule.identity i []]) ->
  (stick = [] \/ stick = [Node Rule.sticky_tag "sticky" []]) ->
  wf_steps (Node Rule.workflow txt
              (Node Rule.identifier cn []
                 :: Node Rule.version cv [] :: steps ++ auth ++ stick))
  = steps.
Proof.
  intros Hs Ha Hk. unfold wf_steps. cbn [into_inner].
  change (with_rule Rule.step (steps ++ auth ++ stick) = steps).
  rewrite !with_rule_app, (with_rule_all _ _ (step_ok_all _ Hs)).
  destruct Ha as [Ha|[i Ha]], Hk as [Hk|Hk]; subst auth stick; cbn;
    now rewrite app_nil_r.
Qed.

(** C6. Every workflow that parse returns has one step or more, and every
    step has one statement or more.  Where a closing brace stands in the
    place of the first step or of the first statement, the rule fails, so a
    body of no steps and a step of no statements are rejected. *)
Theorem workflow_has_steps_and_statements :
  (forall src ps,
      parse src = Some (inl ps) ->
      exists w,
        ps = [w] /\ pair_rule w = Rule.workflow /\ wf_steps w <> []
        /\ forall st, In st (wf_steps w) ->
                      pair_rule st = Rule.step
                      /\ step_statements st <> []
                      /\ forallb is_statement (step_statements st) = true)
  /\ (forall f rest,
         run (plus (Grammar.step f)) NonAtomic ("}"%char :: rest) = Err)
  /\ (forall f rest,
         run (Grammar.step_body (S (S f))) NonAtomic ("}"%char :: rest) = Err)
  /\ (exists e1 e2,
         parse "workflow w v1 { }" = Some (inr e1)
         /\ parse "workflow w v1 { step s { } }" = Some (inr e2)).
Proof.
  split; [|split; [|split]].
  - intros src ps H.
    apply parse_Ok in H as (c & r & H).
    apply workflow_Ok in H
      as (cn & sv & cv & rv & steps & auth & stick & -> & _ & Hne & Hall
          & Ha & Hk).
    eexists; split; [reflexivity|]. split; [reflexivity|].
    rewrite (workflow_steps _ _ _ _ _ _ Hall Ha Hk).
    split; [exact Hne|].
    intros st Hst.
    rewrite forallb_forall in Hall. specialize (Hall st Hst).
    split; [now apply step_ok_rule|now apply step_ok_statements].
  - intros f rest. unfold Grammar.step. repeat run_step. reflexivity.
  - intros f rest. rewrite step_body_S, condition_S, for_loop_S.
    unfold Grammar.register_operation, Grammar.register, Grammar.action,
      Grammar.external_fn_call, Grammar.command.
    repeat run_step. reflexivity.
  - do 2 eexists. split; vm_compute; reflexivity.
Qed.

Lemma workflow_has_steps_and_statements_witness :
  exists w,
    [Node Rule.workflow "workflow w v1{step s{a()}}"
       [Node Rule.identifier "w" []; Node Rule.version "v1" [];
        Node Rule.step "step s{a()}"
          [Node Rule.identifier "s" [];
           Node Rule.step_body "a()"
             [Node Rule.action "a()"
                [Node Rule.command "a" [Node Rule.identifier "a" []]]]]]]
    = [w] /\ wf_steps w <> [].
Proof.
  destruct (proj1 workflow_has_steps_and_statements
              "workflow w v1{step s{a()}}"%string _ eq_refl)
    as (w & E & _ & H & _).
  exists w. split; assumption.
Defined.

(** ** The order of the parts of a workflow *)

Lemma text_app c r : text (c ++ r) = (text c ++ text r)%string.
Proof. induction c as [|x c IH]; simpl; [reflexivity|now rewrite IH]. Qed.

Lemma text_chars src : text (chars src) = src.
Proof. apply string_of_list_ascii_of_string. Qed.

Lemma chars_text c : chars (text c) = c.
Proof. apply list_ascii_of_string_of_list_ascii. Qed.

Lemma map_rule_steps steps :
  forallb step_ok steps = true ->
  map pair_rule steps = List.repeat Rule.step (length steps).
Proof.
  induction steps as [|p steps IH]; simpl; [reflexivity|].
  intros H. apply andb_true_iff in H as [Hp H].
  now rewrite (step_ok_rule _ Hp), IH.
Qed.

Lemma workflow_keyword f s c t r :
  run (Grammar.workflow f) NonAtomic s = Ok c t r ->
  exists c', c = chars "workflow" ++ c'.
Proof.
  unfold Grammar.workflow. intros H.
  apply normal_Ok in H as (t' & H & _).
  do 7 (apply seq_Ok in H as (? & ? & ? & ? & ? & H & _ & ? & _); subst).
  apply lit_Ok in H as (-> & _ & _).
  rewrite <- !app_assoc. eexists; reflexivity.
Qed.

(** C3, as the grammar has it.  When parse accepts a source, the workflow
    rule has matched a prefix of the source that starts with the keyword,
    and the pairs inside the workflow pair are, in this order: the
    identifier, the version, one step or more, then the identity of an
    author tag if there is one, then the sticky tag if there is one.  What
    follows the match is not part of the result. *)
Theorem workflow_parts_in_order :
  forall src ps,
    parse src = Some (inl ps) ->
    exists w n tail rest,
      ps = [w] /\ pair_rule w = Rule.workflow
      /\ map pair_rule (into_inner w)
         = Rule.identifier :: Rule.version
             :: List.repeat Rule.step (S n) ++ tail
      /\ (tail = [] \/ tail = [Rule.identity] \/ tail = [Rule.sticky_tag]
          \/ tail = [Rule.identity; Rule.sticky_tag])
      /\ src = (as_str w ++ rest)%string
      /\ exists more, as_str w = ("workflow" ++ more)%string.
Proof.
  intros src ps H.
  apply parse_Ok in H as (c & r & H).
  pose proof (consumes_workflow _ _ _ _ _ _ H) as [Hsrc _].
  pose proof (workflow_keyword _ _ _ _ _ H) as [c' Hc].
  apply workflow_Ok in H
    as (cn & sv & cv & rv & steps & auth & stick & -> & _ & Hne & Hall
        & Ha & Hk).
  destruct steps as [|st steps]; [contradiction|].
  eexists; exists (length steps), (map pair_rule (auth ++ stick)), (text r).
  split; [reflexivity|split; [reflexivity|split; [|split; [|split]]]].
  - cbn [into_inner map pair_rule]. rewrite !map_app.
    rewrite (map_rule_steps _ Hall). reflexivity.
  - destruct Ha as [Ha|[i Ha]], Hk as [Hk|Hk]; subst auth stick; cbn; auto.
  - cbn [as_str]. rewrite <- text_app, <- Hsrc. symmetry; apply text_chars.
  - cbn [as_str]. rewrite Hc. exists (text c'). apply text_app.
Qed.

Lemma workflow_parts_in_order_witness :
  exists w rest,
    parse "workflow w v1{step s{a()}}@@bob sticky!" = Some (inl [w])
    /\ map pair_rule (into_inner w)
       = [Rule.identifier; Rule.version; Rule.step; Rule.identity;
          Rule.sticky_tag]
    /\ "workflow w v1{step s{a()}}@@bob sticky!"%string
       = (as_str w ++ rest)%string.
Proof.
  destruct (workflow_parts_in_order
              "workflow w v1{step s{a()}}@@bob sticky!" _ eq_refl)
    as (w & n & tail & rest & E & _ & _ & _ & Hsrc & _).
  injection E as <-.
  eexists; exists rest. split; [reflexivity|]. split; [reflexivity|exact Hsrc].
Defined.

(** C3 as stated fails: a source in which the sticky marker comes before an
    author tag is accepted.  The match ends after the marker; the author
    tag that follows is not read. *)
Lemma sticky_before_author_is_accepted :
  parse "workflow w v1{step s{a()}} sticky @@bob"
  = Some (inl [Node Rule.workflow "workflow w v1{step s{a()}} sticky"
                 [Node Rule.identifier "w" []; Node Rule.version "v1" [];
                  Node Rule.step "step s{a()}"
                    [Node Rule.identifier "s" [];
                     Node Rule.step_body "a()"
                       [Node Rule.action "a()"
                          [Node Rule.command "a"
                             [Node Rule.identifier "a" []]]]];
                  Node Rule.sticky_tag "sticky" []]]).
Proof. vm_compute. reflexivity. Qed.

(** ** The version *)

Lemma strip_ws_app a b : strip_ws (a ++ b) = strip_ws a ++ strip_ws b.
Proof. apply filter_app. Qed.

Lemma strip_ws_skipped a s : strip_ws (skipped a s) = [].
Proof.
  destruct a; [reflexivity|]. simpl.
  induction s as [|c s IH]; simpl; [reflexivity|].
  destruct (is_ws c) eqn:E; simpl; [|reflexivity]. now rewrite E.
Qed.

Lemma digit_not_ws c : is_digit c = true -> is_ws c = false.
Proof.
  intros H. apply ident_char_not_ws. unfold is_ident_char, is_alnum.
  now rewrite H.
Qed.

Lemma digit_not_dot c : is_digit c = true -> Ascii.eqb "." c = false.
Proof.
  destruct (Ascii.eqb "." c) eqn:E; [|reflexivity].
  apply Ascii.eqb_eq in E; subst c. vm_compute. discriminate.
Qed.

Lemma digit_groups_digits d r b :
  d <> [] -> Forall (fun c => is_digit c = true) d ->
  digit_groups b (d ++ r) = digit_groups true r.
Proof.
  intros Hd Hall. revert b.
  induction Hall as [|c d Hc Hall IH]; [contradiction|].
  intros b. simpl. rewrite Hc.
  destruct d as [|c' d]; [reflexivity|].
  apply IH. discriminate.
Qed.

Lemma digit_groups_dot_groups g : dot_groups g -> digit_groups true g = true.
Proof.
  induction 1 as [|d g Hd Hall _ IH]; [reflexivity|].
  simpl. now rewrite (digit_groups_digits d g false Hd Hall).
Qed.

Lemma one_digit_Ok a s c t r :
  run ASCII_DIGIT a s = Ok c t r ->
  exists x, c = [x] /\ is_digit x = true /\ t = [].
Proof.
  rewrite run_ASCII_DIGIT. unfold class_step.
  destruct s as [|x s]; [discriminate|].
  destruct (is_digit x) eqn:E; [|discriminate].
  intros H; injection H as <- <- <-. eauto.
Qed.

(** Digits with whitespace between them: without the whitespace, one digit
    or more. *)
Lemma digits_Ok s c t r :
  run (plus ASCII_DIGIT) NonAtomic s = Ok c t r ->
  strip_ws c <> [] /\ Forall (fun x => is_digit x = true) (strip_ws c).
Proof.
  intros H.
  apply seq_Ok in H as (c1 & t1 & r1 & c2 & t2 & H1 & H2 & -> & ->).
  apply one_digit_Ok in H1 as (x & -> & Hx & _).
  assert (Forall (fun x => is_digit x = true) (strip_ws c2)) as Hc2.
  { revert H2.
    apply (star_Ok (fun c _ => Forall (fun x => is_digit x = true)
                                 (strip_ws c))).
    - constructor.
    - intros s0 c0 t0 r0 c3 t3 H0 H3.
      apply one_digit_Ok in H0 as (y & -> & Hy & _).
      rewrite !strip_ws_app, strip_ws_skipped. simpl.
      rewrite (digit_not_ws _ Hy). simpl. now constructor.
    - intros s0 c0 t0 r0 H0.
      apply one_digit_Ok in H0 as (y & -> & Hy & _).
      simpl. rewrite (digit_not_ws _ Hy). simpl. now repeat constructor. }
  rewrite !strip_ws_app, strip_ws_skipped. simpl.
  rewrite (digit_not_ws _ Hx). simpl.
  split; [discriminate|now constructor].
Qed.

Lemma dot_digits_Ok s c t r :
  run (seq (lit ".") (plus ASCII_DIGIT)) NonAtomic s = Ok c t r ->
  exists d, strip_ws c = "."%char :: d /\ d <> []
            /\ Forall (fun x => is_digit x = true) d.
Proof.
  intros H.
  apply seq_Ok in H as (c1 & t1 & r1 & c2 & t2 & H1 & H2 & -> & ->).
  apply lit_Ok in H1 as (-> & _ & _).
  apply digits_Ok in H2 as [Hne Hall].
  exists (strip_ws c2).
  rewrite !strip_ws_app, strip_ws_skipped. auto.
Qed.

(** The text of a version, without its whitespace, has the form of a
    version. *)
Lemma version_Ok s c t r :
  run Grammar.version NonAtomic s = Ok c t r ->
  version_shape (strip_ws c) = true.
Proof.
  unfold Grammar.version. intros H.
  apply normal_Ok in H as (t' & H & _).
  apply seq_Ok in H as (c1 & t1 & r1 & c2 & t2 & H & H3 & -> & _).
  apply seq_Ok in H as (c3 & t3 & r3 & c4 & t4 & H1 & H2 & -> & _).
  apply lit_Ok in H1 as (-> & _ & _).
  apply digits_Ok in H2 as [Hne Hall].
  assert (dot_groups (strip_ws c2)) as Hg.
  { revert H3. apply (star_Ok (fun c _ => dot_groups (strip_ws c))).
    - constructor.
    - intros s0 c0 t0 r0 c5 t5 H0 H5.
      apply dot_digits_Ok in H0 as (d & E & Hd & Hdall).
      rewrite !strip_ws_app, strip_ws_skipped, E. simpl.
      now constructor.
    - intros s0 c0 t0 r0 H0.
      apply dot_digits_Ok in H0 as (d & -> & Hd & Hdall).
      rewrite <- (app_nil_r d). constructor; auto. constructor. }
  rewrite !strip_ws_app, !strip_ws_skipped. simpl.
  rewrite (digit_groups_digits _ _ false Hne Hall).
  now apply digit_groups_dot_groups.
Qed.

(** C1, as the grammar has it.  The version of every workflow that parse
    returns is the text that the version rule matched; once the whitespace
    characters are taken out of it, it has the form [v<digits>(.<digits>)*]. *)
Theorem version_shape_up_to_whitespace :
  forall src ps,
    parse src = Some (inl ps) ->
    exists w v,
      ps = [w] /\ wf_version w = Some v
      /\ version_shape (strip_ws (chars v)) = true.
Proof.
  intros src ps H.
  apply parse_Ok in H as (c & r & H).
  apply workflow_Ok in H
    as (cn & sv & cv & rv & steps & auth & stick & -> & Hv & _).
  eexists; exists (text cv).
  split; [reflexivity|split; [reflexivity|]].
  rewrite chars_text. eapply version_Ok; eauto.
Qed.

Lemma version_shape_up_to_whitespace_witness :
  exists w v,
    parse "workflow w v 1 . 20 {step s{a()}}" = Some (inl [w])
    /\ wf_version w = Some v
    /\ version_shape (strip_ws (chars v)) = true.
Proof.
  destruct (version_shape_up_to_whitespace
              "workflow w v 1 . 20 {step s{a()}}" _ eq_refl)
    as (w & v & E & Hv & Hs).
  injection E as <-.
  eexists; exists v. split; [reflexivity|]. split; assumption.
Defined.

(** C1 as stated fails: whitespace may stand inside the version, and the
    version of the workflow then holds it. *)
Lemma version_may_hold_whitespace :
  exists w,
    parse "workflow w v 1 . 2{step s{a()}}" = Some (inl [w])
    /\ wf_version w = Some "v 1 . 2"%string
    /\ version_shape (chars "v 1 . 2") = false.
Proof.
  eexists. split; [vm_compute; reflexivity|]. split; reflexivity.
Qed.

(** ** The attempts of a failed parse *)

Lemma attempts_ok_merge s l1 l2 :
  attempts_ok s l1 -> attempts_ok s l2 -> attempts_ok s (merge l1 l2).
Proof.
  destruct l1 as [[n1 e1]|], l2 as [[n2 e2]|]; simpl; auto.
  intros [H1 E1] [H2 E2].
  destruct (n2 <? n1); [now split|].
  destruct (n2 =? n1); [|now split].
  split; [exact H1|]. destruct e1; [contradiction|discriminate].
Qed.

Lemma attempts_ok_suffix c r l : attempts_ok r l -> attempts_ok (c ++ r) l.
Proof.
  destruct l as [[n e]|]; simpl; auto.
  intros [H E]. rewrite length_app. split; [lia|exact E].
Qed.

Lemma tracks_match_chars l : tracks (match_chars l).
Proof.
  intros a s. unfold match_chars. destruct (match_prefix l s); exact I.
Qed.

Lemma tracks_match_range lo hi : tracks (match_range lo hi).
Proof.
  intros a s. unfold match_range.
  destruct s as [|c r]; [exact I|]. destruct (in_range lo hi c); exact I.
Qed.

Lemma tracks_ANY : tracks ANY.
Proof. intros a s. destruct s; exact I. Qed.

Lemma tracks_and_then p q :
  tracks p -> consumes 0 p -> tracks q -> tracks (and_then p q).
Proof.
  intros Hp Hc Hq a s. unfold and_then.
  specialize (Hp a s). specialize (Hc a s). unfold run in Hc.
  destruct (p a s) as [[c1 t1 r1| |] l1]; simpl in *; try exact Hp.
  destruct (Hc _ _ _ eq_refl) as [-> _].
  specialize (Hq a r1).
  destruct (q a r1) as [[c2 t2 r2| |] l2]; simpl in *;
    apply attempts_ok_merge; auto using attempts_ok_suffix.
Qed.

Lemma tracks_or_else p q : tracks p -> tracks q -> tracks (or_else p q).
Proof.
  intros Hp Hq a s. unfold or_else.
  specialize (Hp a s). specialize (Hq a s).
  destruct (p a s) as [[c1 t1 r1| |] l1]; simpl in *; try exact Hp.
  destruct (q a s) as [res l2]; simpl in *.
  now apply attempts_ok_merge.
Qed.

Lemma tracks_optional p : tracks p -> tracks (optional p).
Proof.
  intros Hp a s. unfold optional. specialize (Hp a s).
  destruct (p a s) as [[c1 t1 r1| |] l1]; exact Hp.
Qed.

Lemma tracks_repeat_n n p : tracks p -> consumes 0 p -> tracks (repeat_n n p).
Proof.
  intros Hp Hc. induction n as [|n IH]; intros a s; simpl; [exact I|].
  specialize (Hp a s). specialize (Hc a s). unfold run in Hc.
  destruct (p a s) as [[c1 t1 r1| |] l1]; simpl in *; try exact Hp.
  destruct (Hc _ _ _ eq_refl) as [-> _].
  specialize (IH a r1).
  destruct (repeat_n n p a r1) as [[c2 t2 r2| |] l2]; simpl in *;
    apply attempts_ok_merge; auto using attempts_ok_suffix.
Qed.

Lemma tracks_repeat p : tracks p -> consumes 0 p -> tracks (repeat p).
Proof. intros Hp Hc a s. now apply tracks_repeat_n. Qed.

Lemma tracks_lookahead_not p : tracks (lookahead_not p).
Proof.
  intros a s. unfold lookahead_not. destruct (fst (p a s)); exact I.
Qed.

Lemma tracks_atomic b p : tracks p -> tracks (atomic b p).
Proof. intros Hp a s. exact (Hp b s). Qed.

Lemma attempts_ok_track r a s l : attempts_ok s l -> attempts_ok s (track r a s l).
Proof.
  intros H. unfold track. destruct a; [exact H|].
  destruct l as [[n e]|]; simpl; [|split; [lia|discriminate]].
  destruct (n <? length s); [exact H|].
  destruct (length e =? 1); [exact H|]. split; [lia|discriminate].
Qed.

Lemma tracks_rule r p : tracks p -> tracks (rule r p).
Proof.
  intros Hp a s. unfold rule. specialize (Hp a s).
  destruct (p a s) as [[c1 t1 r1| |] l1]; simpl in *; try exact Hp.
  now apply attempts_ok_track.
Qed.

Lemma tracks_skip : tracks skip.
Proof.
  intros a s. destruct a; [exact I|].
  apply tracks_repeat.
  - unfold WHITESPACE. apply tracks_atomic.
    repeat apply tracks_or_else; apply tracks_match_chars.
  - apply consumes_class with (f := is_ws); [apply run_WHITESPACE|lia].
Qed.

Lemma tracks_seq p q :
  tracks p -> consumes 0 p -> tracks q -> tracks (seq p q).
Proof.
  intros Hp Hc Hq. unfold seq.
  apply tracks_and_then; [exact Hp|exact Hc|].
  apply tracks_and_then; [apply tracks_skip|apply consumes_skip|exact Hq].
Qed.

Lemma tracks_star p : tracks p -> consumes 0 p -> tracks (star p).
Proof.
  intros Hp Hc. unfold star. apply tracks_optional.
  apply tracks_and_then; [exact Hp|exact Hc|].
  apply tracks_repeat.
  - apply tracks_and_then; [apply tracks_skip|apply consumes_skip|exact Hp].
  - change 0 with (0 + 0).
    apply consumes_and_then; [apply consumes_skip|exact Hc].
Qed.

Lemma tracks_plus p : tracks p -> consumes 0 p -> tracks (plus p).
Proof.
  intros Hp Hc. unfold plus.
  apply tracks_seq; [exact Hp|exact Hc|now apply tracks_star].
Qed.

Lemma tracks_lit l : tracks (lit l).
Proof. apply tracks_match_chars. Qed.
Lemma tracks_chr c : tracks (chr c).
Proof. apply tracks_match_chars. Qed.
Lemma tracks_opt p : tracks p -> tracks (opt p).
Proof. apply tracks_optional. Qed.
Lemma tracks_not_ p : tracks (not_ p).
Proof. apply tracks_lookahead_not. Qed.
Lemma tracks_normal r p : tracks p -> tracks (normal r p).
Proof. apply tracks_rule. Qed.
Lemma tracks_atomic_rule r p : tracks p -> tracks (atomic_rule r p).
Proof. intros Hp. apply tracks_rule, tracks_atomic, Hp. Qed.
Lemma tracks_silent p : tracks p -> tracks (silent p).
Proof. exact (fun H => H). Qed.
Lemma tracks_diverge : tracks diverge.
Proof. intros a s. exact I. Qed.

#[global] Hint Resolve tracks_match_chars tracks_match_range tracks_ANY
  tracks_or_else tracks_seq tracks_star tracks_plus tracks_lit tracks_chr
  tracks_opt tracks_not_ tracks_normal tracks_atomic_rule tracks_silent
  tracks_diverge : pest.
#[global] Hint Extern 1 (tracks ASCII_DIGIT) => apply tracks_match_range : pest.
#[global] Hint Extern 1 (tracks ASCII_ALPHANUMERIC) =>
  unfold ASCII_ALPHANUMERIC, ASCII_ALPHA, ASCII_DIGIT : pest.

Lemma tracks_recursive f :
  tracks (Grammar.step_body f) /\ tracks (Grammar.condition f)
  /\ tracks (Grammar.for_loop f).
Proof.
  induction f as [|f (IHs & IHc & IHf)].
  - split; [|split]; exact tracks_diverge.
  - rewrite step_body_S, condition_S, for_loop_S.
    unfold Grammar.register_operation, Grammar.action, Grammar.expression,
      Grammar.external_fn_call, Grammar.command, Grammar.value,
      Grammar.split_expression, Grammar.range_expression,
      Grammar.simple_expression, Grammar.param, Grammar.register,
      Grammar.comparison_operator, Grammar.delimiter, Grammar.string,
      Grammar.number, Grammar.boolean, Grammar.identifier.
    split; [|split]; auto 60 with pest.
Qed.

Lemma tracks_workflow f : tracks (Grammar.workflow f).
Proof.
  pose proof (tracks_recursive f) as (Hs & _ & _).
  unfold Grammar.workflow, Grammar.step, Grammar.author_tag,
    Grammar.sticky_tag, Grammar.version, Grammar.identity,
    Grammar.identifier.
  auto 60 with pest.
Qed.

(** ** More fuel does not change a result *)

Ltac absurd_loop :=
  exfalso; match goal with H : ?x <> ?x |- _ => apply H; reflexivity end.

Lemma refines_refl p : refines p p.
Proof. intros a s _. reflexivity. Qed.

Lemma refines_and_then p p' q q' :
  refines p p' -> refines q q' -> refines (and_then p q) (and_then p' q').
Proof.
  intros Hp Hq a s. rewrite run_and_then. unfold and_then. intros H.
  specialize (Hp a s). unfold run in *.
  destruct (p a s) as [[c1 t1 r1| |] l1] eqn:E; simpl in *;
    try (rewrite Hp by discriminate; reflexivity); [|absurd_loop].
  rewrite Hp by discriminate.
  specialize (Hq a r1). unfold run in Hq.
  destruct (q a r1) as [[c2 t2 r2| |] l2] eqn:E2; simpl in *;
    try (rewrite Hq by discriminate; reflexivity); absurd_loop.
Qed.

Lemma refines_or_else p p' q q' :
  refines p p' -> refines q q' -> refines (or_else p q) (or_else p' q').
Proof.
  intros Hp Hq a s. rewrite run_or_else. unfold or_else. intros H.
  specialize (Hp a s). specialize (Hq a s). unfold run in *.
  destruct (p a s) as [[c1 t1 r1| |] l1] eqn:E; simpl in *;
    try (rewrite Hp by discriminate; reflexivity); [|absurd_loop].
  rewrite Hp by discriminate. now rewrite Hq.
Qed.

Lemma refines_optional p p' : refines p p' -> refines (optional p) (optional p').
Proof.
  intros Hp a s. rewrite run_optional. unfold optional. intros H.
  specialize (Hp a s). unfold run in *.
  destruct (p a s) as [[c1 t1 r1| |] l1] eqn:E; simpl in *;
    try (rewrite Hp by discriminate; reflexivity); absurd_loop.
Qed.

Lemma refines_repeat_n n p p' :
  refines p p' -> refines (repeat_n n p) (repeat_n n p').
Proof.
  intros Hp. induction n as [|n IH]; intros a s; [reflexivity|].
  rewrite run_repeat_n. simpl. intros H.
  specialize (Hp a s). unfold run in *.
  destruct (p a s) as [[c1 t1 r1| |] l1] eqn:E; simpl in *;
    try (rewrite Hp by discriminate; reflexivity); [|absurd_loop].
  rewrite Hp by discriminate.
  specialize (IH a r1). unfold run in IH.
  destruct (repeat_n n p a r1) as [[c2 t2 r2| |] l2] eqn:E2; simpl in *;
    try (rewrite IH by discriminate; reflexivity); absurd_loop.
Qed.

Lemma refines_repeat p p' : refines p p' -> refines (repeat p) (repeat p').
Proof. intros Hp a s. now apply refines_repeat_n. Qed.

Lemma refines_rule r p p' : refines p p' -> refines (rule r p) (rule r p').
Proof.
  intros Hp a s. rewrite run_rule. unfold rule. intros H.
  specialize (Hp a s). unfold run in *.
  destruct (p a s) as [[c1 t1 r1| |] l1] eqn:E; simpl in *;
    try (rewrite Hp by discriminate; reflexivity); absurd_loop.
Qed.

Lemma refines_seq p p' q q' :
  refines p p' -> refines q q' -> refines (seq p q) (seq p' q').
Proof.
  intros Hp Hq. unfold seq.
  apply refines_and_then; [exact Hp|].
  apply refines_and_then; [apply refines_refl|exact Hq].
Qed.

Lemma refines_star p p' : refines p p' -> refines (star p) (star p').
Proof.
  intros Hp. unfold star. apply refines_optional.
  apply refines_and_then; [exact Hp|].
  apply refines_repeat. apply refines_and_then; [apply refines_refl|exact Hp].
Qed.

Lemma refines_plus p p' : refines p p' -> refines (plus p) (plus p').
Proof.
  intros Hp. unfold plus.
  apply refines_seq; [exact Hp|now apply refines_star].
Qed.

Lemma refines_normal r p p' : refines p p' -> refines (normal r p) (normal r p').
Proof. apply refines_rule. Qed.

#[global] Hint Resolve refines_refl refines_seq refines_or_else refines_plus
  refines_normal : pest.

Lemma refines_recursive f :
  refines (Grammar.step_body f) (Grammar.step_body (S f))
  /\ refines (Grammar.condition f) (Grammar.condition (S f))
  /\ refines (Grammar.for_loop f) (Grammar.for_loop (S f)).
Proof.
  induction f as [|f (IHs & IHc & IHf)].
  - split; [|split]; intros a s H; now contradiction H.
  - rewrite !step_body_S, !condition_S, !for_loop_S.
    split; [|split]; auto 30 with pest.
Qed.

Lemma refines_trans p q r : 
  (forall a s, run p a s <> Loop -> run q a s <> Loop) ->
  refines p q -> refines q r -> refines p r.
Proof.
  intros Hl Hpq Hqr a s H.
  rewrite <- (Hpq a s H). apply Hqr. now apply Hl.
Qed.

Lemma refines_returns p q a s : refines p q -> run p a s <> Loop -> run q a s <> Loop.
Proof. intros H Hp. unfold run. rewrite (H a s Hp). exact Hp. Qed.

Lemma refines_workflow_S f :
  refines (Grammar.workflow f) (Grammar.workflow (S f)).
Proof.
  pose proof (refines_recursive f) as (Hs & _ & _).
  unfold Grammar.workflow, Grammar.step. auto 30 with pest.
Qed.

Lemma refines_workflow f k :
  refines (Grammar.workflow f) (Grammar.workflow (k + f)).
Proof.
  induction k as [|k IH]; [apply refines_refl|].
  apply refines_trans with (q := Grammar.workflow (k + f)).
  - intros a s. now apply refines_returns.
  - exact IH.
  - apply refines_workflow_S.
Qed.

(** A match at any depth of the recursion is the match that parse finds. *)
Lemma workflow_parse src ps :
  (exists f c r,
      run (Grammar.workflow f) NonAtomic (chars src) = Ok c ps r) ->
  parse src = Some (inl ps).
Proof.
  intros (f & c & r & H).
  pose proof (returns_workflow (String.length src) NonAtomic (chars src)) as T.
  rewrite length_chars in T. specialize (T (le_n _)).
  assert (E : Grammar.workflow (S (String.length src)) NonAtomic (chars src)
              = Grammar.workflow f NonAtomic (chars src)).
  { destruct (Nat.le_gt_cases f (S (String.length src))) as [L|L].
    - replace (S (String.length src))
        with ((S (String.length src) - f) + f) by lia.
      apply refines_workflow. rewrite H. discriminate.
    - symmetry.
      replace f with ((f - S (String.length src)) + S (String.length src))
        by lia.
      apply refines_workflow. exact T. }
  unfold parse, parse_with. rewrite E. unfold run in H.
  destruct (Grammar.workflow f NonAtomic (chars src)) as [res l].
  simpl in H. subst res. reflexivity.
Qed.

(** ** parse: two outcomes *)

Lemma rule_Err_attempts r p s :
  tracks p -> run (rule r p) NonAtomic s = Err ->
  exists n e,
    snd (rule r p NonAtomic s) = Some (n, e) /\ n <= length s /\ e <> [].
Proof.
  intros Hp. unfold run, rule. specialize (Hp NonAtomic s).
  destruct (p NonAtomic s) as [[c1 t1 r1| |] l1]; simpl in *;
    try discriminate.
  intros _.
  destruct l1 as [[n e]|]; simpl in *.
  - destruct Hp as [Hn He].
    destruct (n <? length s); [eauto|].
    destruct (length e =? 1); [eauto|].
    exists (length s), [r]. repeat split; [lia|discriminate].
  - exists (length s), [r]. repeat split; [lia|discriminate].
Qed.

Lemma workflow_Err_attempts f s :
  run (Grammar.workflow f) NonAtomic s = Err ->
  exists n e,
    snd (Grammar.workflow f NonAtomic s) = Some (n, e)
    /\ n <= length s /\ e <> [].
Proof.
  pose proof (tracks_recursive f) as (Hs & _ & _).
  unfold Grammar.workflow, normal. apply rule_Err_attempts.
  unfold Grammar.step, Grammar.author_tag, Grammar.sticky_tag,
    Grammar.version, Grammar.identity, Grammar.identifier.
  auto 60 with pest.
Qed.

(** ** What a rule matches is derived by it *)

Create HintDb lang.

Lemma sound_lit l : sound (Lang.str l) (lit l).
Proof. intros s c t r H. now apply lit_Ok in H as (-> & _). Qed.

Lemma sound_class f p :
  (forall s, run p NonAtomic s = class_step f s) -> sound (Lang.one f) p.
Proof.
  intros Hp s c t r. rewrite Hp. unfold class_step.
  destruct s as [|x s]; [discriminate|].
  destruct (f x) eqn:E; [|discriminate].
  intros H; injection H as <- _ _. exists x. auto.
Qed.

Lemma sound_chr x : sound (Lang.one (Ascii.eqb x)) (chr x).
Proof. apply sound_class. intros; apply run_chr. Qed.

Lemma sound_digit : sound Lang.digit ASCII_DIGIT.
Proof. apply sound_class. intros; apply run_ASCII_DIGIT. Qed.

Lemma ws_skipped s : Lang.ws (skipped NonAtomic s).
Proof. apply take_while_all. Qed.

Lemma sound_seq A B p q :
  sound A p -> sound B q -> sound (Lang.seq A B) (seq p q).
Proof.
  intros Hp Hq s c t r H.
  apply seq_Ok in H as (c1 & t1 & r1 & c2 & t2 & H1 & H2 & -> & _).
  exists c1, (skipped NonAtomic r1 ++ c2). split; [reflexivity|].
  split; [eapply Hp; eauto|].
  exists (skipped NonAtomic r1), c2. split; [reflexivity|].
  split; [apply ws_skipped|eapply Hq; eauto].
Qed.

Lemma sound_or_else A B p q :
  sound A p -> sound B q -> sound (Lang.alt A B) (or_else p q).
Proof.
  intros Hp Hq s c t r H.
  apply or_else_Ok in H as [H|[_ H]]; [left; eapply Hp|right; eapply Hq];
    eauto.
Qed.

Lemma sound_opt A p : sound A p -> sound (Lang.opt A) (opt p).
Proof.
  intros Hp s c t r H.
  apply opt_Ok in H as [H|(_ & -> & _)]; [right; eapply Hp; eauto|now left].
Qed.

Lemma take_while_drop_while f s : take_while f (drop_while f s) = [].
Proof.
  destruct (drop_while f s) as [|x r] eqn:D; [reflexivity|].
  apply drop_while_head in D. now apply take_while_stop.
Qed.

(** A repetition, whose elements start after the whitespace that was
    skipped. *)
Lemma sound_star_at A p :
  (forall s c t r,
      take_while is_ws s = [] -> run p NonAtomic s = Ok c t r -> A c) ->
  forall s c t r,
    take_while is_ws s = [] ->
    run (star p) NonAtomic s = Ok c t r -> Lang.star A c.
Proof.
  intros Hp s c t r Hs. rewrite run_star.
  destruct (run p NonAtomic s) as [c1 t1 r1| |] eqn:E1; try discriminate.
  - destruct (run (repeat (and_then skip p)) NonAtomic r1)
      as [c2 t2 r2| |] eqn:Hr; try discriminate.
    + intros H; injection H as <- _ _.
      revert Hr. unfold repeat.
      change (run (repeat_n (S (length r1)) (and_then skip p)) NonAtomic r1
              = Ok c2 t2 r2 -> Lang.star A (c1 ++ c2)).
      generalize (S (length r1)) as n. intros n.
      apply Hp in E1; [|exact Hs]. clear Hs s t1.
      revert c1 r1 E1 c2 t2 r2.
      induction n as [|n IH]; intros c1 r1 E1 c2 t2 r2.
      * discriminate.
      * rewrite run_repeat_n, run_and_then, run_skip.
        destruct (run p NonAtomic (after_skip NonAtomic r1))
          as [c3 t3 r3| |] eqn:E3.
        -- destruct (run (repeat_n n (and_then skip p)) NonAtomic r3)
             as [c4 t4 r4| |] eqn:E4; try discriminate.
           intros H; injection H as <- _ _.
           rewrite <- app_assoc.
           apply Lang.many_cons; [exact E1|apply ws_skipped|].
           eapply IH; [|exact E4].
           eapply Hp; [|exact E3]. apply take_while_drop_while.
        -- intros H; injection H as <- _ _.
           change (Lang.many true A (c1 ++ [] ++ [])).
           apply Lang.many_cons; [exact E1|constructor|constructor].
        -- discriminate.
    + intros H; injection H as <- _ _. constructor.
  - intros H; injection H as <- _ _. constructor.
Qed.

Lemma sound_star A p : sound A p -> sound (Lang.star A) (star p).
Proof.
  intros Hp s c t r. apply (star_Ok (fun c _ => Lang.star A c)).
  - constructor.
  - intros s0 c1 t1 r1 c2 t2 H1 H2.
    apply Lang.many_cons; [eapply Hp; eauto|apply ws_skipped|exact H2].
  - intros s0 c1 t1 r1 H1. rewrite <- (app_nil_r c1).
    change (Lang.many true A (c1 ++ [] ++ [])).
    apply Lang.many_cons; [eapply Hp; eauto|constructor|constructor].
Qed.

Lemma sound_plus A p : sound A p -> sound (Lang.plus A) (plus p).
Proof. intros Hp. apply sound_seq; [exact Hp|now apply sound_star]. Qed.

Lemma sound_normal L r p : sound L p -> sound L (normal r p).
Proof.
  intros Hp s c t rest H. apply normal_Ok in H as (t' & H & _).
  eapply Hp; eauto.
Qed.

Lemma sound_silent L p : sound L p -> sound L (silent p).
Proof. exact (fun H => H). Qed.

Lemma sound_diverge L : sound L diverge.
Proof. intros s c t r H; discriminate. Qed.


Lemma many_class f l :
  Forall (fun x => f x = true) l -> Lang.atomic_star (Lang.one f) l.
Proof.
  induction 1 as [|x l Hx _ IH]; [constructor|].
  change (Lang.many false (Lang.one f) ([x] ++ [] ++ l)).
  apply Lang.many_cons; [exists x; auto|reflexivity|exact IH].
Qed.

Lemma sound_identifier : sound Lang.identifier Grammar.identifier.
Proof.
  intros s c t r. rewrite run_identifier.
  pose proof (take_while_all is_ident_char s) as A.
  destruct (take_while is_ident_char s) as [|x l]; [discriminate|].
  intros H; injection H as <- _ _. inversion A as [|? ? Hx Hl]; subst.
  exists [x], l. split; [reflexivity|]. split; [exists x; auto|].
  now apply many_class.
Qed.

Lemma sound_identity : sound Lang.identity Grammar.identity.
Proof.
  intros s c t r. rewrite run_identity.
  intros H; injection H as <- _ _. apply many_class, take_while_all.
Qed.

Lemma sound_sticky_tag : sound Lang.sticky_tag Grammar.sticky_tag.
Proof.
  intros s c t r. rewrite run_sticky_tag.
  destruct (match_prefix (chars "sticky") s); [|discriminate].
  intros H; injection H as <- _ _. reflexivity.
Qed.

(** One character of the body of a literal, read where no whitespace is
    left to skip. *)
Lemma not_quote_Ok s c t r :
  take_while is_ws s = [] ->
  run (seq (not_ (chr QUOTE)) ANY) NonAtomic s = Ok c t r ->
  Lang.not_quote c.
Proof.
  intros Hs H.
  apply seq_Ok in H as (c1 & t1 & r1 & c2 & t2 & H1 & H2 & -> & _).
  rewrite run_not_, run_chr in H1. unfold class_step in H1.
  destruct s as [|x s]; [injection H1 as <- _ <-; discriminate H2|].
  destruct (Ascii.eqb QUOTE x) eqn:Q; [discriminate|].
  injection H1 as <- _ <-.
  cbn [skipped after_skip] in *. rewrite Hs. rewrite (drop_while_id _ _ Hs) in H2.
  rewrite run_ANY in H2. injection H2 as <- _ _.
  exists x. now rewrite Q.
Qed.

Lemma sound_delimiter : sound Lang.delimiter Grammar.delimiter.
Proof.
  unfold Grammar.delimiter. apply sound_normal. intros s c t r H.
  apply seq_Ok in H as (c1 & t1 & r1 & c2 & t2 & H & H3 & -> & _).
  apply seq_Ok in H as (c3 & t3 & r3 & c4 & t4 & H1 & H2 & -> & _).
  exists (c3 ++ skipped NonAtomic r3 ++ c4), (skipped NonAtomic r1 ++ c2).
  split; [reflexivity|]. split.
  - exists c3, (skipped NonAtomic r3 ++ c4). split; [reflexivity|].
    split; [eapply sound_chr; eauto|].
    exists (skipped NonAtomic r3), c4. split; [reflexivity|].
    split; [apply ws_skipped|].
    eapply (sound_star_at Lang.not_quote); [|apply take_while_drop_while|
                                             exact H2].
    apply not_quote_Ok.
  - exists (skipped NonAtomic r1), c2. split; [reflexivity|].
    split; [apply ws_skipped|eapply sound_chr; eauto].
Qed.

Lemma sound_string : sound Lang.string Grammar.string.
Proof.
  unfold Grammar.string. apply sound_silent. intros s c t r H.
  apply seq_Ok in H as (c1 & t1 & r1 & c2 & t2 & H & H3 & -> & _).
  apply seq_Ok in H as (c3 & t3 & r3 & c4 & t4 & H1 & H2 & -> & _).
  exists (c3 ++ skipped NonAtomic r3 ++ c4), (skipped NonAtomic r1 ++ c2).
  split; [reflexivity|]. split.
  - exists c3, (skipped NonAtomic r3 ++ c4). split; [reflexivity|].
    split; [eapply sound_chr; eauto|].
    exists (skipped NonAtomic r3), c4. split; [reflexivity|].
    split; [apply ws_skipped|].
    eapply (sound_star_at
              (Lang.alt (fun c => c = [BACKSLASH; QUOTE]) Lang.not_quote));
      [|apply take_while_drop_while|exact H2].
    intros s0 c0 t0 r0 Hs H0.
    apply or_else_Ok in H0 as [H0|[_ H0]].
    + left. rewrite run_match_chars in H0.
      destruct (match_prefix [BACKSLASH; QUOTE] s0); [|discriminate].
      now injection H0 as <- _ _.
    + right. eapply not_quote_Ok; eauto.
  - exists (skipped NonAtomic r1), c2. split; [reflexivity|].
    split; [apply ws_skipped|eapply sound_chr; eauto].
Qed.

#[global] Hint Resolve sound_lit sound_digit sound_seq sound_or_else
  sound_opt sound_star sound_plus sound_normal sound_silent sound_diverge
  sound_identifier sound_identity sound_sticky_tag sound_delimiter
  sound_string : lang.

Lemma sound_number :
  sound Lang.number Grammar.number.
Proof. unfold Lang.number, Grammar.number; auto 30 with lang. Qed.
Lemma sound_boolean :
  sound Lang.boolean Grammar.boolean.
Proof. unfold Lang.boolean, Grammar.boolean; auto 30 with lang. Qed.
Lemma sound_author_tag :
  sound Lang.author_tag Grammar.author_tag.
Proof. unfold Lang.author_tag, Grammar.author_tag; auto 30 with lang. Qed.
Lemma sound_version :
  sound Lang.version Grammar.version.
Proof. unfold Lang.version, Grammar.version; auto 30 with lang. Qed.
Lemma sound_register :
  sound Lang.register Grammar.register.
Proof. unfold Lang.register, Grammar.register; auto 30 with lang. Qed.

#[global] Hint Resolve sound_number sound_boolean sound_author_tag
  sound_version sound_register : lang.

Lemma sound_split_expression :
  sound Lang.split_expression Grammar.split_expression.
Proof. unfold Lang.split_expression, Grammar.split_expression; auto 30 with lang. Qed.
Lemma sound_value :
  sound Lang.value Grammar.value.
Proof. unfold Lang.value, Grammar.value; auto 30 with lang. Qed.
Lemma sound_comparison_operator :
  sound Lang.comparison_operator Grammar.comparison_operator.
Proof. unfold Lang.comparison_operator, Grammar.comparison_operator; auto 30 with lang. Qed.
Lemma sound_param :
  sound Lang.param Grammar.param.
Proof. unfold Lang.param, Grammar.param; auto 30 with lang. Qed.

#[global] Hint Resolve sound_split_expression sound_value
  sound_comparison_operator sound_param : lang.

Lemma sound_external_fn_call :
  sound Lang.external_fn_call Grammar.external_fn_call.
Proof. unfold Lang.external_fn_call, Grammar.external_fn_call, Lang.params; auto 30 with lang. Qed.
Lemma sound_range_expression :
  sound Lang.range_expression Grammar.range_expression.
Proof. unfold Lang.range_expression, Grammar.range_expression; auto 30 with lang. Qed.
Lemma sound_simple_expression :
  sound Lang.simple_expression Grammar.simple_expression.
Proof. unfold Lang.simple_expression, Grammar.simple_expression; auto 30 with lang. Qed.
Lemma sound_command :
  sound Lang.command Grammar.command.
Proof. unfold Lang.command, Grammar.command; auto 30 with lang. Qed.

#[global] Hint Resolve sound_external_fn_call sound_range_expression
  sound_simple_expression sound_command : lang.

Lemma sound_register_operation :
  sound Lang.register_operation Grammar.register_operation.
Proof. unfold Lang.register_operation, Grammar.register_operation; auto 30 with lang. Qed.
Lemma sound_expression :
  sound Lang.expression Grammar.expression.
Proof. unfold Lang.expression, Grammar.expression; auto 30 with lang. Qed.
Lemma sound_action :
  sound Lang.action Grammar.action.
Proof. unfold Lang.action, Grammar.action, Lang.params; auto 30 with lang. Qed.

#[global] Hint Resolve sound_register_operation sound_expression
  sound_action : lang.

Lemma sound_sub (A B : Lang.t) p :
  (forall c, A c -> B c) -> sound A p -> sound B p.
Proof. intros HAB H s c t r Hr. eapply HAB, H, Hr. Qed.

Lemma sound_recursive f :
  sound Lang.step_body (Grammar.step_body f)
  /\ sound Lang.condition (Grammar.condition f)
  /\ sound Lang.for_loop (Grammar.for_loop f).
Proof.
  induction f as [|f (IHs & IHc & IHf)].
  - split; [|split]; apply sound_diverge.
  - rewrite step_body_S, condition_S, for_loop_S.
    split; [|split].
    + eapply sound_sub; [exact Lang.step_body_intro|]. auto 30 with lang.
    + eapply sound_sub; [exact Lang.condition_intro|]. auto 30 with lang.
    + eapply sound_sub; [exact Lang.for_loop_intro|]. auto 30 with lang.
Qed.

Lemma sound_step f : sound Lang.step (Grammar.step f).
Proof.
  pose proof (proj1 (sound_recursive f)) as Hb.
  unfold Lang.step, Grammar.step. auto 30 with lang.
Qed.

Lemma sound_workflow f : sound Lang.workflow (Grammar.workflow f).
Proof.
  pose proof (sound_step f) as Hs.
  unfold Lang.workflow, Grammar.workflow. auto 30 with lang.
Qed.

(** ** parse and the language of the grammar *)

(** What parse accepts starts with a text of the language of the workflow
    production: the text of the workflow pair. *)
Lemma parse_Ok_derivable src ps :
  parse src = Some (inl ps) ->
  exists c r kids,
    ps = [Node Rule.workflow (text c) kids]
    /\ chars src = c ++ r /\ Lang.workflow c.
Proof.
  intros P. apply parse_Ok in P as (c & r & H).
  pose proof (sound_workflow _ _ _ _ _ H) as L.
  pose proof (consumes_workflow _ _ _ _ _ _ H) as [E _].
  unfold Grammar.workflow in H. apply normal_Ok in H as (kids & _ & ->).
  now exists c, r, kids.
Qed.

(** No depth of the recursion gives a match where parse fails. *)
Lemma parse_Err_at_every_depth src e :
  parse src = Some (inr e) ->
  forall f c t r, run (Grammar.workflow f) NonAtomic (chars src) <> Ok c t r.
Proof.
  intros P f c t r H.
  assert (M : parse src = Some (inl t))
    by (apply workflow_parse; now exists f, c, r).
  congruence.
Qed.


(** ** Texts that the language and parse do not share *)

Lemma ws_not_bang w :
  Lang.ws w -> Forall (fun x => Ascii.eqb "!" x = false) w.
Proof.
  apply Forall_impl. intros x Hx.
  destruct (Ascii.eqb_spec "!"%char x) as [<-|]; [discriminate Hx|reflexivity].
Qed.

Lemma identity_not_bang l :
  Lang.identity l -> Forall (fun x => Ascii.eqb "!" x = false) l.
Proof.
  unfold Lang.identity, Lang.atomic_star.
  induction 1 as [|a w b (x & -> & Hx) Hw _ IH]; [constructor|].
  subst w. cbn [app]. constructor; [|exact IH].
  destruct (Ascii.eqb_spec "!"%char x) as [<-|]; [discriminate Hx|reflexivity].
Qed.

Lemma Forall_app_intro (A : Type) (P : A -> Prop) a b :
  Forall P a -> Forall P b -> Forall P (a ++ b).
Proof. intros Ha Hb. apply Forall_app. now split. Qed.

(** A derived workflow ends with its closing brace, followed by nothing but
    whitespace, an author tag and the sticky tag. *)
Lemma workflow_ends c :
  Lang.workflow c ->
  exists y tail,
    c = y ++ "}"%char :: tail
    /\ Forall (fun x => Ascii.eqb "!" x = false) tail.
Proof.
  intros (a1 & ? & -> & (a2 & ? & -> & (a3 & ? & -> & _ & w3 & b3 & -> & _ & Hb3)
                         & w2 & b2 & -> & Hw2 & Hb2)
          & w1 & b1 & -> & Hw1 & Hb1).
  red in Hb3. subst b3.
  exists (a3 ++ w3), ((w2 ++ b2) ++ w1 ++ b1).
  split; [cbn [chars list_ascii_of_string]; now rewrite <- !app_assoc|].
  repeat apply Forall_app_intro; auto using ws_not_bang.
  - destruct Hb2 as [->|Hb2]; [constructor|].
    destruct Hb2 as (? & ? & -> & (? & ? & -> & -> & w4 & ? & -> & Hw4 & ->)
                     & w5 & b5 & -> & Hw5 & Hb5).
    repeat apply Forall_app_intro;
      auto using ws_not_bang, identity_not_bang; repeat constructor.
  - destruct Hb1 as [-> | ->]; repeat constructor.
Qed.

Lemma trailing_text_is_not_derived :
  ~ derivable "workflow w v1{step s{a()}}!".
Proof.
  intros H. apply workflow_ends in H as (y & tail & E & Ht).
  apply (f_equal (@rev ascii)) in E. rewrite rev_app_distr in E.
  cbn [rev] in E. apply Forall_rev in Ht.
  destruct (rev tail) as [|x l]; [discriminate E|].
  inversion Ht as [|? ? Hx _]; subst.
  vm_compute in E. injection E as <-. discriminate Hx.
Qed.

Lemma derive_seq (A B : Lang.t) a w b c :
  c = a ++ w ++ b -> A a -> Lang.ws w -> B b -> Lang.seq A B c.
Proof.
  intros -> Ha Hw Hb. exists a, (w ++ b). repeat split; auto.
  now exists w, b.
Qed.

Lemma derive_tight (A B : Lang.t) a b c :
  c = a ++ b -> A a -> B b -> Lang.seq A B c.
Proof. intros -> Ha Hb. apply (derive_seq A B a [] b); auto. constructor. Qed.

Lemma derive_plus (A : Lang.t) a : A a -> Lang.plus A a.
Proof.
  intros Ha. apply (derive_tight _ _ a []); [now rewrite app_nil_r|exact Ha|].
  constructor.
Qed.

Lemma derive_name l :
  l <> [] -> forallb is_ident_char l = true -> Lang.identifier l.
Proof.
  intros Hl H. destruct l as [|x l]; [contradiction|].
  cbn [forallb] in H. apply andb_true_iff in H as [Hx H].
  exists [x], l. split; [reflexivity|]. split; [exists x; auto|].
  apply many_class, Forall_forall. intros y Hy.
  exact (proj1 (forallb_forall _ _) H y Hy).
Qed.

Ltac derive_a_name := apply derive_name; [discriminate|reflexivity].

Lemma action_derived : Lang.action (chars "c()").
Proof.
  right.
  apply (derive_tight _ _ (chars "c(") (chars ")")); [reflexivity| |reflexivity].
  apply (derive_tight _ _ (chars "c(") []); [reflexivity| |now left].
  apply (derive_tight _ _ (chars "c") (chars "(")); [reflexivity| |reflexivity].
  derive_a_name.
Qed.

Lemma body_derived c :
  Lang.alt (Lang.alt (Lang.alt Lang.condition Lang.register_operation)
              Lang.action) Lang.for_loop c ->
  Lang.step_body c.
Proof. intros H. now apply Lang.step_body_intro, derive_plus. Qed.

Lemma expression_derived : Lang.expression (chars "a>=b").
Proof.
  right.
  apply (derive_tight _ _ (chars "a") (chars ">=b")); [reflexivity| |].
  - do 4 left. derive_a_name.
  - right.
    apply (derive_tight _ _ (chars ">=") (chars "b")); [reflexivity| |].
    + left. right. reflexivity.
    + do 4 left. derive_a_name.
Qed.

Lemma condition_derived : Lang.condition (chars "if a>=b{c()}").
Proof.
  apply Lang.condition_intro.
  apply (derive_tight _ _ (chars "if a>=b{c()") (chars "}"));
    [reflexivity| |reflexivity].
  apply (derive_tight _ _ (chars "if a>=b{") (chars "c()")); [reflexivity| |].
  - apply (derive_tight _ _ (chars "if a>=b") (chars "{"));
      [reflexivity| |reflexivity].
    apply (derive_seq _ _ (chars "if") (chars " ") (chars "a>=b"));
      [reflexivity|reflexivity|repeat constructor|exact expression_derived].
  - apply body_derived. left. right. exact action_derived.
Qed.

Lemma step_derived : Lang.step (chars "step s{if a>=b{c()}}").
Proof.
  apply (derive_tight _ _ (chars "step s{if a>=b{c()}") (chars "}"));
    [reflexivity| |reflexivity].
  apply (derive_tight _ _ (chars "step s{") (chars "if a>=b{c()}"));
    [reflexivity| |].
  - apply (derive_tight _ _ (chars "step s") (chars "{"));
      [reflexivity| |reflexivity].
    apply (derive_seq _ _ (chars "step") (chars " ") (chars "s"));
      [reflexivity|reflexivity|repeat constructor|derive_a_name].
  - apply body_derived. do 3 left. exact condition_derived.
Qed.

Lemma version_derived : Lang.version (chars "v1").
Proof.
  apply (derive_tight _ _ (chars "v1") []); [reflexivity| |constructor].
  apply (derive_tight _ _ (chars "v") (chars "1")); [reflexivity|reflexivity|].
  apply derive_plus. exists "1"%char. now split.
Qed.

(** A comparison with [>=] is in the language of the grammar. *)
Lemma comparison_is_derived :
  derivable "workflow w v1{step s{if a>=b{c()}}}".
Proof.
  apply (derive_tight _ _ (chars "workflow w v1{step s{if a>=b{c()}}}") []);
    [reflexivity| |now left].
  apply (derive_tight _ _ (chars "workflow w v1{step s{if a>=b{c()}}}") []);
    [reflexivity| |now left].
  apply (derive_tight _ _ (chars "workflow w v1{step s{if a>=b{c()}}")
           (chars "}")); [reflexivity| |reflexivity].
  apply (derive_tight _ _ (chars "workflow w v1{")
           (chars "step s{if a>=b{c()}}")); [reflexivity| |].
  - apply (derive_tight _ _ (chars "workflow w v1") (chars "{"));
      [reflexivity| |reflexivity].
    apply (derive_seq _ _ (chars "workflow w") (chars " ") (chars "v1"));
      [reflexivity| |repeat constructor|exact version_derived].
    apply (derive_seq _ _ (chars "workflow") (chars " ") (chars "w"));
      [reflexivity|reflexivity|repeat constructor|derive_a_name].
  - apply derive_plus. exact step_derived.
Qed.


(** ** Escaped quotes *)

Lemma take_while_until f b c r :
  f c = false -> take_while f (b ++ c :: r) = take_while f b.
Proof.
  intros Hc. induction b as [|x b IH]; simpl; [now rewrite Hc|].
  destruct (f x); [now rewrite IH|reflexivity].
Qed.

Lemma drop_while_until f b c r :
  f c = false -> drop_while f (b ++ c :: r) = drop_while f b ++ c :: r.
Proof.
  intros Hc. induction b as [|x b IH]; simpl; [now rewrite Hc|].
  destruct (f x); [exact IH|reflexivity].
Qed.

Lemma escaped_body_ws c b :
  is_ws c = true -> escaped_body (c :: b) = escaped_body b.
Proof.
  intros W. unfold is_ws in W.
  repeat (apply orb_true_iff in W as [W|W]);
    apply Ascii.eqb_eq in W; subst c; reflexivity.
Qed.

Lemma escaped_body_drop_ws b :
  escaped_body b = escaped_body (drop_while is_ws b).
Proof.
  induction b as [|c b IH]; [reflexivity|].
  simpl drop_while. destruct (is_ws c) eqn:W; [|reflexivity].
  now rewrite escaped_body_ws.
Qed.

(** The element at the head of a body that does not start with whitespace. *)
Lemma run_string_element x r :
  is_ws x = false ->
  run string_element NonAtomic (x :: r) =
  if Ascii.eqb BACKSLASH x then
    match r with
    | q :: r' => if Ascii.eqb QUOTE q then Ok [BACKSLASH; QUOTE] [] r'
                 else Ok [x] [] r
    | [] => Ok [x] [] r
    end
  else if Ascii.eqb QUOTE x then Err
  else Ok [x] [] r.
Proof.
  intros W. unfold string_element.
  rewrite run_or_else, run_match_chars, run_seq, run_not_, run_chr.
  assert (S : after_skip NonAtomic (x :: r) = x :: r
              /\ skipped NonAtomic (x :: r) = []) by (simpl; now rewrite W).
  destruct S as [S1 S2].
  cbn [match_prefix class_step].
  destruct (Ascii.eqb BACKSLASH x) eqn:B.
  - apply Ascii.eqb_eq in B. subst x.
    replace (Ascii.eqb QUOTE BACKSLASH) with false by reflexivity.
    rewrite S1, S2, run_ANY.
    destruct r as [|q r']; [reflexivity|].
    destruct (Ascii.eqb QUOTE q); reflexivity.
  - destruct (Ascii.eqb QUOTE x); [reflexivity|].
    rewrite S1, S2, run_ANY. reflexivity.
Qed.

(** The elements of a body, up to the quote that closes it: all of the body
    is taken but the whitespace at its end. *)
Lemma run_string_elements n :
  forall b rest,
    escaped_body b = true -> length b < n ->
    exists c w,
      run (repeat_n n (and_then skip string_element)) NonAtomic
        (b ++ QUOTE :: rest)
      = Ok c [] (w ++ QUOTE :: rest)
      /\ c ++ w = b /\ Forall (fun x => is_ws x = true) w.
Proof.
  induction n as [|n IH]; intros b rest Hb Hn; [lia|].
  rewrite run_repeat_n, run_and_then, run_skip.
  assert (Q : is_ws QUOTE = false) by reflexivity.
  simpl skipped. simpl after_skip.
  rewrite (take_while_until is_ws b QUOTE rest Q),
    (drop_while_until is_ws b QUOTE rest Q).
  pose proof (take_drop_while is_ws b) as Eb.
  pose proof (take_while_all is_ws b) as Wb.
  rewrite escaped_body_drop_ws in Hb.
  assert (Ln : length (drop_while is_ws b) <= length b)
    by apply drop_while_length.
  destruct (drop_while is_ws b) as [|x b2] eqn:D.
  - simpl app. rewrite run_string_element by exact Q. simpl.
    rewrite app_nil_r in Eb. rewrite Eb in Wb.
    exists [], b. repeat split. exact Wb.
  - pose proof (drop_while_head _ _ _ _ D) as W.
    simpl app. rewrite run_string_element by exact W.
    simpl in Ln.
    destruct (Ascii.eqb BACKSLASH x) eqn:B.
    + destruct b2 as [|q b3].
      { cbn [escaped_body] in Hb. rewrite B in Hb. discriminate. }
      simpl app. cbv beta iota.
      destruct (Ascii.eqb QUOTE q) eqn:Eq.
      * assert (Hb3 : escaped_body b3 = true)
          by (cbn [escaped_body] in Hb; now rewrite B, Eq in Hb).
        destruct (IH b3 rest Hb3) as (c & w & E & Ec & Hw);
          [simpl in Ln; lia|].
        cbv beta iota. rewrite E.
        apply Ascii.eqb_eq in B, Eq. subst x q.
        exists ((take_while is_ws b ++ [BACKSLASH; QUOTE]) ++ c), w.
        split; [reflexivity|]. split; [|exact Hw].
        rewrite <- !app_assoc, Ec. exact Eb.
      * assert (Hb3 : escaped_body (q :: b3) = true).
        { change (escaped_body (x :: q :: b3))
            with (if Ascii.eqb BACKSLASH x
                  then if Ascii.eqb QUOTE q then escaped_body b3
                       else escaped_body (q :: b3)
                  else if Ascii.eqb QUOTE x then false
                       else escaped_body (q :: b3)) in Hb.
          rewrite B, Eq in Hb. exact Hb. }
        destruct (IH (q :: b3) rest Hb3) as (c & w & E & Ec & Hw);
          [simpl in *; lia|].
        simpl app in E. cbv beta iota. rewrite E.
        exists ((take_while is_ws b ++ [x]) ++ c), w.
        split; [reflexivity|]. split; [|exact Hw].
        rewrite <- !app_assoc, Ec. exact Eb.
    + assert (Hb2 : escaped_body b2 = true /\ Ascii.eqb QUOTE x = false).
      { cbn [escaped_body] in Hb. rewrite B in Hb.
        destruct (Ascii.eqb QUOTE x); [discriminate|]. auto. }
      destruct Hb2 as [Hb2 Eq]. rewrite Eq.
      destruct (IH b2 rest Hb2) as (c & w & E & Ec & Hw); [lia|].
      cbv beta iota. rewrite E.
      exists ((take_while is_ws b ++ [x]) ++ c), w.
      split; [reflexivity|]. split; [|exact Hw].
      rewrite <- !app_assoc, Ec. exact Eb.
Qed.

(** The repetition inside a string literal, at a body that does not start
    with whitespace. *)
Lemma run_string_star b rest :
  escaped_body b = true -> drop_while is_ws b = b ->
  exists c w,
    run (star string_element) NonAtomic (b ++ QUOTE :: rest)
    = Ok c [] (w ++ QUOTE :: rest)
    /\ c ++ w = b /\ Forall (fun x => is_ws x = true) w.
Proof.
  intros Hb D.
  assert (Q : is_ws QUOTE = false) by reflexivity.
  rewrite run_star.
  destruct b as [|x b2].
  - simpl app. rewrite run_string_element by exact Q. simpl.
    exists [], []. repeat split. constructor.
  - pose proof (drop_while_head _ _ _ _ D) as W.
    simpl app. rewrite run_string_element by exact W.
    destruct (Ascii.eqb BACKSLASH x) eqn:B.
    + destruct b2 as [|q b3].
      { cbn [escaped_body] in Hb. rewrite B in Hb. discriminate. }
      simpl app. cbv beta iota.
      change (escaped_body (x :: q :: b3))
        with (if Ascii.eqb BACKSLASH x
              then if Ascii.eqb QUOTE q then escaped_body b3
                   else escaped_body (q :: b3)
              else if Ascii.eqb QUOTE x then false
                   else escaped_body (q :: b3)) in Hb.
      rewrite B in Hb.
      destruct (Ascii.eqb QUOTE q) eqn:Eq.
      * destruct (run_string_elements (S (length (b3 ++ QUOTE :: rest)))
                    b3 rest Hb) as (c & w & E & Ec & Hw);
          [rewrite length_app; simpl; lia|].
        cbv beta iota. unfold repeat. unfold run in E |- *. rewrite E.
        apply Ascii.eqb_eq in B, Eq. subst x q.
        exists ([BACKSLASH; QUOTE] ++ c), w.
        split; [reflexivity|]. split; [|exact Hw].
        now rewrite <- Ec.
      * destruct (run_string_elements
                    (S (length ((q :: b3) ++ QUOTE :: rest)))
                    (q :: b3) rest Hb) as (c & w & E & Ec & Hw);
          [rewrite length_app; simpl; lia|].
        cbv beta iota. unfold repeat. unfold run in E |- *. simpl app in E.
        rewrite E.
        exists ([x] ++ c), w.
        split; [reflexivity|]. split; [|exact Hw].
        now rewrite <- Ec.
    + cbn [escaped_body] in Hb. rewrite B in Hb.
      destruct (Ascii.eqb QUOTE x); [discriminate|].
      destruct (run_string_elements (S (length (b2 ++ QUOTE :: rest)))
                  b2 rest Hb) as (c & w & E & Ec & Hw);
        [rewrite length_app; simpl; lia|].
      cbv beta iota. unfold repeat. unfold run in E |- *. rewrite E.
      exists ([x] ++ c), w.
      split; [reflexivity|]. split; [|exact Hw].
      now rewrite <- Ec.
Qed.

(** A string literal whose body escapes its quotes is matched whole: the
    escaped quotes do not end it. *)
Lemma run_string_escaped b rest :
  escaped_body b = true ->
  run Grammar.string NonAtomic (QUOTE :: b ++ QUOTE :: rest)
  = Ok (QUOTE :: b ++ [QUOTE]) [] rest.
Proof.
  intros Hb.
  assert (Q : is_ws QUOTE = false) by reflexivity.
  change Grammar.string
    with (seq (seq (chr QUOTE) (star string_element)) (chr QUOTE)).
  rewrite run_seq, run_seq, run_chr. simpl class_step.
  simpl after_skip. simpl skipped. cbv beta iota.
  rewrite (take_while_until is_ws b QUOTE rest Q),
    (drop_while_until is_ws b QUOTE rest Q).
  pose proof (take_drop_while is_ws b) as Eb.
  rewrite escaped_body_drop_ws in Hb.
  assert (D : drop_while is_ws (drop_while is_ws b) = drop_while is_ws b).
  { destruct (drop_while is_ws b) as [|x r] eqn:E; [reflexivity|].
    simpl. now rewrite (drop_while_head _ _ _ _ E). }
  destruct (run_string_star _ rest Hb D) as (c & w & E & Ec & Hw).
  rewrite E. cbv beta iota.
  rewrite (take_while_app is_ws w QUOTE rest Hw Q),
    (drop_while_app is_ws w QUOTE rest Hw Q), run_chr.
  simpl. rewrite <- Eb at 2. rewrite <- Ec, <- !app_assoc. reflexivity.
Qed.

(** C2, at the input where the grammar departs from it.  A string literal
    takes a backslash and a quote as part of its body: the literal of an
    escaped quote alone is matched whole, and parse accepts it as a
    parameter.  The delimiter rule has no such alternative: it ends at the
    first quote, escaped or not, so the same literal as the delimiter of a
    split is cut after the backslash, and parse rejects the for loop. *)
Theorem delimiter_ends_at_escaped_quote :
  (forall rest,
      run Grammar.string NonAtomic
        (QUOTE :: BACKSLASH :: QUOTE :: QUOTE :: rest)
      = Ok [QUOTE; BACKSLASH; QUOTE; QUOTE] [] rest)
  /\ (forall rest,
         run Grammar.delimiter NonAtomic
           (QUOTE :: BACKSLASH :: QUOTE :: QUOTE :: rest)
         = Ok [QUOTE; BACKSLASH; QUOTE]
             [Node Rule.delimiter (text [QUOTE; BACKSLASH; QUOTE]) []]
             (QUOTE :: rest))
  /\ (exists ps,
         parse (text (chars "workflow w v1{step s{a("
                        ++ [QUOTE; BACKSLASH; QUOTE; QUOTE]
                        ++ chars ")}}"))
         = Some (inl ps))
  /\ (exists e,
         parse (text (chars "workflow w v1{step s{for i in $x.split("
                        ++ [QUOTE; BACKSLASH; QUOTE; QUOTE]
                        ++ chars "){a()}}}"))
         = Some (inr e)).
Proof.
  split; [|split; [|split]].
  - intros rest. unfold Grammar.string. repeat run_step. reflexivity.
  - intros rest. unfold Grammar.delimiter. repeat run_step. reflexivity.
  - eexists. vm_compute. reflexivity.
  - eexists. vm_compute. reflexivity.
Qed.

(** ** Whitespace between tokens *)

Lemma ins1_ins k s s' : ins1 k s s' -> ins k s s'.
Proof.
  destruct s as [|c r], s' as [|c' r']; simpl; try contradiction.
  - intros _. constructor.
  - intros [<- H]. now constructor.
Qed.

Lemma ins_refl k s : ins k s s.
Proof. revert k; induction s as [|c s IH]; intros k; constructor; apply IH. Qed.

Lemma ins_after_skip k r r' :
  ins k r r' ->
  ins1 (rev (take_while is_ws r) ++ k) (drop_while is_ws r)
    (drop_while is_ws r').
Proof.
  induction 1 as [k|k c s s' H IH|k w s s' Hw Hg H IH]; simpl.
  - exact I.
  - destruct (is_ws c) eqn:E.
    + simpl. rewrite <- app_assoc. exact IH.
    + simpl. auto.
  - rewrite Hw. exact IH.
Qed.

Lemma ins_strip k s s' : ins k s s' -> strip_ws s = strip_ws s'.
Proof.
  induction 1 as [k|k c s s' H IH|k w s s' Hw Hg H IH]; simpl.
  - reflexivity.
  - unfold strip_ws in *. simpl. now rewrite IH.
  - unfold strip_ws in *. simpl. now rewrite Hw.
Qed.

Lemma ins_skipped_strip r : strip_ws (take_while is_ws r) = [].
Proof. exact (strip_ws_skipped NonAtomic r). Qed.

(** Literals *)

Lemma ins1_lit_fwd l :
  l <> [] ->
  forall k r s',
    tight k l = true -> ins1 k (l ++ r) s' ->
    exists r', s' = l ++ r' /\ ins (rev l ++ k) r r'.
Proof.
  induction l as [|c1 l IH]; [contradiction|]. intros _ k r s' Ht H.
  destruct s' as [|c' r1']; [contradiction|]. destruct H as [<- H].
  destruct l as [|c2 l].
  - exists r1'. simpl. auto.
  - simpl in Ht. apply andb_true_iff in Ht as [Hg Ht].
    apply negb_true_iff in Hg.
    simpl in H. inversion H as [|? ? ? r2' H2|? w ? ? Hw Hgap H2]; subst.
    + destruct (IH ltac:(discriminate) (c1 :: k) r (c2 :: r2') Ht) as (r' & E & Hr).
      * simpl. auto.
      * exists r'. split; [now rewrite E|].
        simpl in *. now rewrite <- !app_assoc in *.
    + simpl in Hgap. congruence.
Qed.

Lemma ins_lit_bwd l :
  Forall (fun c => is_ws c = false) l ->
  forall k s r', ins k s (l ++ r') -> exists r, s = l ++ r.
Proof.
  induction 1 as [|c l Hc Hl IH]; intros k s r' H.
  - exists s. reflexivity.
  - simpl in H. inversion H as [|? ? s0 ? H2|? w ? ? Hw Hgap H2]; subst.
    + apply IH in H2 as [r ->]. now exists r.
    + congruence.
Qed.

Lemma steady_match_chars l :
  l <> [] -> Forall (fun c => is_ws c = false) l ->
  (forall k, tight k l = true) ->
  steady (match_chars l).
Proof.
  intros Hne Hws Ht k s s' H. rewrite !run_match_chars.
  destruct (match_prefix l s) as [r|] eqn:E.
  - apply match_prefix_Some in E. subst s.
    destruct (ins1_lit_fwd l Hne k r s' (Ht k) H) as (r' & -> & Hr).
    rewrite match_prefix_app. simpl. auto.
  - destruct (match_prefix l s') as [r'|] eqn:E'; [|exact I].
    apply match_prefix_Some in E'. subst s'.
    apply ins1_ins in H. apply (ins_lit_bwd l Hws) in H as [r ->].
    now rewrite match_prefix_app in E.
Qed.

Ltac literal :=
  apply steady_match_chars;
  [ discriminate
  | repeat constructor
  | let k := fresh "k" in intros k; reflexivity ].

Lemma steady_class f p :
  (forall a s, run p a s = class_step f s) -> steady p.
Proof.
  intros Hp k s s' H. rewrite !Hp.
  destruct s as [|c r], s' as [|c' r']; simpl in *; try contradiction;
    [exact I|].
  destruct H as [<- H]. destruct (f c); simpl; auto.
Qed.

(** The operators *)

Lemma related_and_then k p q s s' :
  related k (run p NonAtomic s) (run p NonAtomic s') ->
  (forall c r r', ins (rev c ++ k) r r' ->
                  related (rev c ++ k) (run q NonAtomic r) (run q NonAtomic r')) ->
  related k (run (and_then p q) NonAtomic s) (run (and_then p q) NonAtomic s').
Proof.
  intros Hp Hq. rewrite !run_and_then.
  destruct (run p NonAtomic s) as [c1 t1 r1| |],
    (run p NonAtomic s') as [c1' t1' r1'| |]; simpl in Hp; try contradiction;
    try exact I.
  destruct Hp as (Ec & Et & Hr). specialize (Hq c1 r1 r1' Hr).
  destruct (run q NonAtomic r1) as [c2 t2 r2| |],
    (run q NonAtomic r1') as [c2' t2' r2'| |]; simpl in Hq; try contradiction;
    try exact I.
  destruct Hq as (Ec2 & Et2 & Hr2). simpl.
  rewrite !strip_ws_app, !map_app, Ec, Ec2, Et, Et2.
  split; [reflexivity|split; [reflexivity|]].
  now rewrite rev_app_distr, <- app_assoc.
Qed.

Lemma steady_and_then p q : steady p -> lenient q -> steady (and_then p q).
Proof.
  intros Hp Hq k s s' H. apply related_and_then; [now apply Hp|].
  intros c r r' Hr. now apply Hq.
Qed.

Lemma lenient_and_then p q : lenient p -> lenient q -> lenient (and_then p q).
Proof.
  intros Hp Hq k s s' H. apply related_and_then; [now apply Hp|].
  intros c r r' Hr. now apply Hq.
Qed.

Lemma lenient_skip_then p : steady p -> lenient (and_then skip p).
Proof.
  intros Hp k s s' H. rewrite !run_and_then, !run_skip. simpl.
  specialize (Hp _ _ _ (ins_after_skip _ _ _ H)).
  destruct (run p NonAtomic (drop_while is_ws s)) as [c2 t2 r2| |],
    (run p NonAtomic (drop_while is_ws s')) as [c2' t2' r2'| |];
    simpl in Hp; try contradiction; try exact I.
  destruct Hp as (Ec & Et & Hr). simpl.
  rewrite !strip_ws_app, !ins_skipped_strip. simpl.
  split; [exact Ec|split; [exact Et|]].
  now rewrite rev_app_distr, <- app_assoc.
Qed.

Lemma steady_seq p q : steady p -> steady q -> steady (seq p q).
Proof.
  intros Hp Hq. unfold seq.
  apply steady_and_then; [exact Hp|now apply lenient_skip_then].
Qed.

Lemma steady_or_else p q : steady p -> steady q -> steady (or_else p q).
Proof.
  intros Hp Hq k s s' H. rewrite !run_or_else.
  specialize (Hp k s s' H). specialize (Hq k s s' H).
  destruct (run p NonAtomic s), (run p NonAtomic s'); simpl in Hp;
    try contradiction; auto.
Qed.

Lemma steady_optional p : steady p -> steady (optional p).
Proof.
  intros Hp k s s' H. rewrite !run_optional.
  specialize (Hp k s s' H).
  destruct (run p NonAtomic s), (run p NonAtomic s'); simpl in Hp;
    try contradiction; simpl; auto using ins1_ins.
Qed.

Lemma steady_lookahead_not p : steady p -> steady (lookahead_not p).
Proof.
  intros Hp k s s' H. rewrite !run_lookahead_not.
  specialize (Hp k s s' H).
  destruct (run p NonAtomic s), (run p NonAtomic s'); simpl in Hp;
    try contradiction; simpl; auto using ins1_ins.
Qed.

Lemma lenient_repeat_n q :
  lenient q -> consumes 1 q ->
  forall n n' k s s',
    length s < n -> length s' < n' -> ins k s s' ->
    related k (run (repeat_n n q) NonAtomic s)
      (run (repeat_n n' q) NonAtomic s').
Proof.
  intros Hq Hc n. induction n as [|n IH]; intros n' k s s' Hn Hn' H; [lia|].
  destruct n' as [|n']; [lia|].
  rewrite !run_repeat_n.
  specialize (Hq k s s' H).
  destruct (run q NonAtomic s) as [c1 t1 r1| |] eqn:E,
    (run q NonAtomic s') as [c1' t1' r1'| |] eqn:E'; simpl in Hq;
    try contradiction; try exact I.
  - destruct Hq as (Ec & Et & Hr).
    apply Hc in E as [-> L]. apply Hc in E' as [-> L'].
    rewrite length_app in Hn, Hn'.
    assert (R : related (rev c1 ++ k) (run (repeat_n n q) NonAtomic r1)
                  (run (repeat_n n' q) NonAtomic r1'))
      by (apply IH; [lia|lia|exact Hr]).
    destruct (run (repeat_n n q) NonAtomic r1) as [c2 t2 r2| |],
      (run (repeat_n n' q) NonAtomic r1') as [c2' t2' r2'| |]; simpl in R;
      try contradiction; try exact I.
    destruct R as (Ec2 & Et2 & Hr2). simpl.
    rewrite !strip_ws_app, !map_app, Ec, Ec2, Et, Et2.
    split; [reflexivity|split; [reflexivity|]].
    now rewrite rev_app_distr, <- app_assoc.
  - simpl. auto.
Qed.

Lemma lenient_repeat q : lenient q -> consumes 1 q -> lenient (repeat q).
Proof.
  intros Hq Hc k s s' H. unfold repeat.
  change (related k (run (repeat_n (S (length s)) q) NonAtomic s)
            (run (repeat_n (S (length s')) q) NonAtomic s')).
  apply lenient_repeat_n; auto.
Qed.

Lemma steady_star p : steady p -> consumes 1 p -> steady (star p).
Proof.
  intros Hp Hc. unfold star. apply steady_optional.
  apply steady_and_then; [exact Hp|].
  apply lenient_repeat; [now apply lenient_skip_then|].
  change 1 with (0 + 1). apply consumes_and_then; [apply consumes_skip|exact Hc].
Qed.

Lemma steady_plus p : steady p -> consumes 1 p -> steady (plus p).
Proof.
  intros Hp Hc. unfold plus. apply steady_seq; [exact Hp|now apply steady_star].
Qed.

Lemma steady_rule r p : steady p -> steady (rule r p).
Proof.
  intros Hp k s s' H. rewrite !run_rule. specialize (Hp k s s' H).
  destruct (run p NonAtomic s) as [c t rest| |],
    (run p NonAtomic s') as [c' t' rest'| |]; simpl in Hp;
    try contradiction; try exact I.
  destruct Hp as (Ec & Et & Hr). simpl.
  unfold text, chars. rewrite !list_ascii_of_string_of_list_ascii, Ec, Et.
  auto.
Qed.

Lemma steady_normal r p : steady p -> steady (normal r p).
Proof. apply steady_rule. Qed.
Lemma steady_opt p : steady p -> steady (opt p).
Proof. apply steady_optional. Qed.
Lemma steady_not_ p : steady p -> steady (not_ p).
Proof. apply steady_lookahead_not. Qed.
Lemma steady_silent p : steady p -> steady (silent p).
Proof. exact (fun H => H). Qed.
Lemma steady_diverge : steady diverge.
Proof. intros k s s' H. exact I. Qed.

(** Names and identities are not cut. *)

Lemma identity_char_no_gap x y k :
  is_identity_char x = true -> is_identity_char y = true ->
  gap_ok (x :: k) y = false.
Proof. intros Hx Hy. unfold gap_ok. now rewrite Hx, Hy. Qed.

Lemma ident_is_identity_char c :
  is_ident_char c = true -> is_identity_char c = true.
Proof.
  unfold is_ident_char, is_identity_char. intros ->. reflexivity.
Qed.

Lemma identity_char_not_ws c : is_identity_char c = true -> is_ws c = false.
Proof.
  destruct (is_ws c) eqn:W; [|reflexivity].
  unfold is_ws in W.
  repeat (apply orb_true_iff in W as [W|W]);
    apply Ascii.eqb_eq in W; subst c; vm_compute; discriminate.
Qed.

Lemma ins_class_run (f : ascii -> bool) :
  (forall c, f c = true -> is_identity_char c = true) ->
  forall k s s',
    ins k s s' ->
    (exists x k0, k = x :: k0 /\ f x = true) ->
    take_while f s' = take_while f s
    /\ ins (rev (take_while f s) ++ k) (drop_while f s) (drop_while f s').
Proof.
  intros Hf k s s' H.
  induction H as [k|k c s s' H IH|k w s s' Hw Hg H IH]; intros Hk; simpl.
  - split; [reflexivity|constructor].
  - destruct (f c) eqn:E.
    + destruct IH as [E1 E2]; [now exists c, k|].
      rewrite E1. split; [reflexivity|].
      simpl. now rewrite <- app_assoc.
    + split; [reflexivity|]. now constructor.
  - assert (Fw : f w = false).
    { destruct (f w) eqn:E; [|reflexivity].
      apply Hf, identity_char_not_ws in E. congruence. }
    rewrite Fw.
    destruct s as [|y s0]; simpl.
    + split; [reflexivity|]. constructor; auto.
    + destruct (f y) eqn:E.
      * destruct Hk as (x & k0 & -> & Hx).
        unfold gap_here in Hg.
        rewrite (identity_char_no_gap x y k0) in Hg; auto; discriminate.
      * split; [reflexivity|]. now constructor.
Qed.

Lemma steady_class_run (f : ascii -> bool) p (out : input -> list Pair)
  (nonempty : bool) :
  (forall c, f c = true -> is_identity_char c = true) ->
  (forall s,
      run p NonAtomic s =
      match take_while f s with
      | [] => if nonempty then Err else Ok [] (out []) s
      | y => Ok y (out y) (drop_while f s)
      end) ->
  steady p.
Proof.
  intros Hf Hp k s s' H. rewrite !Hp.
  destruct s as [|c r], s' as [|c' r']; simpl in H; try contradiction.
  - simpl. destruct nonempty; simpl; auto using ins_nil.
  - destruct H as [<- H]. simpl.
    destruct (f c) eqn:E.
    + destruct (ins_class_run f Hf _ _ _ H) as [E1 E2]; [now exists c, k|].
      rewrite E1. simpl. split; [reflexivity|]. split; [reflexivity|].
      simpl. now rewrite <- app_assoc.
    + destruct nonempty; simpl; [exact I|].
      split; [reflexivity|]. split; [reflexivity|]. now constructor.
Qed.

Lemma steady_identifier : steady Grammar.identifier.
Proof.
  apply steady_class_run
    with (f := is_ident_char) (out := leaf Rule.identifier NonAtomic)
         (nonempty := true).
  - apply ident_is_identity_char.
  - intros s. rewrite run_identifier.
    destruct (take_while is_ident_char s); reflexivity.
Qed.

Lemma steady_identity : steady Grammar.identity.
Proof.
  apply steady_class_run
    with (f := is_identity_char) (out := leaf Rule.identity NonAtomic)
         (nonempty := false).
  - auto.
  - intros s. rewrite run_identity.
    pose proof (take_drop_while is_identity_char s) as E.
    destruct (take_while is_identity_char s); [|reflexivity].
    simpl in E. now rewrite E.
Qed.

Lemma steady_sticky_tag : steady Grammar.sticky_tag.
Proof.
  intros k s s' H.
  assert (L : steady (lit "sticky")) by (unfold lit, match_string; literal).
  specialize (L k s s' H). rewrite !run_lit in L. rewrite !run_sticky_tag.
  destruct (match_prefix (chars "sticky") s),
    (match_prefix (chars "sticky") s'); simpl in *; auto.
  destruct L as (_ & _ & L). auto.
Qed.

#[global] Hint Resolve steady_seq steady_or_else steady_opt steady_not_
  steady_star steady_plus steady_normal steady_silent steady_diverge
  steady_identifier steady_identity steady_sticky_tag : pest.
#[global] Hint Extern 1 (steady (lit _)) =>
  unfold lit, match_string; literal : pest.
#[global] Hint Extern 1 (steady (chr _)) => unfold chr; literal : pest.
#[global] Hint Extern 1 (steady (match_chars _)) => literal : pest.
#[global] Hint Extern 1 (steady ASCII_DIGIT) =>
  apply steady_class with (f := is_digit); apply run_ASCII_DIGIT : pest.
#[global] Hint Extern 1 (steady ANY) =>
  apply steady_class with (f := fun _ => true); apply run_ANY : pest.

Ltac steady_rule :=
  unfold Grammar.number, Grammar.boolean, Grammar.delimiter, Grammar.string,
    Grammar.author_tag, Grammar.version, Grammar.register,
    Grammar.split_expression, Grammar.value, Grammar.comparison_operator,
    Grammar.param, Grammar.external_fn_call, Grammar.register_operation,
    Grammar.range_expression, Grammar.simple_expression, Grammar.expression,
    Grammar.command, Grammar.action;
  auto 40 with pest.

Lemma steady_number : steady Grammar.number.
Proof. steady_rule. Qed.
Lemma steady_boolean : steady Grammar.boolean.
Proof. steady_rule. Qed.
Lemma steady_delimiter : steady Grammar.delimiter.
Proof. steady_rule. Qed.
Lemma steady_string : steady Grammar.string.
Proof. steady_rule. Qed.
Lemma steady_author_tag : steady Grammar.author_tag.
Proof. steady_rule. Qed.
Lemma steady_version : steady Grammar.version.
Proof. steady_rule. Qed.
Lemma steady_register : steady Grammar.register.
Proof. steady_rule. Qed.
#[global] Hint Resolve steady_number steady_boolean steady_delimiter
  steady_string steady_author_tag steady_version steady_register : pest.

Lemma steady_split_expression : steady Grammar.split_expression.
Proof. steady_rule. Qed.
Lemma steady_value : steady Grammar.value.
Proof. steady_rule. Qed.
Lemma steady_comparison_operator : steady Grammar.comparison_operator.
Proof. steady_rule. Qed.
Lemma steady_param : steady Grammar.param.
Proof. steady_rule. Qed.
#[global] Hint Resolve steady_split_expression steady_value
  steady_comparison_operator steady_param : pest.

Lemma steady_external_fn_call : steady Grammar.external_fn_call.
Proof. steady_rule. Qed.
Lemma steady_range_expression : steady Grammar.range_expression.
Proof. steady_rule. Qed.
Lemma steady_simple_expression : steady Grammar.simple_expression.
Proof. steady_rule. Qed.
Lemma steady_command : steady Grammar.command.
Proof. steady_rule. Qed.
#[global] Hint Resolve steady_external_fn_call steady_range_expression
  steady_simple_expression steady_command : pest.

Lemma steady_register_operation : steady Grammar.register_operation.
Proof. steady_rule. Qed.
Lemma steady_expression : steady Grammar.expression.
Proof. steady_rule. Qed.
Lemma steady_action : steady Grammar.action.
Proof. steady_rule. Qed.
#[global] Hint Resolve steady_register_operation steady_expression
  steady_action : pest.

Lemma steady_recursive f :
  steady (Grammar.step_body f) /\ steady (Grammar.condition f)
  /\ steady (Grammar.for_loop f).
Proof.
  induction f as [|f (IHs & IHc & IHf)].
  - split; [|split]; exact steady_diverge.
  - rewrite step_body_S, condition_S, for_loop_S.
    split; [|split]; auto 40 with pest.
Qed.

Lemma steady_workflow f : steady (Grammar.workflow f).
Proof.
  pose proof (steady_recursive f) as (Hs & _ & _).
  unfold Grammar.workflow, Grammar.step. auto 40 with pest.
Qed.


Ltac insertion :=
  repeat first
    [ apply ins_nil
    | apply ins_keep
    | apply ins_gap; [reflexivity|reflexivity|] ].



(** * Further properties of the grammar *)

(** ** Operators and operands *)

(** X1. The operator of a comparison is one of [==], [!=], [>] and [<]: the
    alternatives [>=] and [<=] come after [>] and [<] in the ordered choice,
    which match first wherever they would. *)
Theorem comparison_operator_is_one_of_four :
  forall a s c t r,
    run Grammar.comparison_operator a s = Ok c t r ->
    (c = chars "==" \/ c = chars "!=" \/ c = chars ">" \/ c = chars "<")
    /\ s = c ++ r.
Proof.
  intros a s c t r. unfold Grammar.comparison_operator.
  rewrite run_normal, !run_or_else, !run_lit.
  cbn [chars list_ascii_of_string match_prefix].
  destruct s as [|x [|y s']];
    repeat match goal with
      | |- context [Ascii.eqb ?u ?v] =>
          let E := fresh "E" in
          destruct (Ascii.eqb u v) eqn:E;
          [apply Ascii.eqb_eq in E; try discriminate E; subst|]
      end;
    cbn; intros H; try discriminate H; injection H as <- _ <-; auto 6.
Qed.

Lemma comparison_operator_is_one_of_four_witness :
  (chars ">" = chars "==" \/ chars ">" = chars "!=" \/ chars ">" = chars ">"
   \/ chars ">" = chars "<")
  /\ chars ">= 1" = chars ">" ++ chars "= 1".
Proof.
  apply (comparison_operator_is_one_of_four NonAtomic (chars ">= 1")
           (chars ">")
           [Node Rule.comparison_operator ">" []] (chars "= 1")).
  vm_compute. reflexivity.
Defined.

Lemma Forall_ws_take w y :
  Forall (fun c => is_ws c = true) w ->
  take_while is_ws y = [] ->
  take_while is_ws (w ++ y) = w /\ drop_while is_ws (w ++ y) = y.
Proof.
  intros Hw Hy.
  rewrite take_while_prefix, drop_while_prefix by exact Hw.
  rewrite Hy, app_nil_r, (drop_while_id _ _ Hy). auto.
Qed.

Lemma name_not_ws x r :
  x <> [] -> Forall (fun c => is_ident_char c = true) x ->
  take_while is_ws (x ++ r) = [].
Proof.
  intros Hx Hall. destruct x as [|c x]; [contradiction|].
  inversion Hall; subst. simpl. now rewrite ident_char_not_ws.
Qed.

Lemma ws_not_name w r :
  Forall (fun c => is_ws c = true) w ->
  take_while is_ident_char r = [] ->
  take_while is_ident_char (w ++ r) = [].
Proof.
  intros Hw Hr. destruct w as [|c w]; [exact Hr|].
  inversion Hw; subst. simpl.
  destruct (is_ident_char c) eqn:E; [|reflexivity].
  apply ident_char_not_ws in E. congruence.
Qed.

(** A simple expression that starts with a character of names is a name:
    the alternative of identifiers comes first. *)
Lemma run_simple_expression_name s :
  take_while is_ident_char s <> [] ->
  run Grammar.simple_expression NonAtomic s
  = Ok (take_while is_ident_char s)
      [Node Rule.simple_expression (text (take_while is_ident_char s))
         [Node Rule.identifier (text (take_while is_ident_char s)) []]]
      (drop_while is_ident_char s).
Proof.
  intros H. unfold Grammar.simple_expression.
  rewrite run_normal, !run_or_else, run_identifier.
  destruct (take_while is_ident_char s); [contradiction|reflexivity].
Qed.

Lemma run_simple_expression_equals rest :
  run Grammar.simple_expression NonAtomic ("="%char :: rest) = Err.
Proof.
  unfold Grammar.simple_expression, Grammar.number, Grammar.boolean,
    Grammar.string, Grammar.register, plus.
  repeat run_step. reflexivity.
Qed.

(** A guard that is a name followed by [>=] or [<=]: the expression is the
    name, and the operator is left unread. *)
Lemma run_expression_name_operator o x w rest :
  o = ">"%char \/ o = "<"%char ->
  x <> [] -> Forall (fun c => is_ident_char c = true) x ->
  Forall (fun c => is_ws c = true) w ->
  run Grammar.expression NonAtomic (x ++ w ++ o :: "="%char :: rest)
  = Ok (x ++ w)
      [Node Rule.expression (text (x ++ w))
         [Node Rule.simple_expression (text x)
            [Node Rule.identifier (text x) []]]]
      (o :: "="%char :: rest).
Proof.
  intros Ho Hx Hall Hw.
  assert (N : take_while is_ident_char (w ++ o :: "="%char :: rest) = []).
  { apply ws_not_name; [exact Hw|]. destruct Ho; subst o; reflexivity. }
  assert (S1 : take_while is_ws (w ++ o :: "="%char :: rest) = w
               /\ drop_while is_ws (w ++ o :: "="%char :: rest)
                  = o :: "="%char :: rest).
  { apply Forall_ws_take; [exact Hw|]. destruct Ho; subst o; reflexivity. }
  destruct S1 as [S1 S2].
  unfold Grammar.expression, Grammar.range_expression,
    Grammar.simple_expression.
  rewrite run_normal, run_or_else, run_normal, !run_seq.
  rewrite run_identifier_app by assumption.
  cbn [after_skip skipped]. rewrite S1, S2.
  rewrite run_lit.
  replace (match_prefix (chars "..") (o :: "="%char :: rest)) with (@None input)
    by (destruct Ho; subst o; reflexivity).
  cbv beta iota.
  fold Grammar.simple_expression.
  rewrite run_simple_expression_name;
    rewrite take_while_prefix, N, app_nil_r by assumption;
    [|destruct x; [contradiction|discriminate]].
  rewrite drop_while_prefix, (drop_while_id _ _ N) by assumption.
  cbn [after_skip skipped]. rewrite S1, S2.
  rewrite run_opt, run_seq.
  assert (C : run Grammar.comparison_operator NonAtomic
                (o :: "="%char :: rest)
              = Ok [o] [Node Rule.comparison_operator (text [o]) []]
                  ("="%char :: rest)).
  { destruct Ho; subst o; unfold Grammar.comparison_operator;
      repeat run_step; reflexivity. }
  rewrite C. cbn [after_skip drop_while is_ws].
  replace (is_ws "=") with false by reflexivity. cbv beta iota.
  rewrite run_simple_expression_equals. cbn. rewrite !app_nil_r. reflexivity.
Qed.

(** X2. A condition whose guard compares with [>=] or [<=] is rejected: the
    operator rule takes [>] or [<] alone, no operand starts with [=], so the
    guard ends before the operator, where the brace of the body is
    expected. *)
Theorem condition_rejects_ge_and_le :
  forall f o w1 x w2 rest,
    o = ">"%char \/ o = "<"%char ->
    Forall (fun c => is_ws c = true) w1 ->
    x <> [] -> Forall (fun c => is_ident_char c = true) x ->
    Forall (fun c => is_ws c = true) w2 ->
    run (Grammar.condition (S f)) NonAtomic
      (chars "if" ++ w1 ++ x ++ w2 ++ o :: "="%char :: rest) = Err.
Proof.
  intros f o w1 x w2 rest Ho Hw1 Hx Hall Hw2.
  rewrite condition_S, run_normal, !run_seq, run_lit_app.
  cbn [after_skip skipped].
  destruct (Forall_ws_take w1 (x ++ w2 ++ o :: "="%char :: rest) Hw1
              (name_not_ws x _ Hx Hall)) as [-> ->].
  rewrite run_expression_name_operator by assumption.
  cbn [after_skip skipped].
  destruct Ho; subst o; repeat run_step; reflexivity.
Qed.

Lemma condition_rejects_ge_and_le_witness :
  run (Grammar.condition 3) NonAtomic (chars "if n >= 10 { a() }") = Err.
Proof.
  apply (condition_rejects_ge_and_le 2 ">" (chars " ") (chars "n") (chars " ")
           (chars " 10 { a() }")).
  - now left.
  - repeat constructor.
  - discriminate.
  - repeat constructor.
  - repeat constructor.
Defined.

(** A string literal gives no pair. *)
Lemma string_Ok a s c t r : run Grammar.string a s = Ok c t r -> t = [].
Proof.
  unfold Grammar.string. rewrite run_silent. intros H.
  apply seq_Ok in H as (c1 & t1 & r1 & c2 & t2 & H & H3 & -> & ->).
  apply seq_Ok in H as (c3 & t3 & r3 & c4 & t4 & H1 & H2 & -> & ->).
  unfold chr in H1, H3. rewrite run_match_chars in H1, H3.
  destruct (match_prefix [QUOTE] s); [|discriminate].
  destruct (match_prefix [QUOTE] (after_skip a r1)); [|discriminate].
  injection H1 as <- <- <-. injection H3 as <- <- <-.
  assert (E : forall s c t r,
             run (or_else (match_chars [BACKSLASH; QUOTE])
                    (seq (not_ (chr QUOTE)) ANY)) a s = Ok c t r -> t = []).
  { intros s0 c0 t0 r0 H0.
    apply or_else_Ok in H0 as [H0|[_ H0]].
    - rewrite run_match_chars in H0.
      destruct (match_prefix [BACKSLASH; QUOTE] s0); [|discriminate].
      now injection H0 as <- <- <-.
    - apply seq_Ok in H0 as (c5 & t5 & r5 & c6 & t6 & H5 & H6 & -> & ->).
      rewrite run_not_ in H5.
      destruct (run (chr QUOTE) a s0); try discriminate.
      injection H5 as <- <- <-.
      rewrite run_ANY in H6. unfold class_step in H6.
      destruct (after_skip a s0); [discriminate|].
      now injection H6 as <- <- <-. }
  assert (t4 = []) as ->; [|reflexivity].
  revert H2. apply (star_Ok (fun _ t => t = [])).
  - reflexivity.
  - intros s0 c0 t0 r0 c5 t5 H0 ->. now apply E in H0 as ->.
  - intros s0 c0 t0 r0 H0. now apply E in H0.
Qed.

(** X3. In a guard, [true], [false] and numbers are names: a simple expression
    that starts with a letter, a digit or an underscore is an identifier,
    so the alternatives of numbers and booleans, which come after it, are
    never taken, and no simple expression holds a boolean. *)
Theorem simple_expression_has_no_boolean :
  forall s c t r,
    run Grammar.simple_expression NonAtomic s = Ok c t r ->
    exists inner,
      t = [Node Rule.simple_expression (text c) inner]
      /\ (inner = [Node Rule.identifier (text c) []]
          \/ inner = []
          \/ exists i, inner = [Node Rule.register (text c) i])
      /\ (take_while is_ident_char s <> [] ->
          c = take_while is_ident_char s
          /\ inner = [Node Rule.identifier (text c) []]).
Proof.
  intros s c t r H.
  destruct (take_while is_ident_char s) as [|y0 y] eqn:T.
  - unfold Grammar.simple_expression in H.
    apply normal_Ok in H as (inner & H & ->).
    exists inner. split; [reflexivity|]. split; [|intros N; contradiction].
    apply or_else_Ok in H as [H|[_ H]];
      [apply or_else_Ok in H as [H|[_ H]];
       [apply or_else_Ok in H as [H|[_ H]];
        [apply or_else_Ok in H as [H|[_ H]]|]|]|].
    + rewrite run_identifier, T in H. discriminate.
    + exfalso. unfold Grammar.number in H. rewrite run_silent, run_plus in H.
      rewrite run_ASCII_DIGIT in H. unfold class_step in H.
      destruct s as [|x s']; [discriminate|].
      simpl in T. unfold is_ident_char, is_alnum in T.
      destruct (is_digit x); [discriminate T|discriminate H].
    + exfalso. unfold Grammar.boolean in H.
      apply normal_Ok in H as (t' & H & _).
      apply or_else_Ok in H as [H|[_ H]];
        apply lit_Ok in H as (_ & _ & ->); discriminate T.
    + right; left. eapply string_Ok; eauto.
    + right; right. unfold Grammar.register in H.
      apply normal_Ok in H as (i & _ & ->). eauto.
  - rewrite run_simple_expression_name in H by (rewrite T; discriminate).
    rewrite T in H. injection H as <- <- <-.
    eexists. split; [reflexivity|]. split; [now left|]. auto.
Qed.

Lemma simple_expression_has_no_boolean_witness :
  exists inner,
    [Node Rule.simple_expression "true"
       [Node Rule.identifier "true" []]]
    = [Node Rule.simple_expression (text (chars "true")) inner]
    /\ (inner = [Node Rule.identifier (text (chars "true")) []]
        \/ inner = []
        \/ exists i, inner = [Node Rule.register (text (chars "true")) i])
    /\ (take_while is_ident_char (chars "true {") <> [] ->
        chars "true" = take_while is_ident_char (chars "true {")
        /\ inner = [Node Rule.identifier (text (chars "true")) []]).
Proof.
  apply (simple_expression_has_no_boolean (chars "true {") (chars "true")
           [Node Rule.simple_expression "true"
              [Node Rule.identifier "true" []]] (chars " {")).
  vm_compute. reflexivity.
Defined.

(** A number at a digit: it is matched, it gives no pair, and what it takes
    is the digit followed by digits and whitespace. *)
Lemma run_number_digit d s :
  is_digit d = true ->
  exists c r,
    run Grammar.number NonAtomic (d :: s) = Ok (d :: c) [] r
    /\ Forall (fun x => is_digit x || is_ws x = true) c.
Proof.
  intros Hd.
  pose proof (returns_number (length (d :: s)) NonAtomic (d :: s) (le_n _))
    as L.
  unfold Grammar.number in *. rewrite run_silent, run_plus in *.
  rewrite run_ASCII_DIGIT in *. unfold class_step in *. rewrite Hd in *.
  cbn [after_skip skipped] in *.
  destruct (run (star ASCII_DIGIT) NonAtomic (drop_while is_ws s))
    as [c2 t2 r2| |] eqn:E.
  - exists (take_while is_ws s ++ c2), r2.
    assert (Q : t2 = [] /\ Forall (fun x => is_digit x || is_ws x = true) c2).
    { revert E.
      apply (star_Ok (fun c t =>
               t = [] /\ Forall (fun x => is_digit x || is_ws x = true) c)).
      - split; [reflexivity|constructor].
      - intros s0 c1 t1 r1 c3 t3 H1 [-> H3].
        rewrite run_ASCII_DIGIT in H1. unfold class_step in H1.
        destruct s0 as [|x s0]; [discriminate|].
        destruct (is_digit x) eqn:X; [|discriminate].
        injection H1 as <- <- <-. split; [reflexivity|].
        simpl. constructor; [now rewrite X|].
        apply Forall_app. split; [|exact H3].
        eapply Forall_impl; [|apply take_while_all].
        intros y Hy. simpl in Hy. rewrite Hy. apply orb_true_r.
      - intros s0 c1 t1 r1 H1.
        rewrite run_ASCII_DIGIT in H1. unfold class_step in H1.
        destruct s0 as [|x s0]; [discriminate|].
        destruct (is_digit x) eqn:X; [|discriminate].
        injection H1 as <- <- <-. split; [reflexivity|].
        constructor; [now rewrite X|constructor]. }
    destruct Q as [-> Q]. split; [reflexivity|].
    apply Forall_app. split; [|exact Q].
    eapply Forall_impl; [|apply take_while_all].
    intros y Hy. simpl in Hy. rewrite Hy. apply orb_true_r.
  - exfalso. rewrite run_star in E.
    destruct (run ASCII_DIGIT NonAtomic (drop_while is_ws s)); try discriminate.
    destruct (run (repeat (and_then skip ASCII_DIGIT)) NonAtomic rest);
      discriminate.
  - contradiction.
Qed.

(** X4. In a parameter and in a value, numbers and booleans come before names.
    At a digit the rule takes a number, which leaves no pair inside the
    pair of the parameter: a text such as [1abc] is cut after the digits
    and is never one name.  At [true] and [false] it takes the boolean,
    whatever follows the word. *)
Theorem param_number_and_boolean_first :
  (forall d s,
      is_digit d = true ->
      exists c r,
        run Grammar.param NonAtomic (d :: s)
        = Ok (d :: c) [Node Rule.param (text (d :: c)) []] r
        /\ run Grammar.value NonAtomic (d :: s)
           = Ok (d :: c) [Node Rule.value (text (d :: c)) []] r
        /\ Forall (fun x => is_digit x || is_ws x = true) c
        /\ d :: s = (d :: c) ++ r)
  /\ (forall rest,
         run Grammar.param NonAtomic (chars "true" ++ rest)
         = Ok (chars "true")
             [Node Rule.param "true" [Node Rule.boolean "true" []]] rest
         /\ run Grammar.param NonAtomic (chars "false" ++ rest)
            = Ok (chars "false")
                [Node Rule.param "false" [Node Rule.boolean "false" []]] rest
         /\ run Grammar.value NonAtomic (chars "true" ++ rest)
            = Ok (chars "true")
                [Node Rule.value "true" [Node Rule.boolean "true" []]] rest
         /\ run Grammar.value NonAtomic (chars "false" ++ rest)
            = Ok (chars "false")
                [Node Rule.value "false" [Node Rule.boolean "false" []]] rest).
Proof.
  split.
  - intros d s Hd.
    destruct (run_number_digit d s Hd) as (c & r & E & Hc).
    assert (Q : Ascii.eqb QUOTE d = false).
    { destruct (Ascii.eqb QUOTE d) eqn:Q; [|reflexivity].
      apply Ascii.eqb_eq in Q. subst d. discriminate Hd. }
    assert (S0 : run Grammar.string NonAtomic (d :: s) = Err).
    { unfold Grammar.string. rewrite run_silent, !run_seq, run_chr.
      unfold class_step. now rewrite Q. }
    exists c, r.
    assert (P : run Grammar.param NonAtomic (d :: s)
                = Ok (d :: c) [Node Rule.param (text (d :: c)) []] r).
    { unfold Grammar.param. rewrite run_normal, !run_or_else, S0, E.
      reflexivity. }
    split; [exact P|]. split; [|split; [exact Hc|]].
    + unfold Grammar.value. rewrite run_normal, !run_or_else, S0, E.
      reflexivity.
    + now apply consumes_param in P.
  - intros rest. repeat split;
      unfold Grammar.param, Grammar.value, Grammar.string, Grammar.number,
        Grammar.boolean, plus; cbn [chars list_ascii_of_string app];
      repeat run_step; reflexivity.
Qed.

Lemma param_number_and_boolean_first_witness :
  exists c r,
    run Grammar.param NonAtomic (chars "1abc)")
    = Ok ("1"%char :: c) [Node Rule.param (text ("1"%char :: c)) []] r
    /\ chars "1abc)" = ("1"%char :: c) ++ r.
Proof.
  destruct (proj1 param_number_and_boolean_first "1"%char (chars "abc)")
              eq_refl) as (c & r & P & _ & _ & E).
  exists c, r. split; [exact P|exact E].
Defined.

(** X5. A source that does not start with the keyword is rejected at its first
    character, and the error names the workflow rule alone.  Nothing is
    skipped before the keyword: the empty source and a source that starts
    with a space or a line break are such sources. *)
Theorem parse_needs_the_keyword_first :
  forall src,
    match_prefix (chars "workflow") (chars src) = None ->
    parse src
    = Some (inr {| position := 0; expected := [Rule.workflow] |}).
Proof.
  intros src H. unfold parse, parse_with, Grammar.workflow, normal, rule.
  unfold seq at 1 2 3 4 5 6 7. unfold and_then, lit, match_string, match_chars.
  rewrite H. cbn [track]. rewrite Nat.sub_diag. reflexivity.
Qed.

Lemma parse_needs_the_keyword_first_witness :
  parse " workflow w v1 { step s { a() } }"
  = Some (inr {| position := 0; expected := [Rule.workflow] |}).
Proof.
  apply (parse_needs_the_keyword_first " workflow w v1 { step s { a() } }").
  reflexivity.
Defined.

(** X6. The name of a workflow and its version are separated by whitespace.  A
    name takes every letter, digit and underscore that follows, the [v] of
    the version included, so in an accepted source the name ends before
    whitespace.  Nothing has to separate the keyword from the name. *)
Theorem name_and_version_are_separated :
  forall src ps,
    parse src = Some (inl ps) ->
    exists w w1 name w2 rest,
      ps = [w] /\ wf_name w = Some (text name)
      /\ chars src = chars "workflow" ++ w1 ++ name ++ w2 ++ "v"%char :: rest
      /\ Forall (fun c => is_ws c = true) w1
      /\ name <> [] /\ Forall (fun c => is_ident_char c = true) name
      /\ w2 <> [] /\ Forall (fun c => is_ws c = true) w2.
Proof.
  intros src ps H.
  apply parse_Ok in H as (c & r & H).
  unfold Grammar.workflow in H.
  apply normal_Ok in H as (t' & H & ->).
  apply seq_Ok in H as (c1 & t1 & r1 & c2 & stick & H & _ & -> & ->).
  apply seq_Ok in H as (c3 & t3 & r3 & c4 & auth & H & _ & -> & ->).
  apply seq_Ok in H as (c5 & t5 & r5 & c6 & t6 & H & _ & -> & ->).
  apply seq_Ok in H as (c7 & t7 & r7 & c8 & steps & H & _ & -> & ->).
  apply seq_Ok in H as (c9 & t9 & r9 & c10 & t10 & H & _ & -> & ->).
  apply seq_Ok in H as (c11 & t11 & r11 & cv & tv & H & Hv & -> & ->).
  apply seq_Ok in H as (c13 & t13 & r13 & cn & tn & Hkw & Hn & -> & ->).
  apply lit_Ok in Hkw as (-> & -> & Hsrc).
  pose proof (identifier_Ok _ _ _ _ Hn) as ->.
  rewrite run_identifier in Hn. cbn [after_skip skipped] in *.
  destruct (take_while is_ident_char (drop_while is_ws r13)) as [|n0 n]
    eqn:Tn; [discriminate|].
  injection Hn as <- _ <-.
  unfold Grammar.version in Hv.
  apply normal_Ok in Hv as (tv' & Hv & ->).
  apply seq_Ok in Hv as (ca & ta & ra & cb & tb & Hv & _ & _ & _).
  apply seq_Ok in Hv as (cc & tc & rest & cd & td & Hv & _ & _ & _).
  apply lit_Ok in Hv as (_ & _ & Hv). cbn [chars list_ascii_of_string app] in Hv.
  set (rn := drop_while is_ident_char (drop_while is_ws r13)) in *.
  eexists.
  exists (take_while is_ws r13), (n0 :: n), (take_while is_ws rn), rest.
  split; [reflexivity|]. split; [reflexivity|].
  split; [|split; [apply take_while_all|split; [discriminate|split;
    [rewrite <- Tn; apply take_while_all|split; [|apply take_while_all]]]]].
  - rewrite Hsrc. f_equal.
    rewrite <- (take_drop_while is_ws r13) at 1. f_equal.
    rewrite <- (take_drop_while is_ident_char (drop_while is_ws r13)) at 1.
    rewrite Tn. fold rn. f_equal.
    rewrite <- (take_drop_while is_ws rn) at 1. now rewrite Hv.
  - intros E. pose proof (take_drop_while is_ws rn) as D.
    rewrite E, Hv in D. cbn [app] in D.
    symmetry in D. unfold rn in D. apply drop_while_head in D. discriminate D.
Qed.

Lemma name_and_version_are_separated_witness :
  exists w w1 name w2 rest,
    parse "workflowdigest v1{step s{a()}}" = Some (inl [w])
    /\ wf_name w = Some (text name)
    /\ chars "workflowdigest v1{step s{a()}}"
       = chars "workflow" ++ w1 ++ name ++ w2 ++ "v"%char :: rest
    /\ w2 <> [].
Proof.
  destruct (name_and_version_are_separated
              "workflowdigest v1{step s{a()}}" _ eq_refl)
    as (w & w1 & name & w2 & rest & E & N & S & _ & _ & _ & W2 & _).
  injection E as <-.
  eexists; exists w1, name, w2, rest.
  split; [reflexivity|]. split; [exact N|]. split; [exact S|exact W2].
Defined.

(** ** The delimiter of a split *)

(** One character of the body of a delimiter. *)
Lemma run_delimiter_element x r :
  is_ws x = false ->
  run (seq (not_ (chr QUOTE)) ANY) NonAtomic (x :: r)
  = if Ascii.eqb QUOTE x then Err else Ok [x] [] r.
Proof.
  intros W. rewrite run_seq, run_not_, run_chr.
  cbn [class_step]. destruct (Ascii.eqb QUOTE x); [reflexivity|].
  cbn [after_skip skipped drop_while take_while]. rewrite W, run_ANY.
  reflexivity.
Qed.

Lemma no_quote_drop_ws b :
  forallb (fun x => negb (Ascii.eqb QUOTE x)) b = true ->
  forallb (fun x => negb (Ascii.eqb QUOTE x)) (drop_while is_ws b) = true.
Proof.
  induction b as [|x b IH]; [reflexivity|].
  intros H. cbn [forallb] in H. apply andb_true_iff in H as [Hx Hb].
  cbn [drop_while]. destruct (is_ws x); [now apply IH|].
  cbn [forallb]. now rewrite Hx, Hb.
Qed.

Lemma run_delimiter_elements n :
  forall b rest,
    forallb (fun x => negb (Ascii.eqb QUOTE x)) b = true -> length b < n ->
    exists c w,
      run (repeat_n n (and_then skip (seq (not_ (chr QUOTE)) ANY))) NonAtomic
        (b ++ QUOTE :: rest)
      = Ok c [] (w ++ QUOTE :: rest)
      /\ c ++ w = b /\ Forall (fun x => is_ws x = true) w.
Proof.
  induction n as [|n IH]; intros b rest Hb Hn; [lia|].
  rewrite run_repeat_n, run_and_then, run_skip.
  assert (Q : is_ws QUOTE = false) by reflexivity.
  cbn [skipped after_skip].
  rewrite (take_while_until is_ws b QUOTE rest Q),
    (drop_while_until is_ws b QUOTE rest Q).
  pose proof (take_drop_while is_ws b) as Eb.
  pose proof (take_while_all is_ws b) as Wb.
  apply no_quote_drop_ws in Hb.
  assert (Ln : length (drop_while is_ws b) <= length b)
    by apply drop_while_length.
  destruct (drop_while is_ws b) as [|x b2] eqn:D.
  - cbn [app]. rewrite run_delimiter_element by exact Q.
    replace (Ascii.eqb QUOTE QUOTE) with true by reflexivity.
    rewrite app_nil_r in Eb. rewrite Eb in Wb.
    exists [], b. repeat split. exact Wb.
  - pose proof (drop_while_head _ _ _ _ D) as W.
    cbn [app]. rewrite run_delimiter_element by exact W.
    cbn [forallb] in Hb. apply andb_true_iff in Hb as [Hx Hb2].
    apply negb_true_iff in Hx. rewrite Hx.
    simpl in Ln.
    destruct (IH b2 rest Hb2) as (c & w & E & Ec & Hw); [lia|].
    cbv beta iota. rewrite E.
    exists ((take_while is_ws b ++ [x]) ++ c), w.
    split; [reflexivity|]. split; [|exact Hw].
    rewrite <- !app_assoc, Ec. exact Eb.
Qed.

(** X7. A delimiter whose body holds no quote is matched whole, up to the quote
    that closes it.  A backslash is a character like any other: a body may
    hold one and may end with one. *)
Theorem delimiter_takes_body_without_quote :
  forall b rest,
    forallb (fun x => negb (Ascii.eqb QUOTE x)) b = true ->
    run Grammar.delimiter NonAtomic (QUOTE :: b ++ QUOTE :: rest)
    = Ok (QUOTE :: b ++ [QUOTE])
        [Node Rule.delimiter (text (QUOTE :: b ++ [QUOTE])) []] rest.
Proof.
  intros b rest Hb.
  assert (Q : is_ws QUOTE = false) by reflexivity.
  unfold Grammar.delimiter.
  rewrite run_normal, run_seq, run_seq, run_chr. cbn [class_step].
  replace (Ascii.eqb QUOTE QUOTE) with true by reflexivity.
  cbn [after_skip skipped]. cbv beta iota.
  rewrite (take_while_until is_ws b QUOTE rest Q),
    (drop_while_until is_ws b QUOTE rest Q).
  pose proof (take_drop_while is_ws b) as Eb.
  apply no_quote_drop_ws in Hb.
  assert (E : exists c w,
             run (star (seq (not_ (chr QUOTE)) ANY)) NonAtomic
               (drop_while is_ws b ++ QUOTE :: rest)
             = Ok c [] (w ++ QUOTE :: rest)
             /\ c ++ w = drop_while is_ws b
             /\ Forall (fun x => is_ws x = true) w).
  { rewrite run_star.
    destruct (drop_while is_ws b) as [|x b2] eqn:D.
    - cbn [app]. rewrite run_delimiter_element by exact Q.
      replace (Ascii.eqb QUOTE QUOTE) with true by reflexivity.
      exists [], []. repeat split. constructor.
    - pose proof (drop_while_head _ _ _ _ D) as W.
      cbn [app]. rewrite run_delimiter_element by exact W.
      cbn [forallb] in Hb. apply andb_true_iff in Hb as [Hx Hb2].
      apply negb_true_iff in Hx. rewrite Hx.
      destruct (run_delimiter_elements (S (length (b2 ++ QUOTE :: rest)))
                  b2 rest Hb2) as (c & w & E & Ec & Hw);
        [rewrite length_app; simpl; lia|].
      unfold repeat. unfold run in E |- *. rewrite E.
      exists ([x] ++ c), w.
      split; [reflexivity|]. split; [|exact Hw]. now rewrite <- Ec. }
  destruct E as (c & w & E & Ec & Hw).
  rewrite E. cbv beta iota.
  rewrite (take_while_app is_ws w QUOTE rest Hw Q),
    (drop_while_app is_ws w QUOTE rest Hw Q), run_chr.
  cbn [class_step].
  replace (Ascii.eqb QUOTE QUOTE) with true by reflexivity.
  assert (T : ([QUOTE] ++ take_while is_ws b ++ c) ++ w ++ [QUOTE]
              = QUOTE :: b ++ [QUOTE]).
  { rewrite <- Eb at 2. rewrite <- Ec, <- !app_assoc. reflexivity. }
  rewrite T. reflexivity.
Qed.

Lemma delimiter_takes_body_without_quote_witness :
  run Grammar.delimiter NonAtomic
    (QUOTE :: [BACKSLASH] ++ QUOTE :: chars ")")
  = Ok (QUOTE :: [BACKSLASH] ++ [QUOTE])
      [Node Rule.delimiter (text (QUOTE :: [BACKSLASH] ++ [QUOTE])) []]
      (chars ")").
Proof.
  apply (delimiter_takes_body_without_quote [BACKSLASH] (chars ")")).
  reflexivity.
Defined.

(** ** String literals *)

(** X8. A string literal whose body escapes every quote it holds is matched
    whole wherever a string literal may stand: as a parameter, as a value
    and as a simple expression.  The pair of the place has no pair inside,
    and its text is the literal with its quotes. *)
Theorem string_literal_with_escaped_quotes :
  forall b rest,
    escaped_body b = true ->
    let l := QUOTE :: b ++ [QUOTE] in
    run Grammar.string NonAtomic (QUOTE :: b ++ QUOTE :: rest) = Ok l [] rest
    /\ run Grammar.param NonAtomic (QUOTE :: b ++ QUOTE :: rest)
       = Ok l [Node Rule.param (text l) []] rest
    /\ run Grammar.value NonAtomic (QUOTE :: b ++ QUOTE :: rest)
       = Ok l [Node Rule.value (text l) []] rest
    /\ run Grammar.simple_expression NonAtomic (QUOTE :: b ++ QUOTE :: rest)
       = Ok l [Node Rule.simple_expression (text l) []] rest.
Proof.
  intros b rest Hb l.
  pose proof (run_string_escaped b rest Hb) as E. fold l in E.
  split; [exact E|]. split; [|split].
  - unfold Grammar.param. now rewrite run_normal, !run_or_else, E.
  - unfold Grammar.value. now rewrite run_normal, !run_or_else, E.
  - unfold Grammar.simple_expression.
    rewrite run_normal, !run_or_else, E, run_identifier.
    unfold Grammar.number, Grammar.boolean, plus.
    cbn [take_while is_ident_char is_alnum].
    replace (is_ident_char QUOTE) with false by reflexivity.
    repeat run_step. reflexivity.
Qed.

Lemma string_literal_with_escaped_quotes_witness :
  run Grammar.param NonAtomic
    (QUOTE :: chars "say " ++ [BACKSLASH; QUOTE] ++ chars "hi"
       ++ [BACKSLASH; QUOTE; QUOTE; ")"%char])
  = Ok (QUOTE :: (chars "say " ++ [BACKSLASH; QUOTE] ++ chars "hi"
                    ++ [BACKSLASH; QUOTE]) ++ [QUOTE])
      [Node Rule.param
         (text (QUOTE :: (chars "say " ++ [BACKSLASH; QUOTE] ++ chars "hi"
                            ++ [BACKSLASH; QUOTE]) ++ [QUOTE])) []]
      [")"%char].
Proof.
  apply (string_literal_with_escaped_quotes
           (chars "say " ++ [BACKSLASH; QUOTE] ++ chars "hi"
              ++ [BACKSLASH; QUOTE]) [")"%char] eq_refl).
Defined.

(** ** Split expressions *)

Lemma match_prefix_split_gap w rest :
  w <> [] -> Forall (fun c => is_ws c = true) w ->
  match_prefix (chars ".split(") (chars ".split" ++ w ++ rest) = None.
Proof.
  intros Hw Hall. destruct w as [|c w]; [contradiction|].
  inversion Hall as [|? ? Hc _]; subst.
  cbn [chars list_ascii_of_string app match_prefix].
  rewrite !Ascii.eqb_refl.
  destruct (Ascii.eqb "(" c) eqn:E; [|reflexivity].
  apply Ascii.eqb_eq in E. subst c. discriminate Hc.
Qed.

(** X9. [.split(] is one token: whitespace between [.split] and its parenthesis
    is not skipped.  A split of a name written [x.split (...)] is rejected,
    and so is the for loop over it, whose other form, the range, does not
    match either. *)
Theorem split_keeps_its_parenthesis :
  forall x w rest,
    x <> [] -> Forall (fun c => is_ident_char c = true) x ->
    w <> [] -> Forall (fun c => is_ws c = true) w ->
    run Grammar.split_expression NonAtomic (x ++ chars ".split" ++ w ++ rest)
    = Err
    /\ forall f v w1 w2 w3,
        v <> [] -> Forall (fun c => is_ident_char c = true) v ->
        Forall (fun c => is_ws c = true) w1 ->
        w2 <> [] -> Forall (fun c => is_ws c = true) w2 ->
        Forall (fun c => is_ws c = true) w3 ->
        run (Grammar.for_loop (S f)) NonAtomic
          (chars "for" ++ w1 ++ v ++ w2 ++ chars "in" ++ w3
             ++ x ++ chars ".split" ++ w ++ rest) = Err.
Proof.
  intros x w rest Hx Hall Hw Hws.
  assert (N : take_while is_ident_char (chars ".split" ++ w ++ rest) = [])
    by reflexivity.
  assert (S1 : run Grammar.split_expression NonAtomic
                 (x ++ chars ".split" ++ w ++ rest) = Err).
  { unfold Grammar.split_expression, Grammar.register.
    rewrite run_normal, !run_seq, !run_or_else, run_normal, run_seq, run_lit.
    destruct x as [|x0 x']; [contradiction|].
    assert (D : match_prefix (chars "$") ((x0 :: x') ++ chars ".split" ++ w ++ rest)
                = None).
    { cbn [chars list_ascii_of_string app match_prefix].
      destruct (Ascii.eqb "$" x0) eqn:E; [|reflexivity].
      apply Ascii.eqb_eq in E. subst x0. inversion Hall; discriminate. }
    rewrite D. cbv beta iota.
    rewrite run_identifier_app by assumption.
    cbn [after_skip skipped drop_while take_while chars list_ascii_of_string
           app is_ws].
    replace (is_ws ".") with false by reflexivity. cbv beta iota.
    rewrite run_lit.
    change ("."%char :: "s"%char :: "p"%char :: "l"%char :: "i"%char
              :: "t"%char :: w ++ rest)
      with (chars ".split" ++ w ++ rest).
    now rewrite match_prefix_split_gap. }
  split; [exact S1|].
  intros f v w1 w2 w3 Hv Hvall Hw1 Hw2 Hw2all Hw3.
  rewrite for_loop_S, run_normal, !run_seq, run_lit_app.
  cbn [after_skip skipped].
  destruct (Forall_ws_take w1 (v ++ w2 ++ chars "in" ++ w3 ++ x
                                 ++ chars ".split" ++ w ++ rest) Hw1
              (name_not_ws v _ Hv Hvall)) as [-> ->].
  rewrite run_identifier_app; [|assumption|assumption|].
  2:{ destruct w2 as [|a w2]; [contradiction|].
      inversion Hw2all; subst. cbn [app take_while].
      destruct (is_ident_char a) eqn:E; [|reflexivity].
      apply ident_char_not_ws in E. congruence. }
  cbn [leaf].
  destruct (Forall_ws_take w2 (chars "in" ++ w3 ++ x
                                 ++ chars ".split" ++ w ++ rest) Hw2all
              eq_refl) as [-> ->].
  rewrite run_lit_app.
  destruct (Forall_ws_take w3 (x ++ chars ".split" ++ w ++ rest) Hw3
              (name_not_ws x _ Hx Hall)) as [-> ->].
  rewrite run_or_else, S1.
  unfold Grammar.range_expression.
  rewrite run_normal, !run_seq, run_identifier_app by assumption.
  cbn [after_skip skipped drop_while take_while chars list_ascii_of_string
         app is_ws].
  replace (is_ws ".") with false by reflexivity. cbv beta iota.
  rewrite run_lit. reflexivity.
Qed.

Lemma split_keeps_its_parenthesis_witness :
  run Grammar.split_expression NonAtomic
    (chars "items.split (" ++ [QUOTE; ","%char; QUOTE; ")"%char])
  = Err.
Proof.
  apply (split_keeps_its_parenthesis (chars "items") (chars " ")
           ("("%char :: [QUOTE; ","%char; QUOTE; ")"%char])).
  - discriminate.
  - repeat constructor.
  - discriminate.
  - repeat constructor.
Defined.

(** ** Names *)

(** X10. An identifier is the longest run of letters, digits and underscores at
    the place where it is read, and it is not empty: the rule fails exactly
    where no such character stands.  It is atomic, so no whitespace is
    skipped inside it, and a name ends at the first space, dot or hyphen. *)
Theorem identifier_is_the_longest_run :
  forall a s,
    (run Grammar.identifier a s = Err <-> take_while is_ident_char s = [])
    /\ forall c t r,
        run Grammar.identifier a s = Ok c t r ->
        c <> [] /\ s = c ++ r
        /\ Forall (fun x => is_ident_char x = true) c
        /\ Forall (fun x => is_ws x = false) c
        /\ match r with
           | [] => True
           | x :: _ => is_ident_char x = false
           end.
Proof.
  intros a s. rewrite run_identifier.
  pose proof (take_drop_while is_ident_char s) as E.
  pose proof (take_while_all is_ident_char s) as A.
  destruct (take_while is_ident_char s) as [|y0 y] eqn:T.
  - split; [split; reflexivity|]. discriminate.
  - split; [split; discriminate|].
    intros c t r H. injection H as <- _ <-.
    split; [discriminate|]. split; [now symmetry|]. split; [exact A|].
    split.
    + eapply Forall_impl; [|exact A]. intros x. apply ident_char_not_ws.
    + destruct (drop_while is_ident_char s) as [|x r] eqn:D; [exact I|].
      eapply drop_while_head; eauto.
Qed.

Lemma identifier_is_the_longest_run_witness :
  chars "my" <> [] /\ chars "my-step {" = chars "my" ++ chars "-step {"
  /\ Forall (fun x => is_ident_char x = true) (chars "my")
  /\ Forall (fun x => is_ws x = false) (chars "my")
  /\ is_ident_char "-" = false.
Proof.
  apply (proj2 (identifier_is_the_longest_run NonAtomic (chars "my-step {"))
           (chars "my") [Node Rule.identifier "my" []] (chars "-step {")).
  vm_compute. reflexivity.
Defined.

(** ** Nested conditions *)

Lemma run_repeat_stop p a s :
  run p a s = Err -> run (repeat p) a s = Ok [] [] s.
Proof.
  intros H. unfold repeat.
  change (run (repeat_n (S (length s)) p) a s = Ok [] [] s).
  now rewrite run_repeat_n, H.
Qed.

(** No statement starts at a closing brace. *)
Lemma run_statement_brace f rest :
  run (or_else (or_else (or_else (Grammar.condition (S f))
                           Grammar.register_operation) Grammar.action)
         (Grammar.for_loop (S f))) NonAtomic ("}"%char :: rest) = Err.
Proof.
  rewrite condition_S, for_loop_S.
  unfold Grammar.register_operation, Grammar.register, Grammar.action,
    Grammar.external_fn_call, Grammar.command.
  repeat run_step. reflexivity.
Qed.

Lemma run_body_one f s c t rest :
  run (or_else (or_else (or_else (Grammar.condition (S f))
                           Grammar.register_operation) Grammar.action)
         (Grammar.for_loop (S f))) NonAtomic s = Ok c t ("}"%char :: rest) ->
  run (Grammar.step_body (S (S f))) NonAtomic s
  = Ok c [Node Rule.step_body (text c) t] ("}"%char :: rest).
Proof.
  intros H. rewrite step_body_S, run_normal, run_plus, H.
  cbn [after_skip skipped drop_while take_while is_ws].
  replace (is_ws "}") with false by reflexivity. cbv beta iota.
  rewrite run_star, run_statement_brace. cbn. now rewrite !app_nil_r.
Qed.

Lemma run_nested n :
  forall f rest,
    2 * n <= f ->
    exists t,
      run (Grammar.step_body (S (S f))) NonAtomic
        (nested n ++ "}"%char :: rest)
      = Ok (nested n) t ("}"%char :: rest).
Proof.
  induction n as [|n IH]; intros f rest Hf.
  - eexists. apply run_body_one.
    rewrite condition_S.
    unfold Grammar.register_operation, Grammar.register, Grammar.action,
      Grammar.external_fn_call, Grammar.command, Grammar.param,
      Grammar.string, Grammar.number, Grammar.boolean, Grammar.expression,
      Grammar.range_expression, Grammar.simple_expression, plus.
    cbn [nested chars list_ascii_of_string app].
    repeat run_step. reflexivity.
  - destruct f as [|[|f]]; [lia|lia|].
    destruct (IH f ("}"%char :: rest)) as [t E]; [lia|].
    assert (I : nested (S n) ++ "}"%char :: rest
                = "i"%char :: "f"%char :: " "%char :: "x"%char :: "{"%char
                    :: nested n ++ "}"%char :: "}"%char :: rest).
    { cbn [nested chars list_ascii_of_string app].
      now rewrite <- app_assoc. }
    rewrite I.
    eexists. apply run_body_one.
    rewrite run_or_else, run_or_else, run_or_else, condition_S.
    rewrite run_normal, !run_seq.
    rewrite run_lit. cbn [chars list_ascii_of_string match_prefix].
    rewrite !Ascii.eqb_refl.
    cbn [after_skip skipped drop_while take_while].
    replace (is_ws " ") with true by reflexivity.
    replace (is_ws "x") with false by reflexivity.
    cbv beta iota.
    assert (X : run Grammar.expression NonAtomic
                  ("x"%char :: "{"%char
                     :: nested n ++ "}"%char :: "}"%char :: rest)
                = Ok (chars "x")
                    [Node Rule.expression "x"
                       [Node Rule.simple_expression "x"
                          [Node Rule.identifier "x" []]]]
                    ("{"%char :: nested n ++ "}"%char :: "}"%char :: rest)).
    { unfold Grammar.expression, Grammar.range_expression,
        Grammar.simple_expression, Grammar.comparison_operator.
      repeat run_step. reflexivity. }
    rewrite X. cbv beta iota.
    cbn [drop_while take_while].
    replace (is_ws "{") with false by reflexivity. cbv beta iota.
    rewrite run_lit. cbn [chars list_ascii_of_string match_prefix].
    rewrite !Ascii.eqb_refl. cbv beta iota.
    assert (W : take_while is_ws (nested n ++ "}"%char :: "}"%char :: rest) = []
                /\ drop_while is_ws (nested n ++ "}"%char :: "}"%char :: rest)
                   = nested n ++ "}"%char :: "}"%char :: rest).
    { destruct n; split; reflexivity. }
    destruct W as [-> ->].
    rewrite E. cbv beta iota. cbn [drop_while take_while].
    replace (is_ws "}") with false by reflexivity. cbv beta iota.
    rewrite run_lit. cbn [chars list_ascii_of_string match_prefix].
    rewrite !Ascii.eqb_refl. cbv beta iota.
    cbn [app]. reflexivity.
Qed.

Lemma nested_starts n rest :
  take_while is_ws (nested n ++ rest) = []
  /\ drop_while is_ws (nested n ++ rest) = nested n ++ rest.
Proof. destruct n; split; reflexivity. Qed.

Lemma length_nested n : length (nested n) = 6 * n + 3.
Proof.
  induction n as [|n IH]; [reflexivity|].
  cbn [nested]. rewrite !length_app, IH. cbn. lia.
Qed.

Arguments Grammar.step_body : simpl never.

Lemma run_workflow_nested n f :
  2 * n <= f ->
  exists t,
    run (Grammar.workflow (S (S f))) NonAtomic
      (chars "workflow w v1{step s{" ++ nested n ++ chars "}}")
    = Ok (chars "workflow w v1{step s{" ++ nested n ++ chars "}}") t [].
Proof.
  intros Hf.
  destruct (run_nested n f (chars "}") Hf) as [t E].
  unfold Grammar.workflow, Grammar.version, Grammar.author_tag, Grammar.step,
    plus.
  cbn [chars list_ascii_of_string app] in *.
  repeat run_step.
  rewrite (proj2 (nested_starts n _)), E. cbv beta iota.
  repeat run_step.
  rewrite (proj1 (nested_starts n _)).
  eexists. f_equal. cbn [app]. rewrite !app_nil_r, <- !app_assoc. reflexivity.
Qed.

(** X11. Conditions nest to any depth: a step whose body is one action inside
    [n] conditions is accepted, and the workflow rule matches the whole
    source. *)
Theorem conditions_nest_to_any_depth :
  forall n,
    exists w,
      parse (text (chars "workflow w v1{step s{" ++ nested n ++ chars "}}"))
      = Some (inl [w])
      /\ as_str w
         = text (chars "workflow w v1{step s{" ++ nested n ++ chars "}}").
Proof.
  intros n. unfold parse, parse_with.
  rewrite chars_text.
  assert (L : String.length
                (text (chars "workflow w v1{step s{" ++ nested n ++ chars "}}"))
              = S (6 * n + 25)).
  { rewrite <- length_chars, chars_text, !length_app, length_nested.
    cbn. lia. }
  rewrite L.
  destruct (run_workflow_nested n (6 * n + 25) ltac:(lia)) as [t E].
  pose proof E as E'. apply normal_Ok in E' as (t' & _ & ->).
  unfold run in E.
  destruct (Grammar.workflow (S (S (6 * n + 25))) NonAtomic
              (chars "workflow w v1{step s{" ++ nested n ++ chars "}}"))
    as [res l].
  cbn [fst] in E. subst res.
  eexists. split; reflexivity.
Qed.


(** ** The spans of the pairs *)

Create HintDb spans.

Lemma spans_weaken h p : spans true p -> spans h p.
Proof. intros H s c t r E. apply H in E as [E1 E2]. auto. Qed.

Lemma spans_match_chars h l :
  starts_tight l = true -> spans h (match_chars l).
Proof.
  intros Hl s c t r. rewrite run_match_chars.
  destruct (match_prefix l s); [|discriminate].
  intros H; injection H as <- <- <-. auto.
Qed.

Lemma spans_lit h l : starts_tight (chars l) = true -> spans h (lit l).
Proof. apply spans_match_chars. Qed.

Lemma spans_chr h c : is_ws c = false -> spans h (chr c).
Proof. intros H. apply spans_match_chars. cbn. now rewrite H. Qed.

Lemma spans_class h f p :
  (forall s, run p NonAtomic s = class_step f s) ->
  (forall x, f x = true -> is_ws x = false) -> spans h p.
Proof.
  intros Hp Hf s c t r. rewrite Hp. unfold class_step.
  destruct s as [|x s]; [discriminate|].
  destruct (f x) eqn:E; [|discriminate].
  intros H; injection H as <- <- <-. cbn. rewrite (Hf x E). auto.
Qed.

Lemma spans_ASCII_DIGIT h : spans h ASCII_DIGIT.
Proof.
  apply spans_class with (f := is_digit);
    [intros; apply run_ASCII_DIGIT|apply digit_not_ws].
Qed.

Lemma spans_ANY : spans false ANY.
Proof.
  intros s c t r. rewrite run_ANY. unfold class_step.
  destruct s; [discriminate|]. intros H; injection H as <- <- <-.
  split; [discriminate|reflexivity].
Qed.

Lemma spans_not_ h p : spans h (not_ p).
Proof.
  intros s c t r. rewrite run_not_.
  destruct (run p NonAtomic s); try discriminate.
  intros H; injection H as <- <- <-. auto.
Qed.

Lemma spans_seq h p q :
  consumes 1 p -> spans h p -> spans false q -> spans h (seq p q).
Proof.
  intros Cp Hp Hq s c t r H.
  apply seq_Ok in H as (c1 & t1 & r1 & c2 & t2 & H1 & H2 & -> & ->).
  pose proof (Cp _ _ _ _ _ H1) as [_ L].
  apply Hp in H1 as [T1 P1]. apply Hq in H2 as [_ P2].
  split.
  - intros Hh. destruct c1 as [|x c1]; [simpl in L; lia|]. now apply T1.
  - rewrite forallb_app. now rewrite P1, P2.
Qed.

Lemma spans_seq_inner p q :
  spans false p -> spans false q -> spans false (seq p q).
Proof.
  intros Hp Hq s c t r H.
  apply seq_Ok in H as (c1 & t1 & r1 & c2 & t2 & H1 & H2 & -> & ->).
  apply Hp in H1 as [_ P1]. apply Hq in H2 as [_ P2].
  split; [discriminate|]. rewrite forallb_app. now rewrite P1, P2.
Qed.

Lemma spans_or_else h p q : spans h p -> spans h q -> spans h (or_else p q).
Proof.
  intros Hp Hq s c t r H.
  apply or_else_Ok in H as [H|[_ H]]; [now apply Hp in H|now apply Hq in H].
Qed.

Lemma spans_opt p : spans false p -> spans false (opt p).
Proof.
  intros Hp s c t r H.
  apply opt_Ok in H as [H|(_ & -> & -> & _)]; [now apply Hp in H|].
  split; [discriminate|reflexivity].
Qed.

Lemma spans_star p : spans false p -> spans false (star p).
Proof.
  intros Hp s c t r H. split; [discriminate|]. revert H.
  apply (star_Ok (fun _ t => forallb well_spanned t = true)).
  - reflexivity.
  - intros s0 c1 t1 r1 c2 t2 H1 H2. apply Hp in H1 as [_ P1].
    rewrite forallb_app. now rewrite P1, H2.
  - intros s0 c1 t1 r1 H1. now apply Hp in H1.
Qed.

Lemma spans_plus h p : consumes 1 p -> spans h p -> spans h (plus p).
Proof.
  intros Cp Hp. unfold plus. apply spans_seq; [exact Cp|exact Hp|].
  apply spans_star. intros s c t r H. apply Hp in H as [_ P].
  split; [discriminate|exact P].
Qed.

Lemma spans_false h p : spans h p -> spans false p.
Proof.
  intros Hp s c t r H. apply Hp in H as [_ P]. split; [discriminate|exact P].
Qed.

(** The pair of a rule: its text is what the rule consumed. *)
Lemma spans_normal h r p :
  consumes 1 p -> spans true p -> spans h (normal r p).
Proof.
  intros Cp Hp s c t rest H.
  apply normal_Ok in H as (t' & H & ->).
  pose proof (Cp _ _ _ _ _ H) as [_ L].
  apply Hp in H as [T P]. specialize (T eq_refl).
  split; [auto|].
  cbn. rewrite chars_text, T, P.
  destruct c; [simpl in L; lia|]. now rewrite orb_true_r.
Qed.

Lemma spans_silent h p : spans h p -> spans h (silent p).
Proof. exact (fun H => H). Qed.

Lemma spans_diverge h : spans h diverge.
Proof. intros s c t r H; discriminate. Qed.

Lemma spans_identifier h : spans h Grammar.identifier.
Proof.
  intros s c t r. rewrite run_identifier.
  pose proof (take_while_all is_ident_char s) as A.
  destruct (take_while is_ident_char s) as [|x y]; [discriminate|].
  intros H; injection H as <- <- <-.
  inversion A as [|? ? Hx _]; subst. apply ident_char_not_ws in Hx.
  cbn. rewrite Hx. auto.
Qed.

Lemma spans_identity h : spans h Grammar.identity.
Proof.
  intros s c t r. rewrite run_identity.
  pose proof (take_while_all is_identity_char s) as A.
  intros H; injection H as <- <- <-.
  destruct (take_while is_identity_char s) as [|x y]; [cbn; auto|].
  inversion A as [|? ? Hx _]; subst. apply identity_char_not_ws in Hx.
  cbn. rewrite Hx. auto.
Qed.

Lemma spans_sticky_tag h : spans h Grammar.sticky_tag.
Proof.
  intros s c t r. rewrite run_sticky_tag.
  destruct (match_prefix (chars "sticky") s); [|discriminate].
  intros H; injection H as <- <- <-. cbn. auto.
Qed.

#[global] Hint Resolve spans_seq spans_or_else spans_opt spans_star
  spans_plus spans_normal spans_silent spans_diverge spans_not_
  spans_identifier spans_identity spans_sticky_tag spans_ASCII_DIGIT
  spans_ANY spans_seq_inner : spans.
#[global] Hint Extern 1 (spans _ (lit _)) =>
  apply spans_lit; reflexivity : spans.
#[global] Hint Extern 1 (spans _ (chr _)) =>
  apply spans_chr; reflexivity : spans.
#[global] Hint Extern 1 (spans _ (match_chars _)) =>
  apply spans_match_chars; reflexivity : spans.
#[global] Hint Extern 2 (consumes _ _) => solve [auto 30 with pest] : spans.

Ltac spans_rule :=
  unfold Grammar.number, Grammar.boolean, Grammar.delimiter, Grammar.string,
    Grammar.author_tag, Grammar.version, Grammar.register,
    Grammar.split_expression, Grammar.value, Grammar.comparison_operator,
    Grammar.param, Grammar.external_fn_call, Grammar.register_operation,
    Grammar.range_expression, Grammar.simple_expression, Grammar.expression,
    Grammar.command, Grammar.action, Grammar.step, Grammar.workflow;
  auto 40 with spans.

Lemma spans_number h : spans h Grammar.number.
Proof. spans_rule. Qed.
Lemma spans_boolean h : spans h Grammar.boolean.
Proof. spans_rule. Qed.
Lemma spans_delimiter h : spans h Grammar.delimiter.
Proof. spans_rule. Qed.
Lemma spans_string h : spans h Grammar.string.
Proof. spans_rule. Qed.

#[global] Hint Resolve spans_number spans_boolean spans_delimiter
  spans_string : spans.

Lemma spans_author_tag h : spans h Grammar.author_tag.
Proof. spans_rule. Qed.
Lemma spans_version h : spans h Grammar.version.
Proof. spans_rule. Qed.
Lemma spans_register h : spans h Grammar.register.
Proof. spans_rule. Qed.

#[global] Hint Resolve spans_author_tag spans_version spans_register : spans.

Lemma spans_split_expression h : spans h Grammar.split_expression.
Proof. spans_rule. Qed.
Lemma spans_value h : spans h Grammar.value.
Proof. spans_rule. Qed.
Lemma spans_comparison_operator h : spans h Grammar.comparison_operator.
Proof. spans_rule. Qed.
Lemma spans_param h : spans h Grammar.param.
Proof. spans_rule. Qed.

#[global] Hint Resolve spans_split_expression spans_value
  spans_comparison_operator spans_param : spans.

Lemma spans_external_fn_call h : spans h Grammar.external_fn_call.
Proof. spans_rule. Qed.
Lemma spans_range_expression h : spans h Grammar.range_expression.
Proof. spans_rule. Qed.
Lemma spans_simple_expression h : spans h Grammar.simple_expression.
Proof. spans_rule. Qed.
Lemma spans_command h : spans h Grammar.command.
Proof. spans_rule. Qed.

#[global] Hint Resolve spans_external_fn_call spans_range_expression
  spans_simple_expression spans_command : spans.

Lemma spans_register_operation h : spans h Grammar.register_operation.
Proof. spans_rule. Qed.
Lemma spans_expression h : spans h Grammar.expression.
Proof. spans_rule. Qed.
Lemma spans_action h : spans h Grammar.action.
Proof. spans_rule. Qed.

#[global] Hint Resolve spans_register_operation spans_expression
  spans_action : spans.

Lemma spans_recursive f :
  (forall h, spans h (Grammar.step_body f))
  /\ (forall h, spans h (Grammar.condition f))
  /\ (forall h, spans h (Grammar.for_loop f)).
Proof.
  induction f as [|f (IHs & IHc & IHf)].
  - split; [|split]; intros h; exact (spans_diverge h).
  - rewrite step_body_S, condition_S, for_loop_S.
    split; [|split]; intros h; auto 40 with spans.
Qed.

Lemma spans_step f h : spans h (Grammar.step f).
Proof.
  pose proof (proj1 (spans_recursive f)) as Hb.
  unfold Grammar.step. auto 40 with spans.
Qed.

Lemma spans_workflow f h : spans h (Grammar.workflow f).
Proof.
  pose proof (spans_step f) as Hs.
  unfold Grammar.workflow. auto 40 with spans.
Qed.

(** X12. Every pair of an accepted source starts at a token and is not empty.
    The text of a pair never starts with whitespace, although it may end
    with whitespace, and the identity of an author tag is the one pair
    whose text may be empty. *)
Theorem pairs_start_at_a_token :
  forall src ps,
    parse src = Some (inl ps) -> forallb well_spanned ps = true.
Proof.
  intros src ps H. apply parse_Ok in H as (c & r & H).
  now apply (spans_workflow _ true) in H.
Qed.

Lemma pairs_start_at_a_token_witness :
  forallb well_spanned
    [Node Rule.workflow "workflow w v1 {step s {a ( 1 ) } } @@"
       [Node Rule.identifier "w" []; Node Rule.version "v1 " [];
        Node Rule.step "step s {a ( 1 ) }"
          [Node Rule.identifier "s" [];
           Node Rule.step_body "a ( 1 ) "
             [Node Rule.action "a ( 1 )"
                [Node Rule.command "a" [Node Rule.identifier "a" []];
                 Node Rule.param "1 " []]]];
        Node Rule.identity "" []]] = true.
Proof.
  apply (pairs_start_at_a_token "workflow w v1 {step s {a ( 1 ) } } @@").
  vm_compute. reflexivity.
Defined.

(** * The store and the registration client *)

(** ** The reducer *)

Lemma reduce_cons s a actions :
  Store.reduce s (a :: actions)
  = Store.reduce (Store.rootReducer (Some s) a) actions.
Proof. reflexivity. Qed.

(** X13. The fields of the store do not depend on each other.  After any
    actions, each of [publicKey], [setupDetailsState], [error] and
    [pingResult] holds the payload of the last action of its own type, or
    what it held before if there was none, and [registrationStatus] is true
    when it was true before or a registration was dispatched. *)
Theorem store_fields_are_independent :
  forall actions s,
    Store.publicKey (Store.reduce s actions)
    = Store.last_payload Store.public_key_of actions (Store.publicKey s)
    /\ Store.setupDetailsState (Store.reduce s actions)
       = Store.last_payload Store.setup_of actions
           (Store.setupDetailsState s)
    /\ Store.error (Store.reduce s actions)
       = Store.last_payload Store.error_of actions (Store.error s)
    /\ Store.pingResult (Store.reduce s actions)
       = Store.last_payload Store.ping_of actions (Store.pingResult s)
    /\ Store.registrationStatus (Store.reduce s actions)
       = Store.registrationStatus s
         || existsb Store.is_registration actions.
Proof.
  induction actions as [|a actions IH]; intros s.
  - cbn. now rewrite orb_false_r.
  - rewrite reduce_cons.
    destruct (IH (Store.rootReducer (Some s) a)) as (K & D & E & P & R).
    rewrite K, D, E, P, R.
    destruct a; cbn; repeat split; try reflexivity;
      now rewrite ?orb_true_r, ?orb_false_r.
Qed.

(** X14. The reducer has no action that undoes a registration or that clears
    an error besides the error action itself: [registrationStatus] stays
    true once it is, and actions that are no error action leave [error] as
    it was.  So after a registration that failed and one that succeeded the
    store holds both the status of success and the error of the failure. *)
Theorem registration_is_never_undone :
  forall actions s,
    (Store.registrationStatus s = true ->
     Store.registrationStatus (Store.reduce s actions) = true)
    /\ ((forall a, In a actions -> Store.error_of a = None) ->
        Store.error (Store.reduce s actions) = Store.error s)
    /\ forall m d,
        let s' := Store.reduce s
                    (actions ++ [Store.REGISTRATION_ERROR (Some m);
                                 Store.USE_REGISTRATION_CODE d]) in
        Store.registrationStatus s' = true /\ Store.error s' = Some m.
Proof.
  intros actions s. split; [|split].
  - revert s. induction actions as [|a actions IH]; intros s H; [exact H|].
    rewrite reduce_cons. apply IH. destruct a; cbn; auto.
  - revert s. induction actions as [|a actions IH]; intros s H; [reflexivity|].
    rewrite reduce_cons, IH by (intros b Hb; apply H; now right).
    specialize (H a (or_introl eq_refl)).
    destruct a; cbn; try reflexivity; discriminate H.
  - intros m d s'. unfold s', Store.reduce. rewrite fold_left_app.
    cbn. auto.
Qed.

Lemma registration_is_never_undone_witness :
  Store.registrationStatus
    (Store.reduce
       (Store.rootReducer None
          (Store.USE_REGISTRATION_CODE Store.setupInitialState))
       [Store.REGISTRATION_ERROR (Some "HTTP error: 500, e, m"%string);
        Store.OTHER "x"; Store.PING_ALL "pong"]) = true.
Proof.
  apply (proj1 (registration_is_never_undone _ _)). reflexivity.
Defined.

(** ** The registration thunk *)

Lemma handleHttpError_ok response :
  Api.handleHttpError response = inl tt
  <-> 200 <= Api.status response < 300.
Proof.
  unfold Api.handleHttpError.
  destruct (Api.status response <? 200) eqn:L;
    destruct (300 <=? Api.status response) eqn:H; cbn;
    rewrite ?Nat.ltb_lt, ?Nat.ltb_ge, ?Nat.leb_le, ?Nat.leb_gt in *;
    split; intros K; try discriminate; try reflexivity; lia.
Qed.

(** X15. [submitRegistrationCode] answers true exactly when the builder, the
    parsing and the request return and the status of the response is from
    200 to 299.  It then sets the endpoint to the address of the node and
    dispatches one action, the registration. *)
Theorem registration_succeeds_exactly_when :
  forall (Json Action : Type) (E : Api.Env Json Action) setupData w,
    (fst (Api.submitRegistrationCode E setupData w) = inl true
     <-> Api.request_succeeds E setupData)
    /\ (Api.request_succeeds E setupData ->
        snd (Api.submitRegistrationCode E setupData w)
        = {| Api.endpoint := Api.node_address setupData;
             Api.dispatched :=
               Api.dispatched w ++ [Api.useRegistrationCode E setupData] |}).
Proof.
  intros Json Action E d w.
  unfold Api.request_succeeds, Api.submitRegistrationCode, Api.try_catch,
    Api.bind, Api.call, Api.ret, Api.setEndpoint, Api.dispatch.
  destruct (Api.use_code_registration E _ _ _ _ _ _ _ _ _) as [m|e1].
  2:{ split; [split|].
      - destruct e1; cbn; discriminate.
      - intros (m & j & r & H & _). discriminate H.
      - intros (m & j & r & H & _). discriminate H. }
  destruct (Api.JSON_parse E m) as [j|e2] eqn:Hj.
  2:{ split; [split|].
      - destruct e2; cbn; discriminate.
      - intros (m' & j & r & H & H2 & _). injection H as <-. congruence.
      - intros (m' & j & r & H & H2 & _). injection H as <-. congruence. }
  destruct (Api.axios_post E _ (Some j)) as [r|e3] eqn:Hr.
  2:{ split; [split|].
      - destruct e3; cbn; discriminate.
      - intros (m' & j' & r & H & H2 & H3 & _). injection H as <-.
        rewrite Hj in H2. injection H2 as <-. congruence.
      - intros (m' & j' & r & H & H2 & H3 & _). injection H as <-.
        rewrite Hj in H2. injection H2 as <-. congruence. }
  pose proof (handleHttpError_ok r) as K.
  destruct (Api.handleHttpError r) as [[]|e4] eqn:Hh.
  - assert (S : 200 <= Api.status r < 300) by now apply K.
    cbn. split; [split|]; auto.
    intros _. exists m, j, r. auto.
  - assert (S : ~ 200 <= Api.status r < 300).
    { intros S. apply K in S. discriminate S. }
    assert (X : forall P : Prop,
               (exists m' j' r',
                   @inl string Api.Thrown m = inl m'
                   /\ Api.JSON_parse E m' = inl j'
                   /\ Api.axios_post E
                        (Api.node_address d ++ "/v1/use_registration_code")
                        (Some j') = inl r'
                   /\ 200 <= Api.status r' < 300) -> P).
    { intros P (m' & j' & r' & H & H2 & H3 & H4). injection H as <-.
      rewrite Hj in H2. injection H2 as <-.
      rewrite Hr in H3. injection H3 as <-. contradiction. }
    split; [split|].
    + destruct e4; cbn; discriminate.
    + apply X.
    + apply X.
Qed.

Lemma registration_succeeds_exactly_when_witness :
  snd (Api.submitRegistrationCode (Api.answering 200 Api.example_data "ok")
         Api.example_setup
         {| Api.endpoint := "http://old"; Api.dispatched := [] |})
  = {| Api.endpoint := "http://localhost:9550";
       Api.dispatched :=
         [] ++ [("useRegistrationCode", "http://localhost:9550")%string] |}.
Proof.
  apply (proj2 (registration_succeeds_exactly_when _ _
                  (Api.answering 200 Api.example_data "ok") Api.example_setup
                  {| Api.endpoint := "http://old"; Api.dispatched := [] |})).
  exists "{}"%string, "{}"%string,
    {| Api.status := 200; Api.data := Api.example_data |}.
  repeat split; cbn; lia.
Defined.

(** X16. When it does not answer true, [submitRegistrationCode] answers false:
    it never throws.  This is the case exactly when one of its calls
    throws; the endpoint is then left as it was, and the store is told of
    the first value thrown when that value is an [Error], by one
    registration error that carries its message.  A thrown value that is no
    [Error] is not reported: nothing is dispatched. *)
Theorem registration_failure_keeps_the_endpoint :
  forall (Json Action : Type) (E : Api.Env Json Action) setupData w,
    (~ Api.request_succeeds E setupData <->
     exists e, Api.thrown E setupData = Some e)
    /\ forall e,
        Api.thrown E setupData = Some e ->
        Api.submitRegistrationCode E setupData w
        = (inl false,
           {| Api.endpoint := Api.endpoint w;
              Api.dispatched :=
                Api.dispatched w
                ++ match e with
                   | Api.ErrorObject msg => [Api.registrationError E msg]
                   | Api.NotAnError => []
                   end |}).
Proof.
  intros Json Action E d w.
  unfold Api.request_succeeds, Api.thrown, Api.submitRegistrationCode,
    Api.try_catch, Api.bind, Api.call, Api.ret, Api.setEndpoint, Api.dispatch.
  destruct (Api.use_code_registration E _ _ _ _ _ _ _ _ _) as [m|e1].
  2:{ split; [split|].
      - eauto.
      - intros _ (m & j & r & H & _). discriminate H.
      - intros e H. injection H as <-.
        destruct e1; cbn; rewrite ?app_nil_r; destruct w; reflexivity. }
  destruct (Api.JSON_parse E m) as [j|e2] eqn:Hj.
  2:{ split; [split|].
      - eauto.
      - intros _ (m' & j & r & H & H2 & _). injection H as <-. congruence.
      - intros e H. injection H as <-.
        destruct e2; cbn; rewrite ?app_nil_r; destruct w; reflexivity. }
  destruct (Api.axios_post E _ (Some j)) as [r|e3] eqn:Hr.
  2:{ split; [split|].
      - eauto.
      - intros _ (m' & j' & r & H & H2 & H3 & _). injection H as <-.
        rewrite Hj in H2. injection H2 as <-. congruence.
      - intros e H. injection H as <-.
        destruct e3; cbn; rewrite ?app_nil_r; destruct w; reflexivity. }
  pose proof (handleHttpError_ok r) as K.
  destruct (Api.handleHttpError r) as [[]|e4] eqn:Hh.
  - split; [split|].
    + intros N. exfalso. apply N. exists m, j, r. repeat split; auto;
        now apply K.
    + intros [e H]. discriminate H.
    + intros e H. discriminate H.
  - split; [split|].
    + eauto.
    + intros _ (m' & j' & r' & H & H2 & H3 & H4). injection H as <-.
      rewrite Hj in H2. injection H2 as <-.
      rewrite Hr in H3. injection H3 as <-.
      apply K in H4. discriminate H4.
    + intros e H. injection H as <-.
      destruct e4; cbn; rewrite ?app_nil_r; destruct w; reflexivity.
Qed.

Lemma registration_failure_keeps_the_endpoint_witness :
  Api.submitRegistrationCode
    (Api.answering 503 Api.example_data "Request failed with status code 503")
    Api.example_setup
    {| Api.endpoint := "http://old"; Api.dispatched := [] |}
  = (inl false,
     {| Api.endpoint := "http://old";
        Api.dispatched :=
          [] ++ [("registrationError",
                  "Request failed with status code 503")%string] |}).
Proof.
  apply (proj2 (registration_failure_keeps_the_endpoint _ _
                  (Api.answering 503 Api.example_data
                     "Request failed with status code 503")
                  Api.example_setup
                  {| Api.endpoint := "http://old"; Api.dispatched := [] |})
           (Api.ErrorObject "Request failed with status code 503")).
  reflexivity.
Defined.

(** ** A ping after a registration *)

Lemma submitRegistrationCode_success (Json Action : Type)
  (E : Api.Env Json Action) setupData w :
  Api.request_succeeds E setupData ->
  Api.submitRegistrationCode E setupData w
  = (inl true,
     {| Api.endpoint := Api.node_address setupData;
        Api.dispatched :=
          Api.dispatched w ++ [Api.useRegistrationCode E setupData] |}).
Proof.
  intros (m & j & r & Hm & Hj & Hr & S).
  unfold Api.submitRegistrationCode, Api.try_catch,
    Api.bind, Api.call, Api.ret, Api.setEndpoint, Api.dispatch.
  rewrite Hm, Hj, Hr. apply handleHttpError_ok in S. rewrite S. reflexivity.
Qed.



(** ** The public key *)

(** X19. [fetchPublicKey] returns in every case and leaves the endpoint as it
    was.  It sends its request to the endpoint kept by [ApiConfig]; when the
    request returns, the data of the response are dispatched as the public
    key, once and as they came, and when the request throws, nothing is
    dispatched. *)
Theorem public_key_is_dispatched_as_returned :
  forall (Json Action : Type) (E : Api.Env Json Action) w,
    fst (Api.fetchPublicKey E w) = inl tt
    /\ Api.endpoint (snd (Api.fetchPublicKey E w)) = Api.endpoint w
    /\ Api.dispatched (snd (Api.fetchPublicKey E w))
       = Api.dispatched w
         ++ match Api.axios_get E
                    (Api.endpoint w ++ "/get_public_key")%string with
            | inl response => [Api.getPublicKey E (Api.data response)]
            | inr _ => []
            end.
Proof.
  intros Json Action E w.
  unfold Api.fetchPublicKey, Api.getEndpoint, Api.try_catch, Api.bind,
    Api.call, Api.ret, Api.dispatch.
  destruct (Api.axios_get E _) as [r|e]; cbn; rewrite ?app_nil_r; auto.
Qed.
